(** * Homa transport coordinator: a shallow embedding of [Transport.cc]

    The development models the coordinator of the Homa transport
    ([Homa::Core::Transport] and its nested [Op]) as pure functions over an
    explicit transport state.  Pointers to [Op] objects are addresses into
    the object pool; the calls the coordinator makes into its collaborators
    (Sender, Receiver, Driver) are recorded, in order, in a trace.

    Locks are not modelled: every method is one atomic step, and a run of
    the transport is a sequence of such steps.  The two bounded loops of
    [poll] take, in addition, what other threads do between their
    iterations as a parameter.

    [Transport.h], [Protocol.h] and the headers of the messages are not
    among the sources.  What the coordinator needs of them is either a
    parameter ([Externals]) or modelled from the specification, and marked
    so. *)

From stdpp Require Import gmap list.

(** ** Wire-level identifiers ([Protocol.h]) *)

Module Protocol.

(** [Protocol::OpId]: the pair (transportId, sequence). *)
Record OpId := mkOpId { transportId : Z; sequence : Z }.

#[global] Instance OpId_eq_dec : EqDecision OpId.
Proof. solve_decision. Defined.

#[global] Instance OpId_countable : Countable OpId.
Proof.
  apply (inj_countable' (λ o, (transportId o, sequence o))
                        (λ '(a, b), mkOpId a b)).
  by intros [].
Defined.

(** [Protocol::MessageId]: an [OpId] extended with a tag.  Where the source
    passes a [MessageId] for an [OpId] (the key of [remoteOps], the
    constructor of [Op]) the base part [opId] is what is used. *)
Record MessageId := mkMessageId { opId : OpId; tag : Z }.

#[global] Instance MessageId_eq_dec : EqDecision MessageId.
Proof. solve_decision. Defined.

(** The opcodes of [Protocol::Packet] that [processPackets] has a case
    for. *)
Inductive Opcode :=
  DATA | GRANT | DONE | RESEND | BUSY | PING | UNKNOWN | ERROR.

#[global] Instance Opcode_eq_dec : EqDecision Opcode.
Proof. solve_decision. Defined.

End Protocol.

(** A driver address; [Driver::Address::toRaw] and [Driver::getAddress]
    convert between an address and its raw wire form, which the model
    identifies. *)
Abbreviation Address := Z (only parsing).

(** Modelled from the spec: [Message] (reached with [get()]) is declared
    outside the sources.  Of the buffer behind a message the model keeps
    whether the [Protocol::Message::Header] has been defined on it (which
    strips the header off the payload), and the [replyAddress] field of
    that header. *)
Record Message := mkMessage { headerDefined : bool; replyAddress : Address }.

#[global] Instance Message_eq_dec : EqDecision Message.
Proof. solve_decision. Defined.

Definition defineHeader (m : Message) : Message :=
  {| headerDefined := true; replyAddress := replyAddress m |}.

Definition setReplyAddress (a : Address) (m : Message) : Message :=
  {| headerDefined := headerDefined m; replyAddress := a |}.

Module OutboundMessage.

(** Modelled from the spec: [OutboundMessage.h] is not among the sources.
    The coordinator compares the state of an outbound message against
    [SENT] and [COMPLETED]; the other states stand for a message that is
    neither. *)
Inductive State := NOT_STARTED | IN_PROGRESS | SENT | COMPLETED | FAILED.

#[global] Instance State_eq_dec : EqDecision State.
Proof. solve_decision. Defined.

Record t := mk { getState : State; getId : Protocol.MessageId; get : Message }.

#[global] Instance t_eq_dec : EqDecision t.
Proof. solve_decision. Defined.

End OutboundMessage.

Module InboundMessage.

(** Modelled from the spec: [InboundMessage.h] is not among the sources.
    The fields are those that the coordinator and
    [Receiver::sendDonePacket] read; [op] is the back pointer stored by
    [registerOp]. *)
Record t := mk {
  getId : Protocol.MessageId;
  source : Address;
  isReady : bool;
  get : Message;
  op : option positive
}.

#[global] Instance t_eq_dec : EqDecision t.
Proof. solve_decision. Defined.

Definition registerOp (p : positive) (m : t) : t :=
  {| getId := getId m; source := source m; isReady := isReady m;
     get := get m; op := Some p |}.

Definition withMessage (b : Message) (m : t) : t :=
  {| getId := getId m; source := source m; isReady := isReady m;
     get := b; op := op m |}.

End InboundMessage.

Module OpContext.

(** [OpContext::State]: the four states that [processUpdates] tells
    apart. *)
Inductive State := NOT_STARTED | IN_PROGRESS | COMPLETED | FAILED.

#[global] Instance State_eq_dec : EqDecision State.
Proof. solve_decision. Defined.

End OpContext.

(** ** The operation object ([Transport::Op]) *)

(** An [Op*]: the address of a slot of the object pool. *)
Abbreviation OpPtr := positive (only parsing).

Record Op := mkOp {
  opId : Protocol.OpId;
  isServerOp : bool;
  state : OpContext.State;
  retained : bool;
  outMessage : OutboundMessage.t;
  inMessage : option InboundMessage.t;
  destroy : bool
}.

#[global] Instance Op_eq_dec : EqDecision Op.
Proof. solve_decision. Defined.

Definition Op_setState (s : OpContext.State) (o : Op) : Op :=
  {| opId := opId o; isServerOp := isServerOp o; state := s;
     retained := retained o; outMessage := outMessage o;
     inMessage := inMessage o; destroy := destroy o |}.

Definition Op_setRetained (b : bool) (o : Op) : Op :=
  {| opId := opId o; isServerOp := isServerOp o; state := state o;
     retained := b; outMessage := outMessage o;
     inMessage := inMessage o; destroy := destroy o |}.

Definition Op_setOutMessage (m : OutboundMessage.t) (o : Op) : Op :=
  {| opId := opId o; isServerOp := isServerOp o; state := state o;
     retained := retained o; outMessage := m;
     inMessage := inMessage o; destroy := destroy o |}.

Definition Op_setInMessage (m : option InboundMessage.t) (o : Op) : Op :=
  {| opId := opId o; isServerOp := isServerOp o; state := state o;
     retained := retained o; outMessage := outMessage o;
     inMessage := m; destroy := destroy o |}.

Definition Op_setDestroy (b : bool) (o : Op) : Op :=
  {| opId := opId o; isServerOp := isServerOp o; state := state o;
     retained := retained o; outMessage := outMessage o;
     inMessage := inMessage o; destroy := b |}.

(** ** Collaborators *)

(** The raw packet driver, as far as the coordinator reads it. *)
Record Driver := mkDriver { getLocalAddress : Address }.

(** A received packet: the opcode that [processPackets] reads from the
    [CommonHeader] at the start of its payload.  The field is whatever the
    wire carried: [None] stands for a value that is none of the eight
    opcodes. *)
Record Packet := mkPacket { opcode : option Protocol.Opcode }.

#[global] Instance Packet_eq_dec : EqDecision Packet.
Proof. solve_decision. Defined.

(** The Sender as configured by the transport's constructor. *)
Record Sender := mkSender {
  sender_messageTimeoutCycles : Z;
  sender_pingIntervalCycles : Z
}.

(** The Receiver as configured by the transport's constructor, with its
    queue [receivedMessages] (Receiver.h) of messages waiting for
    [receiveMessage]. *)
Record Receiver := mkReceiver {
  receiver_messageTimeoutCycles : Z;
  receiver_resendIntervalCycles : Z;
  receivedMessages : list InboundMessage.t
}.

(** Handlers of the Sender and the Receiver that [processPackets] routes
    packets to. *)
Inductive Handler :=
| handleDataPacket | handleGrantPacket | handleDonePacket
| handleResendPacket | handleBusyPacket | handlePingPacket
| handleUnknownPacket | handleErrorPacket.

#[global] Instance Handler_eq_dec : EqDecision Handler.
Proof. solve_decision. Defined.

(** Calls made by the coordinator into its collaborators. *)
Inductive Event :=
| SenderSendMessage (id : Protocol.MessageId) (destination : Address)
                    (op : OpPtr)
| SenderDropMessage (op : OpPtr)
| ReceiverDropMessage (message : InboundMessage.t)
| SendDonePacket (destination : Address) (id : Protocol.MessageId)
| HandlePacket (h : Handler) (packet : Packet)
| SenderPoll
| ReceiverPoll.

#[global] Instance Event_eq_dec : EqDecision Event.
Proof. solve_decision. Defined.

(** ** The transport state ([Transport]) *)

Record Transport := mkTransport {
  driver : Driver;
  transportId : Z;
  nextOpSequenceNumber : Z;
  sender : Sender;
  receiver : Receiver;
  opPool : gmap positive Op;
  activeOps : gset positive;
  remoteOps : gmap Protocol.OpId positive;
  updateHints_ops : gset positive;
  updateHints_order : list positive;
  unusedOps : list positive;
  pendingServerOps : list positive;
  trace : list Event
}.

Definition set_nextOpSequenceNumber (n : Z) (t : Transport) : Transport :=
  mkTransport (driver t) (transportId t) n (sender t) (receiver t)
    (opPool t) (activeOps t) (remoteOps t) (updateHints_ops t)
    (updateHints_order t) (unusedOps t) (pendingServerOps t) (trace t).

Definition set_receiver (r : Receiver) (t : Transport) : Transport :=
  mkTransport (driver t) (transportId t) (nextOpSequenceNumber t) (sender t)
    r (opPool t) (activeOps t) (remoteOps t) (updateHints_ops t)
    (updateHints_order t) (unusedOps t) (pendingServerOps t) (trace t).

Definition set_opPool (m : gmap positive Op) (t : Transport) : Transport :=
  mkTransport (driver t) (transportId t) (nextOpSequenceNumber t) (sender t)
    (receiver t) m (activeOps t) (remoteOps t) (updateHints_ops t)
    (updateHints_order t) (unusedOps t) (pendingServerOps t) (trace t).

Definition set_activeOps (s : gset positive) (t : Transport) : Transport :=
  mkTransport (driver t) (transportId t) (nextOpSequenceNumber t) (sender t)
    (receiver t) (opPool t) s (remoteOps t) (updateHints_ops t)
    (updateHints_order t) (unusedOps t) (pendingServerOps t) (trace t).

Definition set_remoteOps (m : gmap Protocol.OpId positive) (t : Transport)
  : Transport :=
  mkTransport (driver t) (transportId t) (nextOpSequenceNumber t) (sender t)
    (receiver t) (opPool t) (activeOps t) m (updateHints_ops t)
    (updateHints_order t) (unusedOps t) (pendingServerOps t) (trace t).

Definition set_updateHints (s : gset positive) (q : list positive)
  (t : Transport) : Transport :=
  mkTransport (driver t) (transportId t) (nextOpSequenceNumber t) (sender t)
    (receiver t) (opPool t) (activeOps t) (remoteOps t) s q
    (unusedOps t) (pendingServerOps t) (trace t).

Definition set_unusedOps (q : list positive) (t : Transport) : Transport :=
  mkTransport (driver t) (transportId t) (nextOpSequenceNumber t) (sender t)
    (receiver t) (opPool t) (activeOps t) (remoteOps t) (updateHints_ops t)
    (updateHints_order t) q (pendingServerOps t) (trace t).

Definition set_pendingServerOps (q : list positive) (t : Transport)
  : Transport :=
  mkTransport (driver t) (transportId t) (nextOpSequenceNumber t) (sender t)
    (receiver t) (opPool t) (activeOps t) (remoteOps t) (updateHints_ops t)
    (updateHints_order t) (unusedOps t) q (trace t).

(** Record a call into a collaborator. *)
Definition emit (e : Event) (t : Transport) : Transport :=
  mkTransport (driver t) (transportId t) (nextOpSequenceNumber t) (sender t)
    (receiver t) (opPool t) (activeOps t) (remoteOps t) (updateHints_ops t)
    (updateHints_order t) (unusedOps t) (pendingServerOps t)
    (trace t ++ [e]).

(** Write back the fields of the Op at address [p]. *)
Definition storeOp (p : OpPtr) (o : Op) (t : Transport) : Transport :=
  set_opPool (<[p := o]> (opPool t)) t.

(** Wrap-around of [uint64_t]. *)
Definition wrap64 (z : Z) : Z := (z mod 2 ^ 64)%Z.

(** Modelled from the spec: [hintUpdatedOp] is declared in [Transport.h],
    which is not among the sources.  Posting a hint inserts the Op into the
    membership set and the ordered queue; a duplicate is ignored. *)
Definition hintUpdatedOp (p : OpPtr) (t : Transport) : Transport :=
  if decide (p ∈ updateHints_ops t) then t
  else set_updateHints ({[p]} ∪ updateHints_ops t)
         (updateHints_order t ++ [p]) t.

(** Modelled from the spec: [Op::drop] is declared in [Transport.h], which
    is not among the sources.  It sets [destroy] and appends the Op to
    [unusedOps]. *)
Definition drop (p : OpPtr) (o : Op) (t : Transport) : Transport :=
  set_unusedOps (unusedOps t ++ [p]) (storeOp p (Op_setDestroy true o) t).

(** [Receiver::sendDonePacket] (Receiver.h): a DONE header is sent to the
    source of the message, carrying the message id. *)
Definition sendDonePacket (m : InboundMessage.t) (t : Transport) : Transport :=
  emit (SendDonePacket (InboundMessage.source m) (InboundMessage.getId m)) t.

(** Basic timeout unit and the timeouts derived from it, in microseconds. *)
Definition BASE_TIMEOUT_US : Z := 2000.

Definition MESSAGE_TIMEOUT_US : Z := wrap64 (40 * BASE_TIMEOUT_US).

Definition PING_INTERVAL_US : Z := wrap64 (3 * BASE_TIMEOUT_US).

Definition RESEND_INTERVAL_US : Z := BASE_TIMEOUT_US.

(** The value of a container's [size()] once stored in a [uint]. *)
Definition to_uint (n : nat) : nat := Z.to_nat (Z.of_nat n mod 2 ^ 32).

(** Constants and helpers of headers that are not among the sources:
    the two reserved tags of [Protocol::MessageId] and the number of values
    of its tag field ([Protocol.h]), [PerfUtils::Cycles::fromMicroseconds],
    and the constructor of [OutboundMessage]. *)
Class Externals := {
  INITIAL_REQUEST_TAG : Z;
  ULTIMATE_RESPONSE_TAG : Z;
  TAG_MODULUS : Z;
  fromMicroseconds : Z → Z;
  OutboundMessage_new : Driver → OutboundMessage.t
}.

(** ** Sample data

    Concrete messages, Ops and transports on which the properties below
    are exercised.  The reserved tags are taken as INITIAL_REQUEST_TAG = 1
    and ULTIMATE_RESPONSE_TAG = 0 there. *)

Definition sample_driver : Driver := mkDriver 99.

Definition sample_externals : Externals :=
  {| INITIAL_REQUEST_TAG := 1;
     ULTIMATE_RESPONSE_TAG := 0;
     TAG_MODULUS := 2 ^ 32;
     fromMicroseconds := λ us, (us * 2400)%Z;
     OutboundMessage_new := λ _,
       OutboundMessage.mk OutboundMessage.NOT_STARTED
         (Protocol.mkMessageId (Protocol.mkOpId 0 0) 0) (mkMessage false 0) |}.

Definition sample_opId : Protocol.OpId := Protocol.mkOpId 7 1.

(** An initial request, a delegated request and a response, all of the
    operation [sample_opId]. *)
Definition sample_request : InboundMessage.t :=
  InboundMessage.mk (Protocol.mkMessageId sample_opId 1) 55 true
    (mkMessage false 55) None.

Definition sample_delegated : InboundMessage.t :=
  InboundMessage.mk (Protocol.mkMessageId sample_opId 2) 66 true
    (mkMessage false 55) None.

Definition sample_response : InboundMessage.t :=
  InboundMessage.mk (Protocol.mkMessageId sample_opId 0) 77 true
    (mkMessage false 77) None.

(** A server Op in progress whose reply has been sent; [dropped] says
    whether its [destroy] flag is set. *)
Definition sample_server (dropped : bool) : Op :=
  {| opId := sample_opId; isServerOp := true;
     state := OpContext.IN_PROGRESS; retained := false;
     outMessage :=
       OutboundMessage.mk OutboundMessage.SENT
         (Protocol.mkMessageId sample_opId 0) (mkMessage true 55);
     inMessage := Some (InboundMessage.registerOp 1 sample_delegated);
     destroy := dropped |}.

(** A transport whose only Op is [sample_server dropped], at address 1. *)
Definition sample_transport (dropped : bool) : Transport :=
  {| driver := sample_driver; transportId := 7; nextOpSequenceNumber := 1;
     sender := mkSender 192000000 14400000;
     receiver := mkReceiver 192000000 4800000 [];
     opPool := {[ 1%positive := sample_server dropped ]};
     activeOps := {[ 1%positive ]};
     remoteOps := ∅;
     updateHints_ops := ∅; updateHints_order := [];
     unusedOps := if dropped then [1%positive] else [];
     pendingServerOps := []; trace := [] |}.

(** The server Op of [sample_delegated] once the application has received
    it and replied, and the Sender has sent the reply. *)
Definition sample_replied : Op :=
  {| opId := sample_opId; isServerOp := true;
     state := OpContext.IN_PROGRESS; retained := true;
     outMessage :=
       OutboundMessage.mk OutboundMessage.SENT
         (Protocol.mkMessageId sample_opId 0) (mkMessage true 55);
     inMessage :=
       Some (InboundMessage.mk (Protocol.mkMessageId sample_opId 2) 66 true
               (mkMessage true 55) (Some 1%positive));
     destroy := false |}.

(** ** The methods of [Transport] *)

Section Core.

Context `{externals : Externals}.

(** Modelled from the spec: the constructor of [Op] is declared in
    [Transport.h], which is not among the sources.  A new Op is in state
    NotStarted, is not retained yet, is not marked for destruction, has no
    inbound message and owns a new outbound message. *)
Definition Op_new (d : Driver) (id : Protocol.OpId) (server : bool) : Op :=
  {| opId := id; isServerOp := server;
     state := OpContext.NOT_STARTED; retained := false;
     outMessage := OutboundMessage_new d;
     inMessage := None; destroy := false |}.

(** [Transport::Op::processUpdates], run on the Op at address [p].  The
    source dereferences the inbound message of a server Op without a test
    (it asserts its presence when the Op is created); here an address with
    no live Op behind it, and a server Op whose inbound message would be
    dereferenced but is missing, leave the transport as it is. *)
Definition processUpdates (p : OpPtr) (t : Transport) : Transport :=
  match opPool t !! p with
  | None => t
  | Some o =>
    if destroy o then t
    else
      let copyOfState := state o in
      let outState := OutboundMessage.getState (outMessage o) in
      if isServerOp o then
        match copyOfState with
        | OpContext.NOT_STARTED =>
            match inMessage o with
            | None => t
            | Some m =>
                if InboundMessage.isReady m then
                  let m' :=
                    InboundMessage.withMessage
                      (defineHeader (InboundMessage.get m)) m in
                  let o1 := Op_setInMessage (Some m') o in
                  let t1 := storeOp p o1 t in
                  let t2 :=
                    set_pendingServerOps (pendingServerOps t1 ++ [p]) t1 in
                  storeOp p (Op_setState OpContext.IN_PROGRESS o1) t2
                else t
            end
        | OpContext.IN_PROGRESS =>
            if bool_decide (outState = OutboundMessage.COMPLETED)
               || (bool_decide
                     (Protocol.tag (OutboundMessage.getId (outMessage o))
                      = ULTIMATE_RESPONSE_TAG)
                   && bool_decide (outState = OutboundMessage.SENT))
            then
              match inMessage o with
              | None => t
              | Some m =>
                  let t1 := storeOp p (Op_setState OpContext.COMPLETED o) t in
                  let t2 :=
                    if bool_decide
                         (Protocol.tag (InboundMessage.getId m)
                          ≠ INITIAL_REQUEST_TAG)
                    then sendDonePacket m t1
                    else t1 in
                  hintUpdatedOp p t2
              end
            else t
        | OpContext.COMPLETED =>
            if negb (retained o) then drop p o t else t
        | OpContext.FAILED =>
            if negb (retained o) then drop p o t else t
        end
      else
        if negb (retained o) then drop p o t
        else
          match copyOfState with
          | OpContext.NOT_STARTED => t
          | OpContext.IN_PROGRESS =>
              match inMessage o with
              | None => t
              | Some m =>
                  if InboundMessage.isReady m then
                    let m' :=
                      InboundMessage.withMessage
                        (defineHeader (InboundMessage.get m)) m in
                    let o1 := Op_setInMessage (Some m') o in
                    let t1 :=
                      storeOp p (Op_setState OpContext.COMPLETED o1) t in
                    hintUpdatedOp p t1
                  else t
              end
          | OpContext.COMPLETED => t
          | OpContext.FAILED => t
          end
  end.

(** The constructor [Transport::Transport]. *)
Definition Transport_new (d : Driver) (id : Z) : Transport :=
  {| driver := d;
     transportId := id;
     nextOpSequenceNumber := 1;
     sender :=
       mkSender (fromMicroseconds MESSAGE_TIMEOUT_US)
                (fromMicroseconds PING_INTERVAL_US);
     receiver :=
       mkReceiver (fromMicroseconds MESSAGE_TIMEOUT_US)
                  (fromMicroseconds RESEND_INTERVAL_US) [];
     opPool := ∅; activeOps := ∅; remoteOps := ∅;
     updateHints_ops := ∅; updateHints_order := [];
     unusedOps := []; pendingServerOps := []; trace := [] |}.

(** [ObjectPool::construct]: the new object lives at an address that holds
    no live object. *)
Definition opPool_construct (o : Op) (t : Transport) : OpPtr * Transport :=
  let p := fresh (dom (opPool t)) in
  (p, set_opPool (<[p := o]> (opPool t)) t).

(** [std::unordered_map::insert]: an existing key keeps its value. *)
Definition remoteOps_insert (k : Protocol.OpId) (p : OpPtr)
  (m : gmap Protocol.OpId positive) : gmap Protocol.OpId positive :=
  match m !! k with
  | Some _ => m
  | None => <[k := p]> m
  end.

(** [Transport::allocOp]. *)
Definition allocOp (t : Transport) : OpPtr * Transport :=
  let id := Protocol.mkOpId (transportId t) (nextOpSequenceNumber t) in
  let t1 := set_nextOpSequenceNumber (wrap64 (nextOpSequenceNumber t + 1)) t in
  let o := Op_new (driver t1) id false in
  let '(p, t2) := opPool_construct o t1 in
  let t3 := set_activeOps ({[p]} ∪ activeOps t2) t2 in
  let t4 := set_remoteOps (remoteOps_insert id p (remoteOps t3)) t3 in
  let out := outMessage o in
  let header :=
    setReplyAddress (getLocalAddress (driver t4))
      (defineHeader (OutboundMessage.get out)) in
  let o1 :=
    Op_setOutMessage
      (OutboundMessage.mk (OutboundMessage.getState out)
         (OutboundMessage.getId out) header) o in
  (p, storeOp p (Op_setRetained true o1) t4).

(** [Transport::receiveOp]: [None] is the null pointer.  A queued address
    with no live Op behind it, or an Op without inbound message (excluded
    by the source's assertions), is returned untouched. *)
Definition receiveOp (t : Transport) : option OpPtr * Transport :=
  match pendingServerOps t with
  | [] => (None, t)
  | p :: rest =>
      let t1 := set_pendingServerOps rest t in
      match opPool t1 !! p with
      | None => (Some p, t1)
      | Some o =>
          match inMessage o with
          | None => (Some p, t1)
          | Some m =>
              let out := outMessage o in
              let header :=
                setReplyAddress (replyAddress (InboundMessage.get m))
                  (defineHeader (OutboundMessage.get out)) in
              let o1 :=
                Op_setOutMessage
                  (OutboundMessage.mk (OutboundMessage.getState out)
                     (OutboundMessage.getId out) header) o in
              (Some p, storeOp p (Op_setRetained true o1) t1)
          end
      end
  end.

(** [Transport::releaseOp]. *)
Definition releaseOp (p : OpPtr) (t : Transport) : Transport :=
  match opPool t !! p with
  | None => t
  | Some o => hintUpdatedOp p (storeOp p (Op_setRetained false o) t)
  end.

(** [Transport::sendRequest].  [Sender::sendMessage] is recorded in the
    trace; what the Sender then does to the outbound message is its own
    business. *)
Definition sendRequest (p : OpPtr) (destination : Address) (t : Transport)
  : Transport :=
  match opPool t !! p with
  | None => t
  | Some o =>
      if isServerOp o then
        match inMessage o with
        | None => t
        | Some m =>
            let requestId := InboundMessage.getId m in
            let delegationId :=
              Protocol.mkMessageId (Protocol.opId requestId)
                ((Protocol.tag requestId + 1) mod TAG_MODULUS)%Z in
            emit (SenderSendMessage delegationId destination p) t
        end
      else
        let t1 := storeOp p (Op_setState OpContext.IN_PROGRESS o) t in
        emit (SenderSendMessage
                (Protocol.mkMessageId (opId o) INITIAL_REQUEST_TAG)
                destination p) t1
  end.

(** [Transport::sendReply].  The source asserts that the Op is a server Op
    and then goes on without a test of the role: in a build without
    assertions the call does to a client Op what it does to a server Op,
    and that is what the model follows.  An Op without inbound message,
    which the source would dereference, is left alone. *)
Definition sendReply (p : OpPtr) (t : Transport) : Transport :=
  match opPool t !! p with
  | None => t
  | Some o =>
      match inMessage o with
      | None => t
      | Some m =>
          let id := Protocol.opId (InboundMessage.getId m) in
          let replyTo := replyAddress (InboundMessage.get m) in
          let t1 := storeOp p (Op_setState OpContext.IN_PROGRESS o) t in
          emit (SenderSendMessage
                  (Protocol.mkMessageId id ULTIMATE_RESPONSE_TAG)
                  replyTo p) t1
      end
  end.

(** [Transport::processPackets]: the driver hands over at most [MAX_BURST]
    of the packets [rx] it has.  The [switch] on the opcode has no default:
    a packet whose opcode is none of the eight reaches no handler.  The
    assertion that a packet is long enough to hold a [CommonHeader] (whose
    size is declared in [Protocol.h], not among the sources) is not
    checked, as in a build without assertions. *)
Definition MAX_BURST : nat := 32.

Definition route (packet : Packet) : option Handler :=
  match opcode packet with
  | Some Protocol.DATA => Some handleDataPacket
  | Some Protocol.GRANT => Some handleGrantPacket
  | Some Protocol.DONE => Some handleDonePacket
  | Some Protocol.RESEND => Some handleResendPacket
  | Some Protocol.BUSY => Some handleBusyPacket
  | Some Protocol.PING => Some handlePingPacket
  | Some Protocol.UNKNOWN => Some handleUnknownPacket
  | Some Protocol.ERROR => Some handleErrorPacket
  | None => None
  end.

Definition processPackets (rx : list Packet) (t : Transport) : Transport :=
  foldl (λ t' packet,
           match route packet with
           | Some h => emit (HandlePacket h packet) t'
           | None => t'
           end) t
        (take MAX_BURST rx).

(** [Receiver::receiveMessage]: the next ready message, if any. *)
Definition receiveMessage (t : Transport)
  : option (InboundMessage.t * Transport) :=
  match receivedMessages (receiver t) with
  | [] => None
  | m :: rest =>
      Some (m, set_receiver
                 (mkReceiver (receiver_messageTimeoutCycles (receiver t))
                    (receiver_resendIntervalCycles (receiver t)) rest) t)
  end.

(** The body of the loop of [Transport::processInboundMessages], for one
    message returned by [receiveMessage].  A [remoteOps] entry with no live
    Op behind it leaves the state as it is. *)
Definition processInboundMessage (message : InboundMessage.t) (t : Transport)
  : Transport :=
  let id := InboundMessage.getId message in
  if bool_decide (Protocol.tag id = ULTIMATE_RESPONSE_TAG) then
    match remoteOps t !! Protocol.opId id with
    | Some p =>
        match opPool t !! p with
        | None => t
        | Some o =>
            let message' := InboundMessage.registerOp p message in
            hintUpdatedOp p (storeOp p (Op_setInMessage (Some message') o) t)
        end
    | None => emit (ReceiverDropMessage message) t
    end
  else
    let o := Op_new (driver t) (Protocol.opId id) true in
    let '(p, t1) := opPool_construct o t in
    let t2 := set_activeOps ({[p]} ∪ activeOps t1) t1 in
    let message' := InboundMessage.registerOp p message in
    hintUpdatedOp p (storeOp p (Op_setInMessage (Some message') o) t2).

(** The loop of [processInboundMessages]; [fuel] bounds the number of
    iterations. *)
Fixpoint processInboundMessages_loop (fuel : nat) (t : Transport)
  : Transport :=
  match fuel with
  | O => t
  | S fuel' =>
      match receiveMessage t with
      | None => t
      | Some (message, t1) =>
          processInboundMessages_loop fuel' (processInboundMessage message t1)
      end
  end.

(** [Transport::processInboundMessages].  The body never queues a message,
    so the length of the queue is fuel enough to drain it. *)
Definition processInboundMessages (t : Transport) : Transport :=
  processInboundMessages_loop (length (receivedMessages (receiver t))) t.

(** Taking a hint in [checkForUpdates]: [None] when the queue is empty. *)
Definition takeHint (t : Transport) : option (OpPtr * Transport) :=
  match updateHints_order t with
  | [] => None
  | hint :: rest =>
      Some (hint, set_updateHints (updateHints_ops t ∖ {[hint]}) rest t)
  end.

(** The loop of [Transport::checkForUpdates], with [n] iterations left.
    [env i] is what other threads do to the transport before iteration [i]
    takes its hint.  The result carries the hints taken, in order. *)
Fixpoint checkForUpdates_loop (env : nat → Transport → Transport)
  (i n : nat) (t : Transport) : list OpPtr * Transport :=
  match n with
  | O => ([], t)
  | S n' =>
      let t0 := env i t in
      match takeHint t0 with
      | None => ([], t0)
      | Some (hint, t1) =>
          let t2 :=
            if decide (hint ∈ activeOps t1) then processUpdates hint t1
            else t1 in
          let '(taken, t3) := checkForUpdates_loop env (S i) n' t2 in
          (hint :: taken, t3)
      end
  end.

(** [Transport::checkForUpdates] among other threads. *)
Definition checkForUpdates_with (env : nat → Transport → Transport)
  (t : Transport) : list OpPtr * Transport :=
  let hints := to_uint (size (updateHints_ops t)) in
  checkForUpdates_loop env 0 hints t.

(** [Transport::checkForUpdates] on its own. *)
Definition checkForUpdates (t : Transport) : Transport :=
  snd (checkForUpdates_with (λ _ t', t') t).

(** The body of the loop of [Transport::cleanupOps] once [p] has been
    popped.  (The assertion that [destroy] is set is not checked.) *)
Definition cleanupOp (p : OpPtr) (t : Transport) : Transport :=
  if decide (p ∈ activeOps t) then
    match opPool t !! p with
    | None => t
    | Some o =>
        let t1 := emit (SenderDropMessage p) t in
        let t2 :=
          match inMessage o with
          | Some m => emit (ReceiverDropMessage m) t1
          | None => t1
          end in
        let t3 :=
          if isServerOp o then t2
          else set_remoteOps (delete (opId o) (remoteOps t2)) t2 in
        let t4 := set_activeOps (activeOps t3 ∖ {[p]}) t3 in
        set_opPool (delete p (opPool t4)) t4
    end
  else t.

(** The loop of [Transport::cleanupOps], with [n] iterations left; [env]
    as in [checkForUpdates_loop].  The result carries the Ops popped. *)
Fixpoint cleanupOps_loop (env : nat → Transport → Transport)
  (i n : nat) (t : Transport) : list OpPtr * Transport :=
  match n with
  | O => ([], t)
  | S n' =>
      let t0 := env i t in
      match unusedOps t0 with
      | [] => ([], t0)
      | p :: rest =>
          let t1 := set_unusedOps rest t0 in
          let '(popped, t2) :=
            cleanupOps_loop env (S i) n' (cleanupOp p t1) in
          (p :: popped, t2)
      end
  end.

(** [Transport::cleanupOps] among other threads. *)
Definition cleanupOps_with (env : nat → Transport → Transport)
  (t : Transport) : list OpPtr * Transport :=
  let count := to_uint (length (unusedOps t)) in
  cleanupOps_loop env 0 count t.

(** [Transport::cleanupOps] on its own. *)
Definition cleanupOps (t : Transport) : Transport :=
  snd (cleanupOps_with (λ _ t', t') t).

(** [Transport::poll]; [rx] is what the driver has received. *)
Definition poll (rx : list Packet) (t : Transport) : Transport :=
  let t1 := processPackets rx t in
  let t2 := emit ReceiverPoll (emit SenderPoll t1) in
  cleanupOps (checkForUpdates (processInboundMessages t2)).

(** ** Runs of a transport *)

(** Modelled from the spec: what the Receiver and the Sender do on their
    own ([Receiver.cc] and [Sender.cc] are not among the sources), as far
    as the coordinator can see it.  A message becomes ready and is queued
    for [receiveMessage]; the outbound message of an Op changes state and
    id, and the Sender posts an update hint for the Op. *)
Definition Receiver_ready (m : InboundMessage.t) (t : Transport) : Transport :=
  set_receiver
    (mkReceiver (receiver_messageTimeoutCycles (receiver t))
       (receiver_resendIntervalCycles (receiver t))
       (receivedMessages (receiver t) ++ [m])) t.

Definition Sender_progress (p : OpPtr) (s : OutboundMessage.State)
  (id : Protocol.MessageId) (t : Transport) : Transport :=
  match opPool t !! p with
  | None => t
  | Some o =>
      hintUpdatedOp p
        (storeOp p
           (Op_setOutMessage
              (OutboundMessage.mk s id (OutboundMessage.get (outMessage o)))
              o) t)
  end.

(** The calls of the public API, the helpers of [poll] on their own,
    [processUpdates] on one Op, and the moves of Sender and Receiver. *)
Inductive Call :=
| CallAllocOp
| CallReceiveOp
| CallReleaseOp (p : OpPtr)
| CallSendRequest (p : OpPtr) (destination : Address)
| CallSendReply (p : OpPtr)
| CallPoll (rx : list Packet)
| CallProcessInboundMessages
| CallCheckForUpdates
| CallCleanupOps
| CallProcessUpdates (p : OpPtr)
| ReceiverReady (m : InboundMessage.t)
| SenderProgress (p : OpPtr) (s : OutboundMessage.State)
                 (id : Protocol.MessageId).

Definition step (c : Call) (t : Transport) : Transport :=
  match c with
  | CallAllocOp => snd (allocOp t)
  | CallReceiveOp => snd (receiveOp t)
  | CallReleaseOp p => releaseOp p t
  | CallSendRequest p destination => sendRequest p destination t
  | CallSendReply p => sendReply p t
  | CallPoll rx => poll rx t
  | CallProcessInboundMessages => processInboundMessages t
  | CallCheckForUpdates => checkForUpdates t
  | CallCleanupOps => cleanupOps t
  | CallProcessUpdates p => processUpdates p t
  | ReceiverReady m => Receiver_ready m t
  | SenderProgress p s id => Sender_progress p s id t
  end.

Definition run (cs : list Call) (t : Transport) : Transport :=
  foldl (λ t' c, step c t') t cs.

(** ** Vocabulary of the properties *)

(** The order of the states of an Op: NotStarted, then InProgress, then
    one of the two terminal states Completed and Failed. *)
Definition state_le (a b : OpContext.State) : bool :=
  match a, b with
  | OpContext.NOT_STARTED, _ => true
  | OpContext.IN_PROGRESS, OpContext.NOT_STARTED => false
  | OpContext.IN_PROGRESS, _ => true
  | OpContext.COMPLETED, OpContext.COMPLETED => true
  | OpContext.FAILED, OpContext.FAILED => true
  | _, _ => false
  end.

(** The state of the Op at address [p], if there is one. *)
Definition stateOf (p : OpPtr) (t : Transport) : option OpContext.State :=
  state <$> opPool t !! p.

(** The condition under which a server Op in progress completes. *)
Definition replySettled (o : Op) : Prop :=
  OutboundMessage.getState (outMessage o) = OutboundMessage.COMPLETED ∨
  (Protocol.tag (OutboundMessage.getId (outMessage o)) = ULTIMATE_RESPONSE_TAG
   ∧ OutboundMessage.getState (outMessage o) = OutboundMessage.SENT).

(** How an Op may change while it lives: its state does not go down, its
    [destroy] flag is not cleared, its opId and role stay. *)
Definition op_le (o o' : Op) : Prop :=
  state_le (state o) (state o') = true ∧
  (destroy o = true → destroy o' = true) ∧
  opId o' = opId o ∧ isServerOp o' = isServerOp o.

(** The Op at address [p] lives through the calls [cs], made from [t]
    on. *)
Fixpoint lives (p : OpPtr) (cs : list Call) (t : Transport) : Prop :=
  is_Some (opPool t !! p) ∧
  match cs with
  | [] => True
  | c :: cs' => lives p cs' (step c t)
  end.

(** [restarts p server c]: the call [c] is a [sendRequest] on the client
    Op at address [p], or a [sendReply] on the Op at address [p], whatever
    its role ([sendReply] asserts that the Op is a server Op, and stores
    InProgress without a test of the role); [server] is the role of the
    Op. *)
Definition restarts (p : OpPtr) (server : bool) (c : Call) : Prop :=
  match c with
  | CallSendRequest q _ => q = p ∧ server = false
  | CallSendReply q => q = p
  | _ => False
  end.

(** The application keeps the contract of [releaseOp], which forbids the
    use of an OpContext after its release, as far as [sendReply] goes:
    along the calls [cs], made from [t] on, no [sendReply] is made on an
    Op that is marked [destroy] (an Op is marked only while it is not
    retained). *)
Fixpoint noReplyAfterDrop (cs : list Call) (t : Transport) : bool :=
  match cs with
  | [] => true
  | c :: cs' =>
      match c with
      | CallSendReply q =>
          match opPool t !! q with
          | Some o => negb (destroy o)
          | None => true
          end
      | _ => true
      end && noReplyAfterDrop cs' (step c t)
  end.

(** A server Op that is marked [destroy] is Completed or Failed. *)
Definition DropInv (t : Transport) : Prop :=
  ∀ p o, opPool t !! p = Some o → isServerOp o = true → destroy o = true →
         state o = OpContext.COMPLETED ∨ state o = OpContext.FAILED.

(** [touches p o o' t t']: from [t] to [t'] the Op [o] at address [p] has
    become [o'], no other Op has changed, and the tables are as they were,
    except that [unusedOps] may have grown. *)
Record touches (p : OpPtr) (o o' : Op) (t t' : Transport) : Prop := {
  touches_pool : opPool t' = <[p := o']> (opPool t);
  touches_active : activeOps t' = activeOps t;
  touches_remote : remoteOps t' = remoteOps t;
  touches_next : nextOpSequenceNumber t' = nextOpSequenceNumber t;
  touches_unused : unusedOps t ⊆ unusedOps t';
  touches_opId : opId o' = opId o;
  touches_server : isServerOp o' = isServerOp o;
  touches_destroy : destroy o' = true → destroy o = true ∨ p ∈ unusedOps t';
  touches_destroyed : destroy o = true → destroy o' = true
}.

(** The part of the transport that the invariant below speaks about. *)
Definition core (t : Transport) :=
  (opPool t, activeOps t, remoteOps t, nextOpSequenceNumber t, unusedOps t).

(** The invariant of the tables of a transport:
    - the live Ops are the Ops of [activeOps];
    - a client Op is registered in [remoteOps] under its own opId;
    - [remoteOps] holds live client Ops only, under their opId;
    - the sequence numbers handed out are below the counter;
    - an Op marked [destroy] is queued on [unusedOps]. *)
Record Inv (t : Transport) : Prop := {
  inv_active : dom (opPool t) = activeOps t;
  inv_client : ∀ p o,
    opPool t !! p = Some o → isServerOp o = false →
    remoteOps t !! opId o = Some p;
  inv_remote : ∀ k p,
    remoteOps t !! k = Some p →
    ∃ o, opPool t !! p = Some o ∧ isServerOp o = false ∧ opId o = k;
  inv_sequence : ∀ k p,
    remoteOps t !! k = Some p →
    (Protocol.sequence k < nextOpSequenceNumber t)%Z;
  inv_counter : (0 ≤ nextOpSequenceNumber t < 2 ^ 64)%Z;
  inv_drop : ∀ p o,
    opPool t !! p = Some o → destroy o = true → p ∈ unusedOps t
}.

(** [mild t t']: at most one Op has changed, in place. *)
Definition mild (t t' : Transport) : Prop :=
  core t' = core t ∨
  ∃ p o o', opPool t !! p = Some o ∧ touches p o o' t t'.

(** [quiet t t']: moreover its state has not gone down. *)
Definition quiet (t t' : Transport) : Prop :=
  core t' = core t ∨
  ∃ p o o', opPool t !! p = Some o ∧ touches p o o' t t' ∧
            state_le (state o) (state o') = true.

(** [grows t t']: every Op of [t] is still there in [t'], changed by
    [op_le]. *)
Definition grows (t t' : Transport) : Prop :=
  ∀ p o, opPool t !! p = Some o →
         ∃ o', opPool t' !! p = Some o' ∧ op_le o o'.

(** [wanes t t']: from [t] to [t'] Ops have only been removed from
    [activeOps] and the pool, entries only been removed from [remoteOps],
    and the trace has only been extended. *)
Definition wanes (t t' : Transport) : Prop :=
  activeOps t' ⊆ activeOps t ∧ opPool t' ⊆ opPool t ∧
  remoteOps t' ⊆ remoteOps t ∧ ∃ l, trace t' = trace t ++ l.

(** [same_next t t']: the sequence counter has not moved. *)
Definition same_next (t t' : Transport) : Prop :=
  nextOpSequenceNumber t' = nextOpSequenceNumber t.

(** The Op that [allocOp] hands out. *)
Definition allocOp_op (t : Transport) : Op :=
  let o :=
    Op_new (driver t)
      (Protocol.mkOpId (transportId t) (nextOpSequenceNumber t)) false in
  Op_setRetained true
    (Op_setOutMessage
       (OutboundMessage.mk
          (OutboundMessage.getState (outMessage o))
          (OutboundMessage.getId (outMessage o))
          (setReplyAddress (getLocalAddress (driver t))
             (defineHeader (OutboundMessage.get (outMessage o))))) o).

(** The Op that [processInboundMessages] creates for the request [m]. *)
Definition serverOp_for (p : OpPtr) (m : InboundMessage.t) (t : Transport)
  : Op :=
  Op_setInMessage (Some (InboundMessage.registerOp p m))
    (Op_new (driver t) (Protocol.opId (InboundMessage.getId m)) true).

(** The queue of the Receiver, emptied. *)
Definition drained (t : Transport) : Transport :=
  set_receiver
    (mkReceiver (receiver_messageTimeoutCycles (receiver t))
       (receiver_resendIntervalCycles (receiver t)) []) t.

(** ** The destructor *)

(** One round of the loop of [Transport::~Transport], on the Op at
    address [p] of [activeOps]: its messages are dropped and it is
    destroyed.  (An address with no live Op behind it is passed over.) *)
Definition destroyOp (t : Transport) (p : OpPtr) : Transport :=
  match opPool t !! p with
  | None => t
  | Some o =>
      let t1 := emit (SenderDropMessage p) t in
      let t2 :=
        match inMessage o with
        | Some m => emit (ReceiverDropMessage m) t1
        | None => t1
        end in
      set_opPool (delete p (opPool t2)) t2
  end.

(** [Transport::~Transport].  The loop goes over [activeOps], a hash set,
    in an order the source does not fix; the model takes the order of
    [elements].  [activeOps] itself is left as it is. *)
Definition Transport_destructor (t : Transport) : Transport :=
  foldl destroyOp t (elements (activeOps t)).

(** ** Further vocabulary *)

(** The hint set is consistent: the queue has no duplicates and holds
    exactly the Ops of the membership set. *)
Record HintsInv (t : Transport) : Prop := {
  hints_nodup : NoDup (updateHints_order t);
  hints_same : ∀ p, p ∈ updateHints_ops t ↔ p ∈ updateHints_order t
}.

(** [unusedOps] is consistent: it has no duplicates and every Op on it is
    live and marked [destroy]. *)
Record UnusedInv (t : Transport) : Prop := {
  unused_nodup : NoDup (unusedOps t);
  unused_marked : ∀ p,
    p ∈ unusedOps t → ∃ o, opPool t !! p = Some o ∧ destroy o = true
}.

(** The Ops whose outbound message the trace [l] drops, in order. *)
Definition senderDrops (l : list Event) : list positive :=
  omap (λ e, match e with SenderDropMessage p => Some p | _ => None end) l.

(** The inbound messages that the trace [l] drops, in order. *)
Definition receiverDrops (l : list Event) : list InboundMessage.t :=
  omap (λ e, match e with ReceiverDropMessage m => Some m | _ => None end) l.

(** The message [m] is a request: its tag is not the tag of a response. *)
Definition isRequest (m : InboundMessage.t) : bool :=
  bool_decide (Protocol.tag (InboundMessage.getId m) ≠ ULTIMATE_RESPONSE_TAG).

(** [hinted t t']: from [t] to [t'] the update hints are as they were, or
    one hint that was not there has been posted at the back. *)
Definition hinted (t t' : Transport) : Prop :=
  (updateHints_ops t' = updateHints_ops t ∧
   updateHints_order t' = updateHints_order t) ∨
  ∃ p, (p ∉ updateHints_ops t) ∧
       updateHints_ops t' = {[p]} ∪ updateHints_ops t ∧
       updateHints_order t' = updateHints_order t ++ [p].

(** [extends t t']: the trace of [t'] continues the trace of [t]. *)
Definition extends (t t' : Transport) : Prop :=
  ∃ l, trace t' = trace t ++ l.

(** An Op that [processUpdates] drops as soon as it is not retained: a
    client Op, or a server Op in a terminal state. *)
Definition droppable (o : Op) : Prop :=
  isServerOp o = false ∨ state o = OpContext.COMPLETED ∨
  state o = OpContext.FAILED.

(** [owed p server k hints t]: the Op with role [server] and opId [k] at
    address [p] is marked for destruction, or it is droppable, has been
    released, and one of [hints] is for it. *)
Definition owed (p : OpPtr) (server : bool) (k : Protocol.OpId)
  (hints : list OpPtr) (t : Transport) : Prop :=
  ∃ o, opPool t !! p = Some o ∧ isServerOp o = server ∧ opId o = k ∧
       (destroy o = true ∨ (retained o = false ∧ droppable o ∧ p ∈ hints)).

(** ** Basic facts *)

Lemma state_le_refl a : state_le a a = true.
Proof. by destruct a. Qed.

Lemma state_le_trans a b c :
  state_le a b = true → state_le b c = true → state_le a c = true.
Proof. by destruct a, b, c. Qed.

Lemma Transport_eta t :
  mkTransport (driver t) (transportId t) (nextOpSequenceNumber t) (sender t)
    (receiver t) (opPool t) (activeOps t) (remoteOps t) (updateHints_ops t)
    (updateHints_order t) (unusedOps t) (pendingServerOps t) (trace t) = t.
Proof. by destruct t. Qed.

Lemma storeOp_lookup p o t q :
  opPool (storeOp p o t) !! q = if decide (p = q) then Some o else opPool t !! q.
Proof. unfold storeOp; simpl. apply lookup_insert. Qed.

Lemma storeOp_same p o t :
  opPool t !! p = Some o → storeOp p o t = t.
Proof.
  intros H. unfold storeOp, set_opPool. rewrite insert_id by done.
  apply Transport_eta.
Qed.

(** Posting a hint touches the hint set only, and leaves the Op in it. *)
Lemma hintUpdatedOp_frame p t :
  ∃ s q, hintUpdatedOp p t = set_updateHints s q t ∧ p ∈ s ∧
         updateHints_ops t ⊆ s.
Proof.
  unfold hintUpdatedOp. case_decide as Hin.
  - exists (updateHints_ops t), (updateHints_order t).
    split; [|done]. unfold set_updateHints. by rewrite Transport_eta.
  - eexists _, _. split; [done|]. set_solver.
Qed.

Lemma hintUpdatedOp_posted p t : p ∈ updateHints_ops (hintUpdatedOp p t).
Proof. by destruct (hintUpdatedOp_frame p t) as (s & q & -> & ? & _). Qed.

Lemma hintUpdatedOp_opPool p t : opPool (hintUpdatedOp p t) = opPool t.
Proof. by destruct (hintUpdatedOp_frame p t) as (s & q & -> & _). Qed.

Lemma hintUpdatedOp_activeOps p t : activeOps (hintUpdatedOp p t) = activeOps t.
Proof. by destruct (hintUpdatedOp_frame p t) as (s & q & -> & _). Qed.

Lemma hintUpdatedOp_remoteOps p t : remoteOps (hintUpdatedOp p t) = remoteOps t.
Proof. by destruct (hintUpdatedOp_frame p t) as (s & q & -> & _). Qed.

Lemma hintUpdatedOp_unusedOps p t : unusedOps (hintUpdatedOp p t) = unusedOps t.
Proof. by destruct (hintUpdatedOp_frame p t) as (s & q & -> & _). Qed.

Lemma hintUpdatedOp_pendingServerOps p t :
  pendingServerOps (hintUpdatedOp p t) = pendingServerOps t.
Proof. by destruct (hintUpdatedOp_frame p t) as (s & q & -> & _). Qed.

Lemma hintUpdatedOp_trace p t : trace (hintUpdatedOp p t) = trace t.
Proof. by destruct (hintUpdatedOp_frame p t) as (s & q & -> & _). Qed.

Lemma hintUpdatedOp_nextOpSequenceNumber p t :
  nextOpSequenceNumber (hintUpdatedOp p t) = nextOpSequenceNumber t.
Proof. by destruct (hintUpdatedOp_frame p t) as (s & q & -> & _). Qed.

Lemma hintUpdatedOp_receiver p t : receiver (hintUpdatedOp p t) = receiver t.
Proof. by destruct (hintUpdatedOp_frame p t) as (s & q & -> & _). Qed.

Lemma hintUpdatedOp_driver p t : driver (hintUpdatedOp p t) = driver t.
Proof. by destruct (hintUpdatedOp_frame p t) as (s & q & -> & _). Qed.

Lemma hintUpdatedOp_transportId p t :
  transportId (hintUpdatedOp p t) = transportId t.
Proof. by destruct (hintUpdatedOp_frame p t) as (s & q & -> & _). Qed.

Create Rewrite HintDb transport.

#[local] Hint Rewrite hintUpdatedOp_opPool hintUpdatedOp_activeOps
  hintUpdatedOp_remoteOps hintUpdatedOp_unusedOps
  hintUpdatedOp_pendingServerOps hintUpdatedOp_trace
  hintUpdatedOp_nextOpSequenceNumber hintUpdatedOp_receiver
  hintUpdatedOp_driver hintUpdatedOp_transportId : transport.

(** The pool just after [opPool_construct]. *)
Lemma opPool_construct_fresh o t :
  opPool t !! (opPool_construct o t).1 = None.
Proof.
  simpl. apply not_elem_of_dom. apply is_fresh.
Qed.

(** ** The state machine of an Op *)

Lemma replySettled_test o :
  bool_decide
    (OutboundMessage.getState (outMessage o) = OutboundMessage.COMPLETED)
  || (bool_decide
        (Protocol.tag (OutboundMessage.getId (outMessage o))
         = ULTIMATE_RESPONSE_TAG)
      && bool_decide
           (OutboundMessage.getState (outMessage o) = OutboundMessage.SENT))
  = true ↔ replySettled o.
Proof.
  unfold replySettled.
  rewrite orb_true_iff, andb_true_iff, !bool_decide_eq_true. tauto.
Qed.

(** A server Op in progress whose [destroy] flag is clear:
    [processUpdates] completes it exactly when its reply is settled,
    that is when the outbound message is COMPLETED, or carries
    ULTIMATE_RESPONSE_TAG and is SENT.  On that transition a DONE packet
    goes to the source of the inbound message if and only if the tag of the
    inbound message is not INITIAL_REQUEST_TAG, and a hint for the Op is
    posted.  Otherwise nothing changes. *)
Lemma processUpdates_server_in_progress p o m t :
  opPool t !! p = Some o →
  destroy o = false →
  isServerOp o = true →
  state o = OpContext.IN_PROGRESS →
  inMessage o = Some m →
  let t' := processUpdates p t in
  (stateOf p t' = Some OpContext.COMPLETED ↔ replySettled o) ∧
  (replySettled o →
     (Protocol.tag (InboundMessage.getId m) ≠ INITIAL_REQUEST_TAG →
        trace t' = trace t ++ [SendDonePacket (InboundMessage.source m)
                                              (InboundMessage.getId m)]) ∧
     (Protocol.tag (InboundMessage.getId m) = INITIAL_REQUEST_TAG →
        trace t' = trace t) ∧
     p ∈ updateHints_ops t') ∧
  (¬ replySettled o → t' = t).
Proof.
  intros Hp Hd Hs Hst Hm. simpl. unfold processUpdates, stateOf.
  rewrite Hp, Hd, Hs, Hst, Hm.
  destruct (_ || _) eqn:Hc.
  - apply replySettled_test in Hc.
    rewrite hintUpdatedOp_opPool, hintUpdatedOp_trace.
    split_and!; [|intros _; split_and!|done].
    + split; [done|intros _]. case_bool_decide; simpl;
        by rewrite lookup_insert_eq.
    + intros Ht. by rewrite bool_decide_eq_true_2.
    + intros Ht. by rewrite bool_decide_eq_false_2 by tauto.
    + apply hintUpdatedOp_posted.
  - assert (¬ replySettled o) as Hn.
    { intros Hr%replySettled_test. congruence. }
    split_and!; [|done|done].
    rewrite Hp; simpl. rewrite Hst. split; [done|tauto].
Qed.

(** An Op whose [destroy] flag is set is left alone, with the rest of the
    transport, however often [processUpdates] runs on it. *)
Lemma processUpdates_destroyed p o t :
  opPool t !! p = Some o → destroy o = true → processUpdates p t = t.
Proof. intros Hp Hd. unfold processUpdates. by rewrite Hp, Hd. Qed.

(** ** The constructor *)

(** C9.  The timeouts come from the base of 2000 microseconds: the
    message timeout is 40 times the base (80000 us), the ping interval 3
    times (6000 us), the resend interval the base itself (2000 us).  The
    constructor hands the message timeout and the ping interval to the
    Sender, and the message timeout and the resend interval to the
    Receiver, each converted to cycles. *)
Theorem Transport_new_timeouts d id :
  BASE_TIMEOUT_US = 2000%Z ∧
  MESSAGE_TIMEOUT_US = (40 * BASE_TIMEOUT_US)%Z ∧
  MESSAGE_TIMEOUT_US = 80000%Z ∧
  PING_INTERVAL_US = (3 * BASE_TIMEOUT_US)%Z ∧
  PING_INTERVAL_US = 6000%Z ∧
  RESEND_INTERVAL_US = (1 * BASE_TIMEOUT_US)%Z ∧
  RESEND_INTERVAL_US = 2000%Z ∧
  sender (Transport_new d id) =
    mkSender (fromMicroseconds 80000) (fromMicroseconds 6000) ∧
  receiver_messageTimeoutCycles (receiver (Transport_new d id)) =
    fromMicroseconds 80000 ∧
  receiver_resendIntervalCycles (receiver (Transport_new d id)) =
    fromMicroseconds 2000.
Proof. by split_and!. Qed.

(** ** How one call changes the Op behind an address *)

Lemma touches_refl p o t : opPool t !! p = Some o → touches p o o t t.
Proof. intros H. split; try done. - by rewrite insert_id. - auto. Qed.

Ltac touch :=
  split; autorewrite with transport; simpl;
  [ rewrite ?insert_insert_eq; reflexivity
  | try done; try (intros; set_solver) .. ].

Lemma processUpdates_touches p o t :
  opPool t !! p = Some o →
  ∃ o', touches p o o' t (processUpdates p t) ∧
        state_le (state o) (state o') = true.
Proof.
  intros Hp. unfold processUpdates. rewrite Hp.
  destruct (destroy o) eqn:Hd;
    [exists o; split; [by apply touches_refl|apply state_le_refl]|].
  destruct (isServerOp o) eqn:Hs.
  - destruct (state o) eqn:Hst.
    + destruct (inMessage o) as [m|] eqn:Hm;
        [|exists o; split; [by apply touches_refl|by rewrite Hst]].
      destruct (InboundMessage.isReady m);
        [|exists o; split; [by apply touches_refl|by rewrite Hst]].
      eexists; split; [touch|done].
    + destruct (_ || _);
        [|exists o; split; [by apply touches_refl|by rewrite Hst]].
      destruct (inMessage o) as [m|];
        [|exists o; split; [by apply touches_refl|by rewrite Hst]].
      eexists; split; [case_bool_decide; touch|done].
    + destruct (retained o); simpl;
        [exists o; split; [by apply touches_refl|by rewrite Hst]|].
      eexists; split; [touch|by simpl; rewrite Hst].
    + destruct (retained o); simpl;
        [exists o; split; [by apply touches_refl|by rewrite Hst]|].
      eexists; split; [touch|by simpl; rewrite Hst].
  - destruct (retained o); simpl.
    + destruct (state o) eqn:Hst;
        try (exists o; split; [by apply touches_refl|by rewrite Hst]).
      destruct (inMessage o) as [m|] eqn:Hm;
        [|exists o; split; [by apply touches_refl|by rewrite Hst]].
      destruct (InboundMessage.isReady m);
        [|exists o; split; [by apply touches_refl|by rewrite Hst]].
      eexists; split; [touch|done].
    + eexists; split; [touch|simpl; apply state_le_refl].
Qed.

Lemma core_hintUpdatedOp p t : core (hintUpdatedOp p t) = core t.
Proof. unfold core. by autorewrite with transport. Qed.

Lemma Inv_core t t' : core t' = core t → Inv t → Inv t'.
Proof.
  unfold core. intros [= Hp Ha Hr Hn Hu] [Hact Hcl Hrem Hseq Hcnt Hdrop].
  split; rewrite ?Hp, ?Ha, ?Hr, ?Hn, ?Hu; done.
Qed.

Lemma Inv_touches p o o' t t' :
  Inv t → opPool t !! p = Some o → touches p o o' t t' → Inv t'.
Proof.
  intros [Hact Hcl Hrem Hseq Hcnt Hdrop] Hp [Hpool Ha Hr Hn Hu Hid Hs Hd _].
  split; rewrite ?Hpool, ?Ha, ?Hr, ?Hn.
  - rewrite dom_insert_L, <- Hact. apply elem_of_dom_2 in Hp.
    apply subseteq_union_1_L. by apply singleton_subseteq_l.
  - intros q o2. rewrite lookup_insert. case_decide as Hq.
    + intros [= <-] Hc. subst q. rewrite Hid. apply Hcl; congruence.
    + auto.
  - intros k q Hk. destruct (Hrem k q Hk) as (o2 & Hq & Hc & Hi).
    rewrite lookup_insert. case_decide as Hpq; [|eauto].
    subst q. exists o'. split; [done|]. split; congruence.
  - done.
  - done.
  - intros q o2. rewrite lookup_insert. case_decide as Hq.
    + intros [= <-] Hd2. subst q. destruct (Hd Hd2); [|done].
      apply Hu. eauto.
    + intros. apply Hu. eauto.
Qed.

(** A new server Op, at an address that held no Op. *)
Lemma Inv_new_server p o t t' :
  Inv t → opPool t !! p = None →
  isServerOp o = true → destroy o = false →
  core t' = (<[p := o]> (opPool t), {[p]} ∪ activeOps t, remoteOps t,
             nextOpSequenceNumber t, unusedOps t) →
  Inv t'.
Proof.
  unfold core.
  intros [Hact Hcl Hrem Hseq Hcnt Hdrop] Hp Hs Hd [= Hpool Ha Hr Hn Hu].
  split; rewrite ?Hpool, ?Ha, ?Hr, ?Hn, ?Hu; try done.
  - rewrite dom_insert_L. by rewrite Hact.
  - intros q o2. rewrite lookup_insert. case_decide; [|by eauto].
    intros [= <-]. congruence.
  - intros k q Hk. destruct (Hrem k q Hk) as (o2 & Hq & Hc & Hi).
    exists o2. rewrite lookup_insert_ne by congruence. done.
  - intros q o2. rewrite lookup_insert. case_decide; [|by eauto].
    intros [= <-]. congruence.
Qed.

Lemma Inv_processUpdates p t : Inv t → Inv (processUpdates p t).
Proof.
  intros HI. destruct (opPool t !! p) as [o|] eqn:Hp.
  - destruct (processUpdates_touches p o t Hp) as (o' & Ht & _).
    by eapply Inv_touches.
  - unfold processUpdates. by rewrite Hp.
Qed.

(** *** allocOp *)

Lemma wrap64_small z : (0 ≤ z < 2 ^ 64)%Z → wrap64 z = z.
Proof. intros. unfold wrap64. by apply Z.mod_small. Qed.

Lemma allocOp_ptr_fresh t : opPool t !! (allocOp t).1 = None.
Proof. simpl. apply not_elem_of_dom, is_fresh. Qed.

Lemma Inv_key_fresh t :
  Inv t →
  remoteOps t !! Protocol.mkOpId (transportId t) (nextOpSequenceNumber t)
  = None.
Proof.
  intros [_ _ _ Hseq _ _]. destruct (remoteOps t !! _) as [p|] eqn:Hk; [|done].
  apply Hseq in Hk. simpl in Hk. lia.
Qed.

Lemma allocOp_unfold t :
  allocOp t =
    (fresh (dom (opPool t)),
     mkTransport (driver t) (transportId t)
       (wrap64 (nextOpSequenceNumber t + 1)) (sender t) (receiver t)
       (<[fresh (dom (opPool t)) := allocOp_op t]> (opPool t))
       ({[fresh (dom (opPool t))]} ∪ activeOps t)
       (remoteOps_insert
          (Protocol.mkOpId (transportId t) (nextOpSequenceNumber t))
          (fresh (dom (opPool t))) (remoteOps t))
       (updateHints_ops t) (updateHints_order t) (unusedOps t)
       (pendingServerOps t) (trace t)).
Proof.
  unfold allocOp, storeOp, set_opPool; simpl. by rewrite insert_insert_eq.
Qed.

Lemma Inv_allocOp t :
  Inv t → (nextOpSequenceNumber t + 1 < 2 ^ 64)%Z → Inv (allocOp t).2.
Proof.
  intros HI Hn. pose proof (Inv_key_fresh t HI) as Hk.
  pose proof (allocOp_ptr_fresh t) as Hf.
  destruct HI as [Hact Hcl Hrem Hseq Hcnt Hdrop].
  rewrite allocOp_unfold in *. simpl in *.
  set (p := fresh (dom (opPool t))) in *.
  unfold remoteOps_insert. rewrite Hk.
  split; simpl.
  - rewrite dom_insert_L. by rewrite Hact.
  - intros q o2. rewrite lookup_insert. case_decide as Hq.
    + intros [= <-] _. subst q. simpl. by rewrite lookup_insert_eq.
    + intros Hq2 Hc. rewrite lookup_insert_ne; [by eauto|].
      intros He. specialize (Hcl _ _ Hq2 Hc). congruence.
  - intros k q. rewrite lookup_insert. case_decide as Hkq.
    + intros [= <-]. eexists. rewrite lookup_insert_eq. done.
    + intros Hq. destruct (Hrem k q Hq) as (o2 & ? & ? & ?).
      exists o2. rewrite lookup_insert_ne by congruence. done.
  - intros k q. rewrite lookup_insert. case_decide as Hkq.
    + intros _. subst k. simpl. rewrite wrap64_small by lia. lia.
    + intros Hq%Hseq. rewrite wrap64_small by lia. lia.
  - rewrite wrap64_small by lia. lia.
  - intros q o2. rewrite lookup_insert. case_decide; [|by eauto].
    by intros [= <-].
Qed.

(** *** Calls that change one Op in place *)

Lemma op_le_refl o : op_le o o.
Proof. unfold op_le. by rewrite state_le_refl. Qed.

Lemma op_le_trans a b c : op_le a b → op_le b c → op_le a c.
Proof.
  intros (? & ? & ? & ?) (? & ? & ? & ?). unfold op_le.
  split_and!; [by eapply state_le_trans|by auto|congruence|congruence].
Qed.

Lemma grows_refl t : grows t t.
Proof. intros p o Hp. exists o. split; [done|apply op_le_refl]. Qed.

Lemma grows_trans t1 t2 t3 : grows t1 t2 → grows t2 t3 → grows t1 t3.
Proof.
  intros H12 H23 p o Hp. destruct (H12 p o Hp) as (o2 & Hp2 & Hle2).
  destruct (H23 p o2 Hp2) as (o3 & Hp3 & Hle3).
  exists o3. split; [done|by eapply op_le_trans].
Qed.

Lemma grows_core t t' : core t' = core t → grows t t'.
Proof. unfold core. intros [= Hp _ _ _ _]. unfold grows. rewrite Hp.
  intros p o Ho. exists o. split; [done|apply op_le_refl]. Qed.

Lemma grows_fresh p o t t' :
  opPool t !! p = None → opPool t' = <[p := o]> (opPool t) → grows t t'.
Proof.
  intros Hp Hpool q o2 Hq. exists o2. rewrite Hpool.
  rewrite lookup_insert_ne by congruence. split; [done|apply op_le_refl].
Qed.

Lemma quiet_mild t t' : quiet t t' → mild t t'.
Proof. intros [?|(p & o & o' & ? & ? & ?)]; [by left|right; eauto]. Qed.

Lemma mild_Inv t t' : mild t t' → Inv t → Inv t'.
Proof.
  intros [Hc|(p & o & o' & Hp & Ht)] HI;
    [by eapply Inv_core|by eapply Inv_touches].
Qed.

Lemma quiet_grows t t' : quiet t t' → grows t t'.
Proof.
  intros [Hc|(p & o & o' & Hp & Ht & Hle)]; [by apply grows_core|].
  intros q o2 Hq. rewrite (touches_pool _ _ _ _ _ Ht), lookup_insert.
  case_decide as Hpq.
  - subst q. exists o'. split; [done|]. assert (o2 = o) as -> by congruence.
    destruct Ht. by split_and!.
  - exists o2. split; [done|apply op_le_refl].
Qed.

Lemma quiet_refl t : quiet t t.
Proof. by left. Qed.

Lemma processUpdates_quiet p t : quiet t (processUpdates p t).
Proof.
  destruct (opPool t !! p) as [o|] eqn:Hp.
  - destruct (processUpdates_touches p o t Hp) as (o' & Ht & Hle).
    right. eauto 6.
  - unfold processUpdates. rewrite Hp. apply quiet_refl.
Qed.

Lemma releaseOp_quiet p t : quiet t (releaseOp p t).
Proof.
  unfold releaseOp. destruct (opPool t !! p) as [o|] eqn:Hp; [|by left].
  right. exists p, o. eexists. split; [done|]. split; [touch|].
  simpl. apply state_le_refl.
Qed.

Lemma receiveOp_quiet t : quiet t (receiveOp t).2.
Proof.
  unfold receiveOp. destruct (pendingServerOps t) as [|p rest]; [by left|].
  simpl. destruct (opPool t !! p) as [o|] eqn:Hp; [|by left].
  destruct (inMessage o) as [m|]; [|by left].
  right. exists p, o. eexists. split; [done|]. split; [touch|].
  simpl. apply state_le_refl.
Qed.

Lemma Sender_progress_quiet p s id t : quiet t (Sender_progress p s id t).
Proof.
  unfold Sender_progress. destruct (opPool t !! p) as [o|] eqn:Hp; [|by left].
  right. exists p, o. eexists. split; [done|]. split; [touch|].
  simpl. apply state_le_refl.
Qed.

Lemma Receiver_ready_core m t : core (Receiver_ready m t) = core t.
Proof. done. Qed.

Lemma processPackets_core rx t : core (processPackets rx t) = core t.
Proof.
  unfold processPackets. generalize (take MAX_BURST rx). clear rx.
  intros l. revert t. induction l as [|a l IH]; intros t; [done|].
  simpl. rewrite IH. by destruct (route a).
Qed.

Lemma sendRequest_mild p d t : mild t (sendRequest p d t).
Proof.
  unfold sendRequest. destruct (opPool t !! p) as [o|] eqn:Hp; [|by left].
  destruct (isServerOp o).
  - destruct (inMessage o); by left.
  - right. exists p, o. eexists. split; [done|]. touch.
Qed.

Lemma sendReply_mild p t : mild t (sendReply p t).
Proof.
  unfold sendReply. destruct (opPool t !! p) as [o|] eqn:Hp; [|by left].
  destruct (inMessage o); [|by left].
  right. exists p, o. eexists. split; [done|]. touch.
Qed.

(** *** The helpers of [poll] *)

Lemma receiveMessage_core t m t1 :
  receiveMessage t = Some (m, t1) → core t1 = core t.
Proof.
  unfold receiveMessage. destruct (receivedMessages (receiver t)); [done|].
  by intros [= _ <-].
Qed.

Lemma processInboundMessage_cases m t :
  quiet t (processInboundMessage m t) ∨
  ∃ p, opPool t !! p = None ∧
       core (processInboundMessage m t) =
         (<[p := serverOp_for p m t]> (opPool t), {[p]} ∪ activeOps t,
          remoteOps t, nextOpSequenceNumber t, unusedOps t).
Proof.
  unfold processInboundMessage. case_bool_decide as Htag.
  - left. destruct (remoteOps t !! _) as [p|]; [|by left].
    destruct (opPool t !! p) as [o|] eqn:Hp; [|by left].
    right. exists p, o. eexists. split; [done|]. split; [touch|].
    simpl. apply state_le_refl.
  - right. exists (fresh (dom (opPool t))).
    split; [apply not_elem_of_dom, is_fresh|].
    simpl. rewrite core_hintUpdatedOp. unfold core; simpl.
    by rewrite insert_insert_eq.
Qed.

Lemma Inv_processInboundMessage m t :
  Inv t → Inv (processInboundMessage m t).
Proof.
  intros HI. destruct (processInboundMessage_cases m t) as [Hq|(p & Hp & Hc)].
  - by eapply mild_Inv; [apply quiet_mild|].
  - by eapply (Inv_new_server p (serverOp_for p m t) t).
Qed.

Lemma grows_processInboundMessage m t : grows t (processInboundMessage m t).
Proof.
  destruct (processInboundMessage_cases m t) as [Hq|(p & Hp & Hc)].
  - by apply quiet_grows.
  - eapply grows_fresh; [done|]. unfold core in Hc. by injection Hc.
Qed.

(** A property kept by every iteration is kept by the loop. *)
Lemma processInboundMessages_loop_keeps (P : Transport → Prop) fuel t :
  (∀ t' t1 m, P t' → receiveMessage t' = Some (m, t1) →
              P (processInboundMessage m t1)) →
  P t → P (processInboundMessages_loop fuel t).
Proof.
  intros Hbody. revert t. induction fuel as [|fuel IH]; intros t Ht; [done|].
  simpl. destruct (receiveMessage t) as [[m t1]|] eqn:Hr; [|done].
  apply IH. by eapply Hbody.
Qed.

Lemma Inv_processInboundMessages t : Inv t → Inv (processInboundMessages t).
Proof.
  apply processInboundMessages_loop_keeps. intros t' t1 m HI Hr.
  apply Inv_processInboundMessage.
  eapply Inv_core; [|exact HI]. by eapply receiveMessage_core.
Qed.

Lemma grows_processInboundMessages t : grows t (processInboundMessages t).
Proof.
  apply (processInboundMessages_loop_keeps (grows t)); [|apply grows_refl].
  intros t' t1 m Hg Hr.
  eapply grows_trans; [exact Hg|]. eapply grows_trans.
  - apply grows_core. by eapply receiveMessage_core.
  - apply grows_processInboundMessage.
Qed.

Lemma takeHint_core t h t1 : takeHint t = Some (h, t1) → core t1 = core t.
Proof.
  unfold takeHint. destruct (updateHints_order t); [done|].
  by intros [= _ <-].
Qed.

Lemma checkForUpdates_loop_keeps (P : Transport → Prop) env i n t :
  (∀ j t', P t' → P (env j t')) →
  (∀ t' h t1, P t' → takeHint t' = Some (h, t1) → P t1) →
  (∀ p t', P t' → P (processUpdates p t')) →
  P t → P (checkForUpdates_loop env i n t).2.
Proof.
  intros Henv Htake Hbody. revert i t.
  induction n as [|n IH]; intros i t Ht; [done|].
  simpl. destruct (takeHint (env i t)) as [[h t1]|] eqn:Hh; [|by apply Henv].
  specialize (IH (S i) (if decide (h ∈ activeOps t1)
                        then processUpdates h t1 else t1)).
  destruct (checkForUpdates_loop env (S i) n _) as [taken t3]. simpl in *.
  apply IH. assert (P t1) by (eapply Htake; [|exact Hh]; by apply Henv).
  case_decide; [by apply Hbody|done].
Qed.

Lemma Inv_checkForUpdates t : Inv t → Inv (checkForUpdates t).
Proof.
  apply checkForUpdates_loop_keeps; [done| |apply Inv_processUpdates].
  intros t' h t1 HI Hr. eapply Inv_core; [|exact HI].
  by eapply takeHint_core.
Qed.

Lemma grows_checkForUpdates t : grows t (checkForUpdates t).
Proof.
  apply (checkForUpdates_loop_keeps (grows t)); [done| | |apply grows_refl].
  - intros t' h t1 Hg Hr. eapply grows_trans; [exact Hg|].
    apply grows_core. by eapply takeHint_core.
  - intros p t' Hg. eapply grows_trans; [exact Hg|].
    apply quiet_grows, processUpdates_quiet.
Qed.

(** The transport left by [cleanupOp] on a live Op. *)
Lemma cleanupOp_live p o t :
  p ∈ activeOps t → opPool t !! p = Some o →
  core (cleanupOp p t) =
    (delete p (opPool t), activeOps t ∖ {[p]},
     (if isServerOp o then remoteOps t else delete (opId o) (remoteOps t)),
     nextOpSequenceNumber t, unusedOps t) ∧
  trace (cleanupOp p t) =
    trace t ++ SenderDropMessage p ::
      match inMessage o with Some m => [ReceiverDropMessage m] | None => [] end.
Proof.
  intros Ha Hp. unfold cleanupOp. rewrite decide_True, Hp by done.
  unfold core. destruct (inMessage o), (isServerOp o); simpl;
    by rewrite <- ?app_assoc.
Qed.

Lemma cleanupOp_not_active p t : p ∉ activeOps t → cleanupOp p t = t.
Proof. intros Ha. unfold cleanupOp. by rewrite decide_False. Qed.

Lemma Inv_cleanup_step p rest t :
  Inv t → unusedOps t = p :: rest →
  Inv (cleanupOp p (set_unusedOps rest t)).
Proof.
  intros [Hact Hcl Hrem Hseq Hcnt Hdrop] Hu.
  destruct (decide (p ∈ activeOps t)) as [Ha|Ha].
  - assert (is_Some (opPool t !! p)) as [o Hp].
    { apply elem_of_dom. by rewrite Hact. }
    destruct (cleanupOp_live p o (set_unusedOps rest t) Ha Hp) as [Hc _].
    unfold core in Hc. simpl in Hc.
    injection Hc as Hpool Hact' Hrem' Hn' Hu'.
    split; rewrite ?Hpool, ?Hact', ?Hrem', ?Hn', ?Hu'; [| | | |done|].
    + by rewrite dom_delete_L, Hact.
    + intros q o2 [Hqp Hq]%lookup_delete_Some Hc2.
      specialize (Hcl _ _ Hq Hc2) as Hq2.
      destruct (isServerOp o) eqn:Hs; [done|].
      rewrite lookup_delete_ne; [done|].
      intros He. specialize (Hcl _ _ Hp Hs). congruence.
    + intros k q Hk.
      assert (remoteOps t !! k = Some q ∧
              (isServerOp o = false → k ≠ opId o)) as [Hk' Hne].
      { destruct (isServerOp o); [done|].
        apply lookup_delete_Some in Hk as [? ?]. split; [done|congruence]. }
      destruct (Hrem k q Hk') as (o2 & Hq & Hc2 & Hi).
      exists o2. split; [|done]. apply lookup_delete_Some. split; [|done].
      intros <-. assert (o2 = o) as -> by congruence. by apply Hne.
    + intros k q Hk. apply (Hseq k q).
      destruct (isServerOp o); [done|].
      by apply lookup_delete_Some in Hk as [? ?].
    + intros q o2 [Hqp Hq]%lookup_delete_Some Hd.
      specialize (Hdrop _ _ Hq Hd). rewrite Hu in Hdrop.
      apply elem_of_cons in Hdrop as [?|?]; [congruence|done].
  - rewrite cleanupOp_not_active by done.
    split; simpl; try done.
    intros q o2 Hq Hd. specialize (Hdrop _ _ Hq Hd). rewrite Hu in Hdrop.
    apply elem_of_cons in Hdrop as [->|?]; [|done].
    exfalso. apply Ha. rewrite <- Hact. by apply elem_of_dom_2 in Hq.
Qed.

Lemma cleanupOps_loop_keeps (P : Transport → Prop) env i n t :
  (∀ j t', P t' → P (env j t')) →
  (∀ t' p rest, P t' → unusedOps t' = p :: rest →
                P (cleanupOp p (set_unusedOps rest t'))) →
  P t → P (cleanupOps_loop env i n t).2.
Proof.
  intros Henv Hbody. revert i t.
  induction n as [|n IH]; intros i t Ht; [done|].
  simpl. destruct (unusedOps (env i t)) as [|p rest] eqn:Hu; [by apply Henv|].
  specialize (IH (S i) (cleanupOp p (set_unusedOps rest (env i t)))).
  destruct (cleanupOps_loop env (S i) n _) as [popped t2]. simpl in *.
  apply IH. apply Hbody; [by apply Henv|done].
Qed.

Lemma Inv_cleanupOps t : Inv t → Inv (cleanupOps t).
Proof.
  apply cleanupOps_loop_keeps; [done|].
  intros t' p rest HI Hu. by apply Inv_cleanup_step.
Qed.

(** [cleanupOps] creates no Op and changes none of those it leaves. *)
Lemma cleanupOp_shrinks p t : opPool (cleanupOp p t) ⊆ opPool t.
Proof.
  destruct (decide (p ∈ activeOps t)) as [Ha|Ha];
    [|by rewrite cleanupOp_not_active].
  destruct (opPool t !! p) as [o|] eqn:Hp.
  - destruct (cleanupOp_live p o t Ha Hp) as [[= -> _ _ _ _] _].
    apply delete_subseteq.
  - unfold cleanupOp. by rewrite decide_True, Hp.
Qed.

Lemma cleanupOps_shrinks t : opPool (cleanupOps t) ⊆ opPool t.
Proof.
  apply (cleanupOps_loop_keeps (λ t', opPool t' ⊆ opPool t)); [done| |done].
  intros t' p rest Hs _. etrans; [apply cleanupOp_shrinks|done].
Qed.

(** *** Every call keeps the invariant *)

Lemma Inv_Transport_new d id : Inv (Transport_new d id).
Proof. split; simpl; done. Qed.

Lemma Inv_poll rx t : Inv t → Inv (poll rx t).
Proof.
  intros HI. unfold poll.
  apply Inv_cleanupOps, Inv_checkForUpdates, Inv_processInboundMessages.
  eapply Inv_core; [|exact HI]. apply processPackets_core.
Qed.

Lemma Inv_step c t :
  Inv t →
  (c = CallAllocOp → (nextOpSequenceNumber t + 1 < 2 ^ 64)%Z) →
  Inv (step c t).
Proof.
  intros HI Hn. destruct c; cbn [step].
  - by apply Inv_allocOp, Hn.
  - by eapply mild_Inv; [apply quiet_mild, receiveOp_quiet|].
  - by eapply mild_Inv; [apply quiet_mild, releaseOp_quiet|].
  - by eapply mild_Inv; [apply sendRequest_mild|].
  - by eapply mild_Inv; [apply sendReply_mild|].
  - by apply Inv_poll.
  - by apply Inv_processInboundMessages.
  - by apply Inv_checkForUpdates.
  - by apply Inv_cleanupOps.
  - by apply Inv_processUpdates.
  - by eapply Inv_core; [apply Receiver_ready_core|].
  - by eapply mild_Inv; [apply quiet_mild, Sender_progress_quiet|].
Qed.

Lemma mild_same_next t t' : mild t t' → same_next t t'.
Proof.
  intros [[= _ _ _ Hn _]|(p & o & o' & _ & Ht)]; [done|by destruct Ht].
Qed.

Lemma core_same_next t t' : core t' = core t → same_next t t'.
Proof. by intros [= _ _ _ Hn _]. Qed.

Lemma processInboundMessages_same_next t :
  same_next t (processInboundMessages t).
Proof.
  apply (processInboundMessages_loop_keeps (same_next t)); [|done].
  intros t' t1 m Hs Hr. unfold same_next in *. rewrite <- Hs.
  apply receiveMessage_core, core_same_next in Hr. rewrite <- Hr.
  destruct (processInboundMessage_cases m t1) as [Hq|(p & _ & Hc)].
  - by apply mild_same_next, quiet_mild.
  - by injection Hc.
Qed.

Lemma checkForUpdates_same_next t : same_next t (checkForUpdates t).
Proof.
  apply (checkForUpdates_loop_keeps (same_next t)); [done| | |done].
  - intros t' h t1 Hs Hr%takeHint_core%core_same_next.
    unfold same_next in *. congruence.
  - intros p t' Hs.
    pose proof (mild_same_next _ _ (quiet_mild _ _ (processUpdates_quiet p t'))).
    unfold same_next in *. congruence.
Qed.

Lemma cleanupOp_same_next p t : same_next t (cleanupOp p t).
Proof.
  unfold cleanupOp. case_decide; [|done].
  destruct (opPool t !! p) as [o|]; [|done].
  by destruct (inMessage o), (isServerOp o).
Qed.

Lemma cleanupOps_same_next t : same_next t (cleanupOps t).
Proof.
  apply (cleanupOps_loop_keeps (same_next t)); [done| |done].
  intros t' p rest Hs _.
  pose proof (cleanupOp_same_next p (set_unusedOps rest t')) as Hc.
  unfold same_next in *. simpl in Hc. congruence.
Qed.

Lemma step_next c t :
  nextOpSequenceNumber (step c t) =
    match c with
    | CallAllocOp => wrap64 (nextOpSequenceNumber t + 1)
    | _ => nextOpSequenceNumber t
    end.
Proof.
  destruct c; cbn [step].
  - by rewrite allocOp_unfold.
  - apply mild_same_next, quiet_mild, receiveOp_quiet.
  - apply mild_same_next, quiet_mild, releaseOp_quiet.
  - apply mild_same_next, sendRequest_mild.
  - apply mild_same_next, sendReply_mild.
  - unfold poll. rewrite cleanupOps_same_next, checkForUpdates_same_next,
      processInboundMessages_same_next. simpl.
    apply core_same_next, processPackets_core.
  - apply processInboundMessages_same_next.
  - apply checkForUpdates_same_next.
  - apply cleanupOps_same_next.
  - apply mild_same_next, quiet_mild, processUpdates_quiet.
  - done.
  - apply mild_same_next, quiet_mild, Sender_progress_quiet.
Qed.

Lemma run_snoc cs c t : run (cs ++ [c]) t = step c (run cs t).
Proof. unfold run. by rewrite foldl_app. Qed.

(** The states a new transport reaches before its sequence counter can
    wrap around satisfy the invariant. *)
Lemma Inv_run d id cs :
  (Z.of_nat (length cs) < 2 ^ 64 - 1)%Z →
  Inv (run cs (Transport_new d id)) ∧
  (nextOpSequenceNumber (run cs (Transport_new d id))
   ≤ 1 + Z.of_nat (length cs))%Z.
Proof.
  induction cs as [|c cs IH] using rev_ind; intros Hlen.
  - split; [apply Inv_Transport_new|simpl; lia].
  - rewrite length_app in Hlen. simpl in Hlen.
    destruct IH as [HI Hn]; [lia|].
    rewrite run_snoc, length_app. simpl. split.
    + apply Inv_step; [done|]. intros _. lia.
    + rewrite step_next. pose proof (inv_counter _ HI).
      destruct c; try lia. rewrite wrap64_small by lia. lia.
Qed.

(** ** The lifetime of an Op *)

Lemma grows_lookup t t' p o o' :
  grows t t' → opPool t !! p = Some o → opPool t' !! p = Some o' → op_le o o'.
Proof.
  intros Hg Hp Hp'. destruct (Hg p o Hp) as (o2 & Hp2 & Hle). congruence.
Qed.

Lemma grows_poll_before_cleanup rx t :
  grows t (checkForUpdates
             (processInboundMessages
                (emit ReceiverPoll (emit SenderPoll (processPackets rx t))))).
Proof.
  eapply grows_trans; [|apply grows_checkForUpdates].
  eapply grows_trans; [|apply grows_processInboundMessages].
  apply grows_core. apply (processPackets_core rx t).
Qed.

(** Every call other than [sendRequest] and [sendReply] leaves the state of
    a surviving Op where it was or above, and its [destroy] flag set if it
    was set. *)
Lemma step_op_le c t p o o' :
  (∀ q d, c ≠ CallSendRequest q d) → (∀ q, c ≠ CallSendReply q) →
  opPool t !! p = Some o → opPool (step c t) !! p = Some o' →
  op_le o o'.
Proof.
  intros Hsr Hsp Hp Hp'. destruct c; cbn [step] in Hp'.
  - eapply grows_lookup; [|done..]. rewrite allocOp_unfold. simpl.
    eapply grows_fresh; [|done]. apply not_elem_of_dom, is_fresh.
  - eapply grows_lookup; [|done..]. apply quiet_grows, receiveOp_quiet.
  - eapply grows_lookup; [|done..]. apply quiet_grows, releaseOp_quiet.
  - by destruct (Hsr p0 destination).
  - by destruct (Hsp p0).
  - unfold poll in Hp'.
    eapply lookup_weaken in Hp'; [|apply cleanupOps_shrinks].
    eapply grows_lookup; [apply (grows_poll_before_cleanup rx)|done..].
  - eapply grows_lookup; [|done..]. apply grows_processInboundMessages.
  - eapply grows_lookup; [|done..]. apply grows_checkForUpdates.
  - eapply lookup_weaken in Hp'; [|apply cleanupOps_shrinks].
    assert (o' = o) as -> by congruence. apply op_le_refl.
  - eapply grows_lookup; [|done..]. apply quiet_grows, processUpdates_quiet.
  - eapply grows_lookup; [|done..]. by apply grows_core.
  - eapply grows_lookup; [|done..]. apply quiet_grows, Sender_progress_quiet.
Qed.

(** What [sendRequest] and [sendReply] do to the state of an Op. *)
Lemma sendRequest_state q d t p o o' :
  opPool t !! p = Some o → opPool (sendRequest q d t) !! p = Some o' →
  (destroy o' = destroy o ∧ isServerOp o' = isServerOp o) ∧
  (state o' = state o ∨
   (q = p ∧ isServerOp o = false ∧ state o' = OpContext.IN_PROGRESS)).
Proof.
  intros Hp. unfold sendRequest.
  destruct (opPool t !! q) as [oq|] eqn:Hq;
    [|intros ?; assert (o' = o) as -> by congruence; by split; [|left]].
  destruct (isServerOp oq) eqn:Hs.
  - destruct (inMessage oq); simpl;
      intros ?; assert (o' = o) as -> by congruence; by split; [|left].
  - simpl. rewrite lookup_insert. case_decide as Hqp;
      [|intros ?; assert (o' = o) as -> by congruence; by split; [|left]].
    intros [= <-]. subst q. assert (oq = o) as -> by congruence.
    split; [done|]. right. by split_and!.
Qed.

Lemma sendReply_state q t p o o' :
  opPool t !! p = Some o → opPool (sendReply q t) !! p = Some o' →
  (destroy o' = destroy o ∧ isServerOp o' = isServerOp o) ∧
  (state o' = state o ∨ (q = p ∧ state o' = OpContext.IN_PROGRESS)).
Proof.
  intros Hp. unfold sendReply.
  destruct (opPool t !! q) as [oq|] eqn:Hq;
    [|intros ?; assert (o' = o) as -> by congruence; by split; [|left]].
  destruct (inMessage oq);
    [|intros ?; assert (o' = o) as -> by congruence; by split; [|left]].
  simpl. rewrite lookup_insert. case_decide as Hqp;
    [|intros ?; assert (o' = o) as -> by congruence; by split; [|left]].
  intros [= <-]. subst q. assert (oq = o) as -> by congruence.
  split; [done|]. right. by split_and!.
Qed.

(** No call clears the [destroy] flag of an Op. *)
Lemma step_keeps_destroy c t p o o' :
  opPool t !! p = Some o → opPool (step c t) !! p = Some o' →
  destroy o = true → destroy o' = true.
Proof.
  intros Hp Hp' Hd.
  destruct c as [| |q|q d|q| | | | |q| |q s i];
    try (eapply step_op_le; [| |exact Hp|exact Hp'|exact Hd]; done).
  - cbn [step] in Hp'.
    destruct (sendRequest_state q d t p o o' Hp Hp') as [[? _] _]. congruence.
  - cbn [step] in Hp'.
    destruct (sendReply_state q t p o o' Hp Hp') as [[? _] _]. congruence.
Qed.

(** One call: the Op keeps its role, and its state stays or goes up,
    unless the call restarts it, which leaves it in progress. *)
Lemma step_state c t p o o' :
  opPool t !! p = Some o →
  opPool (step c t) !! p = Some o' →
  isServerOp o' = isServerOp o ∧
  (state_le (state o) (state o') = true ∨
   (restarts p (isServerOp o) c ∧ state o' = OpContext.IN_PROGRESS)).
Proof.
  intros Hp Hp'.
  destruct c as [| |q|q d|q| | | | |q| |q s i];
    try (assert (op_le o o') as (? & _ & _ & ?)
           by (eapply step_op_le; [| |exact Hp|exact Hp']; done);
         by split; [|left]).
  - cbn [step] in Hp'.
    destruct (sendRequest_state q d t p o o' Hp Hp')
      as [[_ Hr] [->|(-> & Hs & Hst)]]; (split; [done|]).
    + left. apply state_le_refl.
    + by right.
  - cbn [step] in Hp'.
    destruct (sendReply_state q t p o o' Hp Hp')
      as [[_ Hr] [->|(-> & Hst)]]; (split; [done|]).
    + left. apply state_le_refl.
    + by right.
Qed.

(** [sendRequest] on a client Op and [sendReply] on an Op that holds an
    inbound message store InProgress, whatever the state of the Op. *)
Lemma sendRequest_client_stores p d t o :
  opPool t !! p = Some o → isServerOp o = false →
  stateOf p (sendRequest p d t) = Some OpContext.IN_PROGRESS.
Proof.
  intros Hp Hs. unfold stateOf, sendRequest. rewrite Hp, Hs. simpl.
  by rewrite lookup_insert_eq.
Qed.

Lemma sendReply_stores p t o m :
  opPool t !! p = Some o → inMessage o = Some m →
  stateOf p (sendReply p t) = Some OpContext.IN_PROGRESS.
Proof.
  intros Hp Hm. unfold stateOf, sendReply. rewrite Hp, Hm. simpl.
  by rewrite lookup_insert_eq.
Qed.

(** C1 (as amended).  Along any sequence of calls that an Op lives
    through (calls of the API, helpers of [poll], runs of [processUpdates],
    moves of the Sender and the Receiver), the state of the Op does not go
    down the chain NotStarted, InProgress, (Completed | Failed), unless the
    sequence contains a [sendRequest] on it as a client Op or a [sendReply]
    on it ([restarts]; [sendReply] asserts that the Op is a server Op, and
    in a build without assertions does the same to a client Op).  These
    calls store InProgress whatever the state was; after them the state is
    InProgress or above. *)
Theorem state_monotone_except_send cs t p o o' :
  opPool t !! p = Some o →
  lives p cs t →
  opPool (run cs t) !! p = Some o' →
  state_le (state o) (state o') = true ∨
  (Exists (restarts p (isServerOp o)) cs ∧
   state_le OpContext.IN_PROGRESS (state o') = true).
Proof.
  revert t o. induction cs as [|c cs IH]; intros t o Hp Hl Hp'.
  - left. assert (o' = o) as -> by (simpl in Hp'; congruence).
    apply state_le_refl.
  - destruct Hl as [_ Hl].
    assert (is_Some (opPool (step c t) !! p)) as [o1 Hp1]
      by (destruct cs; apply Hl).
    change (run (c :: cs) t) with (run cs (step c t)) in Hp'.
    destruct (step_state c t p o o1 Hp Hp1) as [Hrole Hstep].
    destruct (IH (step c t) o1 Hp1 Hl Hp') as [Hle|[Hex Hle]].
    + destruct Hstep as [Hle1|[Hre Hst]].
      * left. by eapply state_le_trans.
      * right. split; [by apply Exists_cons_hd|]. by rewrite <- Hst.
    + right. split; [|done]. apply Exists_cons_tl. by rewrite <- Hrole.
Qed.

(** C5 (as amended).  In every state a new transport reaches before its
    sequence counter can wrap around, two client Ops of [activeOps] with
    the same opId are one and the same Op. *)
Theorem client_opIds_unique d id cs p q o o' :
  (Z.of_nat (length cs) < 2 ^ 64 - 1)%Z →
  p ∈ activeOps (run cs (Transport_new d id)) →
  q ∈ activeOps (run cs (Transport_new d id)) →
  opPool (run cs (Transport_new d id)) !! p = Some o →
  opPool (run cs (Transport_new d id)) !! q = Some o' →
  isServerOp o = false → isServerOp o' = false →
  opId o = opId o' →
  p = q.
Proof.
  intros Hlen _ _ Hp Hq Hs Hs' Hid.
  destruct (Inv_run d id cs Hlen) as [HI _].
  pose proof (inv_client _ HI p o Hp Hs) as H1.
  pose proof (inv_client _ HI q o' Hq Hs') as H2.
  congruence.
Qed.

(** C6.  [allocOp] on a transport that satisfies the invariant [Inv]
    (which holds in every state a new transport reaches before its counter
    can wrap around, [Inv_run]): the opId is (transportId,
    nextOpSequenceNumber), under which no client Op is known yet; the
    counter is incremented (as a 64-bit counter); the Op returned is new, a
    client Op, retained, not started, in [activeOps], registered in
    [remoteOps] under its opId, and the reply address in the header of its
    outbound message is the local address of the driver. *)
Theorem allocOp_spec t :
  Inv t →
  let id := Protocol.mkOpId (transportId t) (nextOpSequenceNumber t) in
  opPool t !! (allocOp t).1 = None ∧
  ((allocOp t).1 ∉ activeOps t) ∧
  remoteOps t !! id = None ∧
  (∀ q o, opPool t !! q = Some o → isServerOp o = false → opId o ≠ id) ∧
  nextOpSequenceNumber (allocOp t).2 = wrap64 (nextOpSequenceNumber t + 1) ∧
  ∃ o, opPool (allocOp t).2 !! (allocOp t).1 = Some o ∧
       opId o = id ∧
       isServerOp o = false ∧
       retained o = true ∧
       state o = OpContext.NOT_STARTED ∧
       (allocOp t).1 ∈ activeOps (allocOp t).2 ∧
       remoteOps (allocOp t).2 !! id = Some (allocOp t).1 ∧
       headerDefined (OutboundMessage.get (outMessage o)) = true ∧
       replyAddress (OutboundMessage.get (outMessage o))
       = getLocalAddress (driver t).
Proof.
  intros HI id. pose proof (Inv_key_fresh t HI) as Hk. fold id in Hk.
  rewrite allocOp_unfold. simpl. split_and!.
  - apply not_elem_of_dom, is_fresh.
  - rewrite <- (inv_active _ HI). apply is_fresh.
  - done.
  - intros q o Hq Hs He. pose proof (inv_client _ HI q o Hq Hs). congruence.
  - done.
  - exists (allocOp_op t). rewrite lookup_insert_eq.
    unfold remoteOps_insert. fold id. rewrite Hk, lookup_insert_eq.
    split_and!; try done. set_solver.
Qed.

(** ** Handing requests to the application *)

(** C7.  [receiveOp] returns the null pointer exactly when
    [pendingServerOps] is empty, and then changes nothing.  Otherwise it
    pops and returns the front Op; with the Op live and its inbound message
    present (as the source asserts), the reply address of the header of
    the inbound message has been copied into the header of the outbound
    message and [retained] is set, and nothing else has changed, in the Op
    or in the transport. *)
Theorem receiveOp_spec t :
  ((receiveOp t).1 = None ↔ pendingServerOps t = []) ∧
  (pendingServerOps t = [] → (receiveOp t).2 = t) ∧
  (∀ p rest o m,
     pendingServerOps t = p :: rest →
     opPool t !! p = Some o →
     inMessage o = Some m →
     (receiveOp t).1 = Some p ∧
     ∃ o',
       (receiveOp t).2 =
         mkTransport (driver t) (transportId t) (nextOpSequenceNumber t)
           (sender t) (receiver t) (<[p := o']> (opPool t)) (activeOps t)
           (remoteOps t) (updateHints_ops t) (updateHints_order t)
           (unusedOps t) rest (trace t) ∧
       retained o' = true ∧
       headerDefined (OutboundMessage.get (outMessage o')) = true ∧
       replyAddress (OutboundMessage.get (outMessage o'))
       = replyAddress (InboundMessage.get m) ∧
       OutboundMessage.getState (outMessage o')
       = OutboundMessage.getState (outMessage o) ∧
       OutboundMessage.getId (outMessage o')
       = OutboundMessage.getId (outMessage o) ∧
       opId o' = opId o ∧ isServerOp o' = isServerOp o ∧
       state o' = state o ∧ inMessage o' = inMessage o ∧
       destroy o' = destroy o).
Proof.
  unfold receiveOp. split_and!.
  - destruct (pendingServerOps t) as [|p rest]; [done|]. simpl.
    destruct (opPool t !! p) as [o|]; [|done].
    by destruct (inMessage o).
  - by intros ->.
  - intros p rest o m -> Hp Hm. simpl. rewrite Hp, Hm. simpl.
    split; [done|]. eexists. split; [reflexivity|]. by split_and!.
Qed.

(** ** Inbound messages *)

Lemma processInboundMessage_receiver m t :
  receiver (processInboundMessage m t) = receiver t.
Proof.
  unfold processInboundMessage. case_bool_decide.
  - destruct (remoteOps t !! _) as [p|]; [|done].
    destruct (opPool t !! p); [|done]. by autorewrite with transport.
  - simpl. by autorewrite with transport.
Qed.

(** [processInboundMessages] handles the messages of the queue one after
    the other, from the front, and leaves the queue empty. *)
Lemma processInboundMessages_cons t m t1 :
  receiveMessage t = Some (m, t1) →
  receivedMessages (receiver t) = m :: receivedMessages (receiver t1) ∧
  processInboundMessages t =
    processInboundMessages (processInboundMessage m t1).
Proof.
  unfold receiveMessage, processInboundMessages.
  destruct (receivedMessages (receiver t)) as [|m' rest'] eqn:Hq; [done|].
  intros [= -> <-]. simpl. split; [done|].
  unfold receiveMessage. rewrite Hq.
  by rewrite processInboundMessage_receiver.
Qed.

Lemma processInboundMessages_nil t :
  receivedMessages (receiver t) = [] → processInboundMessages t = t.
Proof. unfold processInboundMessages. by intros ->. Qed.

Lemma processInboundMessages_drains t :
  receivedMessages (receiver (processInboundMessages t)) = [].
Proof.
  unfold processInboundMessages.
  remember (length (receivedMessages (receiver t))) as n eqn:Hn.
  revert t Hn. induction n as [|n IH]; intros t Hn.
  - simpl. by destruct (receivedMessages (receiver t)).
  - simpl. unfold receiveMessage.
    destruct (receivedMessages (receiver t)) as [|m rest] eqn:Hq; [done|].
    apply IH. rewrite processInboundMessage_receiver. simpl.
    simpl in Hn. lia.
Qed.

(** The Receiver does not matter to [processInboundMessage]. *)
Lemma processInboundMessage_set_receiver r m t :
  processInboundMessage m (set_receiver r t)
  = set_receiver r (processInboundMessage m t).
Proof.
  assert (∀ p t', hintUpdatedOp p (set_receiver r t')
                  = set_receiver r (hintUpdatedOp p t')) as Hh.
  { intros p t'. unfold hintUpdatedOp; simpl. by case_decide. }
  unfold processInboundMessage; simpl. case_bool_decide.
  - destruct (remoteOps t !! _) as [p|]; [|done].
    destruct (opPool t !! p) as [o|]; [|done].
    exact (Hh p (storeOp p _ t)).
  - exact (Hh _ (storeOp _ _ (set_activeOps _ (set_opPool _ t)))).
Qed.

(** [processInboundMessages] is [processInboundMessage] on every message
    of the queue, from the front to the back. *)
Lemma processInboundMessages_foldl t :
  processInboundMessages t =
    foldl (λ t' m, processInboundMessage m t') (drained t)
      (receivedMessages (receiver t)).
Proof.
  unfold processInboundMessages.
  remember (receivedMessages (receiver t)) as msgs eqn:Hq.
  revert t Hq. induction msgs as [|m rest IH]; intros t Hq.
  - simpl. unfold drained, set_receiver.
    destruct t as [? ? ? ? [? ? q] ? ? ? ? ? ? ? ?]; simpl in *. by subst q.
  - simpl. unfold receiveMessage. rewrite <- Hq.
    rewrite processInboundMessage_set_receiver.
    rewrite (IH (set_receiver _ (processInboundMessage m t)))
      by (by simpl).
    f_equal. unfold drained. by rewrite processInboundMessage_set_receiver.
Qed.

(** C3.  What [processInboundMessages] does with each message [message]
    that it takes from the Receiver ([processInboundMessages_foldl]):
    - a response (tag ULTIMATE_RESPONSE_TAG) whose id is in [remoteOps],
      in a transport that satisfies [Inv]: it is registered with the client
      Op found there and stored as its [inMessage], and a hint for that Op
      is posted;
    - a response whose id is not in [remoteOps]: it is dropped through the
      Receiver, and no Op is created or changed;
    - any other tag: a new server Op with the id of the message is created
      and inserted into [activeOps], not into [remoteOps]; the message is
      registered with it and stored as its [inMessage], and a hint is
      posted. *)
Theorem processInboundMessage_spec message t :
  let id := InboundMessage.getId message in
  let t' := processInboundMessage message t in
  (Protocol.tag id = ULTIMATE_RESPONSE_TAG →
   ∀ p, remoteOps t !! Protocol.opId id = Some p →
        Inv t →
        ∃ o, opPool t !! p = Some o ∧ isServerOp o = false ∧
             opPool t' =
               <[p := Op_setInMessage
                        (Some (InboundMessage.registerOp p message)) o]>
                 (opPool t) ∧
             p ∈ updateHints_ops t' ∧
             activeOps t' = activeOps t ∧ remoteOps t' = remoteOps t ∧
             trace t' = trace t) ∧
  (Protocol.tag id = ULTIMATE_RESPONSE_TAG →
   remoteOps t !! Protocol.opId id = None →
   t' = emit (ReceiverDropMessage message) t) ∧
  (Protocol.tag id ≠ ULTIMATE_RESPONSE_TAG →
   ∃ p o, opPool t !! p = None ∧
          opPool t' = <[p := o]> (opPool t) ∧
          opId o = Protocol.opId id ∧ isServerOp o = true ∧
          inMessage o = Some (InboundMessage.registerOp p message) ∧
          state o = OpContext.NOT_STARTED ∧
          activeOps t' = {[p]} ∪ activeOps t ∧
          remoteOps t' = remoteOps t ∧
          p ∈ updateHints_ops t' ∧
          trace t' = trace t).
Proof.
  simpl. unfold processInboundMessage. split_and!.
  - intros Htag p Hr HI. rewrite bool_decide_eq_true_2, Hr by done.
    destruct (inv_remote _ HI _ _ Hr) as (o & Hp & Hs & _).
    exists o. rewrite Hp. autorewrite with transport. simpl.
    split_and!; try done. apply hintUpdatedOp_posted.
  - intros Htag Hr. by rewrite bool_decide_eq_true_2, Hr.
  - intros Htag. rewrite bool_decide_eq_false_2 by done. simpl.
    eexists _, _. autorewrite with transport. simpl.
    split_and!; [apply not_elem_of_dom, is_fresh
                |by rewrite insert_insert_eq|try done..].
    apply hintUpdatedOp_posted.
Qed.

(** ** Bounded passes *)

Lemma to_uint_le n : to_uint n ≤ n.
Proof.
  unfold to_uint.
  assert (0 ≤ Z.of_nat n `mod` 2 ^ 32 ≤ Z.of_nat n)%Z; [|lia].
  split; [apply Z.mod_pos_bound; lia|apply Z.mod_le; lia].
Qed.

Lemma to_uint_small n : (Z.of_nat n < 2 ^ 32)%Z → to_uint n = n.
Proof. intros. unfold to_uint. rewrite Z.mod_small by lia. lia. Qed.

Lemma checkForUpdates_loop_bound env i n t :
  length (checkForUpdates_loop env i n t).1 ≤ n.
Proof.
  revert i t. induction n as [|n IH]; intros i t; [done|].
  simpl. destruct (takeHint (env i t)) as [[h t1]|]; [|simpl; lia].
  specialize (IH (S i) (if decide (h ∈ activeOps t1)
                        then processUpdates h t1 else t1)).
  destruct (checkForUpdates_loop env (S i) n _). simpl in *. lia.
Qed.

Lemma cleanupOps_loop_bound env i n t :
  length (cleanupOps_loop env i n t).1 ≤ n.
Proof.
  revert i t. induction n as [|n IH]; intros i t; [done|].
  simpl. destruct (unusedOps (env i t)) as [|p rest]; [simpl; lia|].
  specialize (IH (S i) (cleanupOp p (set_unusedOps rest (env i t)))).
  destruct (cleanupOps_loop env (S i) n _). simpl in *. lia.
Qed.

(** C8.  Whatever other threads do between the iterations ([env]), one
    pass of [checkForUpdates] takes at most as many hints as the hint set
    held when the pass started, and one pass of [cleanupOps] pops at most
    as many Ops as [unusedOps] held when the pass started; and an iteration
    that finds its queue empty ends the pass there. *)
Theorem passes_bounded env t :
  length (checkForUpdates_with env t).1 ≤ size (updateHints_ops t) ∧
  length (cleanupOps_with env t).1 ≤ length (unusedOps t) ∧
  (∀ i n t0, updateHints_order (env i t0) = [] →
             checkForUpdates_loop env i (S n) t0 = ([], env i t0)) ∧
  (∀ i n t0, unusedOps (env i t0) = [] →
             cleanupOps_loop env i (S n) t0 = ([], env i t0)).
Proof.
  split_and!.
  - unfold checkForUpdates_with. etrans; [apply checkForUpdates_loop_bound|].
    apply to_uint_le.
  - unfold cleanupOps_with. etrans; [apply cleanupOps_loop_bound|].
    apply to_uint_le.
  - intros i n t0 He. simpl. unfold takeHint. by rewrite He.
  - intros i n t0 He. simpl. by rewrite He.
Qed.

(** Running alone, a pass takes the hints that were queued when it
    started, in order; the hints that [processUpdates] posts meanwhile stay
    queued behind them for the next pass. *)
Lemma processUpdates_order p t :
  ∃ l, updateHints_order (processUpdates p t) = updateHints_order t ++ l.
Proof.
  assert (∀ q t', ∃ l, updateHints_order (hintUpdatedOp q t')
                       = updateHints_order t' ++ l) as Hh.
  { intros q t'. unfold hintUpdatedOp. case_decide; simpl; [|by eauto].
    exists []. by rewrite app_nil_r. }
  assert (∃ l, updateHints_order t = updateHints_order t ++ l) as Hsame.
  { exists []. by rewrite app_nil_r. }
  unfold processUpdates. destruct (opPool t !! p) as [o|]; [|done].
  destruct (destroy o); [done|]. destruct (isServerOp o).
  - destruct (state o).
    + destruct (inMessage o) as [m|]; [|done].
      by destruct (InboundMessage.isReady m).
    + destruct (_ || _); [|done].
      destruct (inMessage o) as [m|]; [|done].
      case_bool_decide;
        (edestruct Hh as [l Hl]; exists l; rewrite Hl; reflexivity).
    + by destruct (retained o).
    + by destruct (retained o).
  - destruct (retained o); simpl; [|done].
    destruct (state o); try done.
    destruct (inMessage o) as [m|]; [|done].
    destruct (InboundMessage.isReady m); [|done].
    edestruct Hh as [l Hl]; exists l; rewrite Hl; reflexivity.
Qed.

Lemma checkForUpdates_loop_alone n i t :
  n ≤ length (updateHints_order t) →
  (checkForUpdates_loop (λ _ t', t') i n t).1 = take n (updateHints_order t) ∧
  ∃ l, updateHints_order (checkForUpdates_loop (λ _ t', t') i n t).2
       = skipn n (updateHints_order t) ++ l.
Proof.
  revert i t. induction n as [|n IH]; intros i t Hn.
  - simpl. split; [done|]. exists []. by rewrite app_nil_r.
  - simpl. unfold takeHint.
    destruct (updateHints_order t) as [|h rest] eqn:Ho; [simpl in Hn; lia|].
    simpl in Hn.
    set (t1 := set_updateHints _ rest t).
    set (t2 := if decide (h ∈ activeOps t1) then processUpdates h t1 else t1).
    assert (∃ l, updateHints_order t2 = rest ++ l) as [l Hl].
    { unfold t2. case_decide; [apply (processUpdates_order h t1)|].
      exists []. by rewrite app_nil_r. }
    destruct (IH (S i) t2) as [Htaken [l' Hrest]].
    { rewrite Hl, length_app. lia. }
    destruct (checkForUpdates_loop _ (S i) n t2) as [taken t3].
    simpl in *. rewrite Htaken, Hrest, Hl. split.
    + f_equal. rewrite take_app_le by lia. done.
    + exists (l ++ l'). rewrite drop_app_le by lia. by rewrite app_assoc.
Qed.

Lemma checkForUpdates_alone t :
  size (updateHints_ops t) = length (updateHints_order t) →
  ∃ l, (checkForUpdates_with (λ _ t', t') t).1
       = take (to_uint (length (updateHints_order t))) (updateHints_order t) ∧
       updateHints_order (checkForUpdates t)
       = skipn (to_uint (length (updateHints_order t))) (updateHints_order t)
         ++ l.
Proof.
  intros Hs. unfold checkForUpdates, checkForUpdates_with. rewrite Hs.
  destruct (checkForUpdates_loop_alone
              (to_uint (length (updateHints_order t))) 0 t) as [H1 [l H2]];
    [apply to_uint_le|]. eauto.
Qed.

(** ** Reclaiming released Ops *)

Lemma wanes_refl t : wanes t t.
Proof. split_and!; try done. exists []. by rewrite app_nil_r. Qed.

Lemma wanes_trans t1 t2 t3 : wanes t1 t2 → wanes t2 t3 → wanes t1 t3.
Proof.
  intros (Ha & Hp & Hr & l & Hl) (Ha' & Hp' & Hr' & l' & Hl').
  split_and!; [by etrans..|]. exists (l ++ l'). by rewrite Hl', Hl, app_assoc.
Qed.

Lemma cleanupOp_wanes p t : wanes t (cleanupOp p t).
Proof.
  destruct (decide (p ∈ activeOps t)) as [Ha|Ha];
    [|rewrite cleanupOp_not_active by done; apply wanes_refl].
  destruct (opPool t !! p) as [o|] eqn:Hp.
  - destruct (cleanupOp_live p o t Ha Hp) as [[= Hpool Hact Hrem _ _] Htr].
    split_and!.
    + rewrite Hact. apply subseteq_difference_l. done.
    + rewrite Hpool. apply delete_subseteq.
    + rewrite Hrem. destruct (isServerOp o); [done|apply delete_subseteq].
    + eauto.
  - unfold cleanupOp. rewrite decide_True, Hp by done. apply wanes_refl.
Qed.

Lemma cleanupOps_loop_wanes i n t :
  wanes t (cleanupOps_loop (λ _ t', t') i n t).2.
Proof.
  apply (cleanupOps_loop_keeps (wanes t)); [done| |apply wanes_refl].
  intros t' p rest Hw _. eapply wanes_trans; [exact Hw|].
  eapply wanes_trans; [|apply cleanupOp_wanes].
  split_and!; try done. exists []. by rewrite app_nil_r.
Qed.

(** A live Op that is queued on [unusedOps] does not survive a pass that
    covers the queue. *)
Lemma cleanupOps_loop_reclaims n i t p o :
  length (unusedOps t) ≤ n →
  p ∈ unusedOps t → p ∈ activeOps t → opPool t !! p = Some o →
  let t' := (cleanupOps_loop (λ _ t', t') i n t).2 in
  ((p ∉ activeOps t') ∧ opPool t' !! p = None ∧
   (isServerOp o = false → remoteOps t' !! opId o = None) ∧
   ∃ l, trace t' = trace t ++ l ∧ SenderDropMessage p ∈ l).
Proof.
  revert i t. induction n as [|n IH]; intros i t Hn Hq Ha Hp.
  { destruct (unusedOps t); [by apply elem_of_nil in Hq|simpl in Hn; lia]. }
  simpl. destruct (unusedOps t) as [|q rest] eqn:Hu;
    [by apply elem_of_nil in Hq|].
  simpl in Hn. set (t1 := cleanupOp q (set_unusedOps rest t)).
  destruct (decide (q = p)) as [->|Hne].
  - destruct (cleanupOp_live p o (set_unusedOps rest t) Ha Hp)
      as [[= Hpool Hact Hrem _ _] Htr]. fold t1 in Hpool, Hact, Hrem, Htr.
    simpl in *.
    pose proof (cleanupOps_loop_wanes (S i) n t1) as (Ha' & Hp' & Hr' & l & Hl).
    destruct (cleanupOps_loop _ (S i) n t1) as [popped t2]. simpl in *.
    split_and!.
    + intros Hin. apply Ha' in Hin. rewrite Hact in Hin.
      apply elem_of_difference in Hin as [_ Hnp]. apply Hnp.
      by apply elem_of_singleton.
    + eapply lookup_weaken_None; [|exact Hp'].
      rewrite Hpool. apply lookup_delete_eq.
    + intros Hs. eapply lookup_weaken_None; [|exact Hr'].
      rewrite Hrem, Hs. apply lookup_delete_eq.
    + eexists. rewrite Hl, Htr, <- app_assoc. split; [done|].
      apply elem_of_app. left. apply elem_of_cons. by left.
  - assert (p ∈ rest) as Hrest.
    { apply elem_of_cons in Hq as [?|?]; [congruence|done]. }
    assert (unusedOps t1 = rest ∧ p ∈ activeOps t1 ∧ opPool t1 !! p = Some o
            ∧ ∃ l1, trace t1 = trace t ++ l1) as (Hu1 & Ha1 & Hp1 & l1 & Hl1).
    { unfold t1. destruct (decide (q ∈ activeOps t)) as [Hqa|Hqa];
        [|rewrite cleanupOp_not_active by done; simpl;
          split_and!; try done; exists []; by rewrite app_nil_r].
      destruct (opPool t !! q) as [oq|] eqn:Hpq.
      - destruct (cleanupOp_live q oq (set_unusedOps rest t) Hqa Hpq)
          as [[= Hpool Hact Hrem _ Hun] Htr]. simpl in *.
        rewrite Hpool, Hact, Hun, Htr. split_and!; [done| | |eauto].
        { apply elem_of_difference. split; [done|].
          intros ?%elem_of_singleton. congruence. }
        by rewrite lookup_delete_ne.
      - unfold cleanupOp. simpl. rewrite decide_True, Hpq by done. simpl.
        split_and!; try done. exists []. by rewrite app_nil_r. }
    destruct (IH (S i) t1) as (R1 & R2 & R3 & l & Hl & Hin);
      [rewrite Hu1; lia|by rewrite Hu1|done|done|].
    destruct (cleanupOps_loop _ (S i) n t1) as [popped t2]. simpl in *.
    split_and!; try done.
    exists (l1 ++ l). rewrite Hl, Hl1, app_assoc. split; [done|].
    apply elem_of_app. by right.
Qed.

(** What [processUpdates] does to a released client Op, and to a released
    server Op that has not been dropped yet. *)
Lemma processUpdates_released_client p o t :
  opPool t !! p = Some o → isServerOp o = false → retained o = false →
  destroy o = false →
  processUpdates p t = drop p o t.
Proof.
  intros Hp Hs Hr Hd. unfold processUpdates. by rewrite Hp, Hd, Hs, Hr.
Qed.

Lemma processUpdates_released_server q o t :
  opPool t !! q = Some o → isServerOp o = true → retained o = false →
  destroy o = false →
  (state o = OpContext.COMPLETED ∨ state o = OpContext.FAILED →
   processUpdates q t = drop q o t) ∧
  (state o = OpContext.NOT_STARTED ∨ state o = OpContext.IN_PROGRESS →
   ∃ o', opPool (processUpdates q t) !! q = Some o' ∧ destroy o' = false ∧
         unusedOps (processUpdates q t) = unusedOps t).
Proof.
  intros Hq Hs Hr Hd. unfold processUpdates. rewrite Hq, Hd, Hs, Hr. split.
  - by intros [->| ->].
  - intros [Hst|Hst]; rewrite Hst.
    + destruct (inMessage o) as [m|]; [|by eauto].
      destruct (InboundMessage.isReady m); [|by eauto].
      eexists. simpl. rewrite lookup_insert_eq. done.
    + destruct (_ || _); [|by eauto].
      destruct (inMessage o) as [m|]; [|by eauto].
      eexists. autorewrite with transport.
      case_bool_decide; simpl; rewrite lookup_insert_eq; done.
Qed.

(** C4.  In a transport that satisfies the invariant [Inv] (which holds
    in every state a new transport reaches before its counter can wrap
    around, [Inv_run]) and whose [unusedOps] fits the [uint] counter of
    [cleanupOps]:
    - a client Op with [retained] clear is dropped by [processUpdates]
      whatever its state: afterwards [destroy] is set and the Op is queued
      on [unusedOps] (it is appended there unless it had been dropped
      before); the following pass of [cleanupOps] calls
      [Sender::dropMessage] on its outbound message, removes it from
      [remoteOps] and [activeOps] and destroys it;
    - a server Op with [retained] clear, not dropped before, is dropped by
      [processUpdates] exactly in the states Completed and Failed. *)
Theorem released_ops_reclaimed t :
  Inv t →
  (Z.of_nat (length (unusedOps t)) < 2 ^ 32 - 1)%Z →
  (∀ p o,
     opPool t !! p = Some o → isServerOp o = false → retained o = false →
     let t1 := processUpdates p t in
     let t2 := cleanupOps t1 in
     (∃ o1, opPool t1 !! p = Some o1 ∧ destroy o1 = true ∧
            state o1 = state o) ∧
     p ∈ unusedOps t1 ∧
     (destroy o = false → unusedOps t1 = unusedOps t ++ [p]) ∧
     (∃ l, trace t2 = trace t1 ++ l ∧ SenderDropMessage p ∈ l) ∧
     remoteOps t2 !! opId o = None ∧
     (p ∉ activeOps t2) ∧
     opPool t2 !! p = None) ∧
  (∀ q o,
     opPool t !! q = Some o → isServerOp o = true → retained o = false →
     destroy o = false →
     let t1 := processUpdates q t in
     (∃ o1, opPool t1 !! q = Some o1 ∧ destroy o1 = true) ↔
     (state o = OpContext.COMPLETED ∨ state o = OpContext.FAILED)).
Proof.
  intros HI Hlen. split.
  - intros p o Hp Hs Hr t1 t2.
    assert (p ∈ activeOps t) as Ha.
    { rewrite <- (inv_active _ HI). by apply elem_of_dom_2 in Hp. }
    assert (∃ o1, opPool t1 !! p = Some o1 ∧ destroy o1 = true ∧
                  state o1 = state o ∧ opId o1 = opId o ∧
                  isServerOp o1 = false ∧
                  p ∈ unusedOps t1 ∧ activeOps t1 = activeOps t ∧
                  (destroy o = false → unusedOps t1 = unusedOps t ++ [p]) ∧
                  length (unusedOps t1) ≤ S (length (unusedOps t)))
      as (o1 & Hp1 & Hd1 & Hst1 & Hid1 & Hs1 & Hq1 & Ha1 & Happ & Hlen1).
    { unfold t1. destruct (destroy o) eqn:Hd.
      - rewrite (processUpdates_destroyed p o t Hp Hd). exists o.
        split_and!; try done; [by eapply inv_drop|lia].
      - rewrite (processUpdates_released_client p o t Hp Hs Hr Hd).
        eexists. unfold drop; simpl. rewrite lookup_insert_eq.
        split_and!; try done; [set_solver|rewrite length_app; simpl; lia]. }
    destruct (cleanupOps_loop_reclaims (to_uint (length (unusedOps t1))) 0
                t1 p o1) as (R1 & R2 & R3 & R4);
      [rewrite to_uint_small by lia; lia|done|by rewrite Ha1|done|].
    split_and!; eauto. rewrite <- Hid1. by apply R3.
  - intros q o Hq Hs Hr Hd t1.
    destruct (processUpdates_released_server q o t Hq Hs Hr Hd) as [He Hn].
    split.
    + intros (o1 & Hq1 & Hd1).
      destruct (state o) eqn:Hst; [| |by left|by right];
        (destruct Hn as (o' & Ho' & Hd' & _); [by eauto|];
         unfold t1 in Hq1; congruence).
    + unfold t1. intros Hst. rewrite He by done. unfold drop; simpl.
      eexists. rewrite lookup_insert_eq. done.
Qed.

(** ** Server Ops in progress are not marked *)

Lemma DropInv_sub t t' : opPool t' ⊆ opPool t → DropInv t → DropInv t'.
Proof.
  intros Hsub HD p o Hp. apply (HD p). by eapply lookup_weaken.
Qed.

Lemma DropInv_core t t' : core t' = core t → DropInv t → DropInv t'.
Proof.
  unfold core. intros [= Hpool _ _ _ _]. apply DropInv_sub. by rewrite Hpool.
Qed.

Lemma DropInv_store p o' t t' :
  opPool t' = <[p := o']> (opPool t) →
  (isServerOp o' = true → destroy o' = true →
   state o' = OpContext.COMPLETED ∨ state o' = OpContext.FAILED) →
  DropInv t → DropInv t'.
Proof.
  intros Hpool Ho HD q oq. rewrite Hpool, lookup_insert.
  case_decide; [|apply HD]. by intros [= <-].
Qed.

Lemma DropInv_hintUpdatedOp p t : DropInv t → DropInv (hintUpdatedOp p t).
Proof. apply DropInv_core, core_hintUpdatedOp. Qed.

Lemma DropInv_processUpdates p t : DropInv t → DropInv (processUpdates p t).
Proof.
  intros HD. unfold processUpdates.
  destruct (opPool t !! p) as [o|] eqn:Hp; [|done].
  destruct (destroy o) eqn:Hd; [done|].
  destruct (isServerOp o) eqn:Hs.
  - destruct (state o) eqn:Hst.
    + destruct (inMessage o) as [m|]; [|done].
      destruct (InboundMessage.isReady m); [|done].
      eapply (DropInv_store p); [| |exact HD].
      * simpl. by rewrite insert_insert_eq.
      * simpl. congruence.
    + destruct (_ || _); [|done].
      destruct (inMessage o) as [m|]; [|done].
      apply DropInv_hintUpdatedOp.
      eapply (DropInv_store p); [| |exact HD].
      * by case_bool_decide.
      * simpl. congruence.
    + destruct (retained o); simpl; [done|].
      eapply (DropInv_store p); [done| |exact HD]. simpl. by left.
    + destruct (retained o); simpl; [done|].
      eapply (DropInv_store p); [done| |exact HD]. simpl. by right.
  - destruct (retained o); simpl.
    + destruct (state o); try done.
      destruct (inMessage o) as [m|]; [|done].
      destruct (InboundMessage.isReady m); [|done].
      apply DropInv_hintUpdatedOp.
      eapply (DropInv_store p); [done| |exact HD]. simpl. congruence.
    + eapply (DropInv_store p); [done| |exact HD]. simpl. congruence.
Qed.

Lemma DropInv_processInboundMessage m t :
  DropInv t → DropInv (processInboundMessage m t).
Proof.
  intros HD. unfold processInboundMessage. case_bool_decide.
  - destruct (remoteOps t !! _) as [p|]; [|done].
    destruct (opPool t !! p) as [o|] eqn:Hp; [|done].
    apply DropInv_hintUpdatedOp.
    eapply (DropInv_store p); [done| |exact HD]. exact (HD p o Hp).
  - unfold opPool_construct. apply DropInv_hintUpdatedOp.
    eapply (DropInv_store (fresh (dom (opPool t)))); [| |exact HD].
    + simpl. by rewrite insert_insert_eq.
    + done.
Qed.

Lemma DropInv_processInboundMessages t :
  DropInv t → DropInv (processInboundMessages t).
Proof.
  apply processInboundMessages_loop_keeps. intros t' t1 m HD Hr.
  apply DropInv_processInboundMessage.
  eapply DropInv_core; [|exact HD]. by eapply receiveMessage_core.
Qed.

Lemma DropInv_checkForUpdates t : DropInv t → DropInv (checkForUpdates t).
Proof.
  apply checkForUpdates_loop_keeps; [done| |apply DropInv_processUpdates].
  intros t' h t1 HD Hr. eapply DropInv_core; [|exact HD].
  by eapply takeHint_core.
Qed.

Lemma DropInv_cleanupOps t : DropInv t → DropInv (cleanupOps t).
Proof. apply DropInv_sub, cleanupOps_shrinks. Qed.

(** Every call keeps [DropInv], a [sendReply] provided that the Op it is
    made on is not marked. *)
Lemma DropInv_step c t :
  DropInv t → noReplyAfterDrop [c] t = true → DropInv (step c t).
Proof.
  intros HD Hc. destruct c; cbn [step].
  - rewrite allocOp_unfold. simpl.
    by eapply (DropInv_store (fresh (dom (opPool t)))); [done| |exact HD].
  - unfold receiveOp. destruct (pendingServerOps t) as [|p rest]; [done|].
    simpl. destruct (opPool t !! p) as [o|] eqn:Hp; [|done].
    destruct (inMessage o); [|done].
    eapply (DropInv_store p); [done| |exact HD]. exact (HD p o Hp).
  - unfold releaseOp. destruct (opPool t !! p) as [o|] eqn:Hp; [|done].
    apply DropInv_hintUpdatedOp.
    eapply (DropInv_store p); [done| |exact HD]. exact (HD p o Hp).
  - unfold sendRequest. destruct (opPool t !! p) as [o|] eqn:Hp; [|done].
    destruct (isServerOp o) eqn:Hs; [by destruct (inMessage o)|].
    eapply (DropInv_store p); [done| |exact HD]. simpl. congruence.
  - unfold sendReply. simpl in Hc.
    destruct (opPool t !! p) as [o|] eqn:Hp; [|done].
    destruct (inMessage o); [|done].
    eapply (DropInv_store p); [done| |exact HD]. simpl.
    destruct (destroy o); [done|congruence].
  - unfold poll.
    apply DropInv_cleanupOps, DropInv_checkForUpdates,
      DropInv_processInboundMessages.
    eapply DropInv_core; [|exact HD]. apply (processPackets_core rx t).
  - by apply DropInv_processInboundMessages.
  - by apply DropInv_checkForUpdates.
  - by apply DropInv_cleanupOps.
  - by apply DropInv_processUpdates.
  - done.
  - unfold Sender_progress. destruct (opPool t !! p) as [o|] eqn:Hp; [|done].
    apply DropInv_hintUpdatedOp.
    eapply (DropInv_store p); [done| |exact HD]. exact (HD p o Hp).
Qed.

Lemma DropInv_run cs t :
  DropInv t → noReplyAfterDrop cs t = true → DropInv (run cs t).
Proof.
  revert t. induction cs as [|c cs IH]; intros t HD Hcs; [done|].
  change (run (c :: cs) t) with (run cs (step c t)).
  cbn [noReplyAfterDrop] in Hcs.
  apply andb_true_iff in Hcs as [Hc Hcs]. apply IH; [|done].
  apply DropInv_step; [done|]. cbn [noReplyAfterDrop].
  by rewrite Hc.
Qed.

(** C2.  At every state that a new transport reaches by calls that keep
    the contract of [releaseOp] (no [sendReply] on an Op that has been
    dropped, [noReplyAfterDrop]), [processUpdates] on a server Op in
    progress completes it exactly when its reply is settled, that is when
    the outbound message is COMPLETED, or carries ULTIMATE_RESPONSE_TAG and
    is SENT.  On that transition a DONE packet goes to the source of the
    inbound message if and only if the tag of the inbound message is not
    INITIAL_REQUEST_TAG, and a hint for the Op is posted.  Otherwise
    nothing changes. *)
Theorem processUpdates_server_completes d id cs p o m :
  noReplyAfterDrop cs (Transport_new d id) = true →
  opPool (run cs (Transport_new d id)) !! p = Some o →
  isServerOp o = true →
  state o = OpContext.IN_PROGRESS →
  inMessage o = Some m →
  let t := run cs (Transport_new d id) in
  let t' := processUpdates p t in
  (stateOf p t' = Some OpContext.COMPLETED ↔ replySettled o) ∧
  (replySettled o →
     (Protocol.tag (InboundMessage.getId m) ≠ INITIAL_REQUEST_TAG →
        trace t' = trace t ++ [SendDonePacket (InboundMessage.source m)
                                              (InboundMessage.getId m)]) ∧
     (Protocol.tag (InboundMessage.getId m) = INITIAL_REQUEST_TAG →
        trace t' = trace t) ∧
     p ∈ updateHints_ops t') ∧
  (¬ replySettled o → t' = t).
Proof.
  intros Hcs Hp Hs Hst Hm t t'.
  assert (DropInv t) as HD by (by apply DropInv_run).
  assert (destroy o = false) as Hd.
  { destruct (destroy o) eqn:Hd; [|done].
    destruct (HD p o Hp Hs Hd); congruence. }
  by apply processUpdates_server_in_progress.
Qed.

(** ** Dropped Ops *)

Lemma lives_destroyed p cs t o :
  opPool t !! p = Some o → destroy o = true → lives p cs t →
  ∃ o', opPool (run cs t) !! p = Some o' ∧ destroy o' = true.
Proof.
  revert t o. induction cs as [|c cs IH]; intros t o Hp Hd Hl.
  - by exists o.
  - destruct Hl as [_ Hl].
    assert (is_Some (opPool (step c t) !! p)) as [o1 Hp1]
      by (destruct cs; apply Hl).
    change (run (c :: cs) t) with (run cs (step c t)).
    eapply (IH (step c t) o1); [done| |done].
    exact (step_keeps_destroy c t p o o1 Hp Hp1 Hd).
Qed.

(** C10.  Once the [destroy] flag of an Op is set, [processUpdates] on
    that Op changes nothing at all: not the Op and its state, not
    [pendingServerOps], not [unusedOps], nor anything else in the
    transport.  This holds at once and after any calls the Op lives
    through, however often [processUpdates] runs. *)
Theorem processUpdates_after_drop p o t cs n :
  opPool t !! p = Some o →
  destroy o = true →
  lives p cs t →
  Nat.iter n (processUpdates p) (run cs t) = run cs t.
Proof.
  intros Hp Hd Hl.
  destruct (lives_destroyed p cs t o Hp Hd Hl) as (o' & Hp' & Hd').
  induction n as [|n IH]; [done|].
  simpl. rewrite IH. by eapply processUpdates_destroyed.
Qed.

(** ** The update hints *)

Lemma hinted_post p t0 t :
  updateHints_ops t0 = updateHints_ops t →
  updateHints_order t0 = updateHints_order t →
  hinted t (hintUpdatedOp p t0).
Proof.
  intros Hs Hq. unfold hintUpdatedOp. case_decide as Hin.
  - by left.
  - right. exists p. simpl. by rewrite <- Hs, <- Hq.
Qed.

Lemma HintsInv_hinted t t' : hinted t t' → HintsInv t → HintsInv t'.
Proof.
  intros [[Hs Hq]|(p & Hp & Hs & Hq)] [Hnd Hsame].
  - split; rewrite ?Hs, ?Hq; done.
  - split; rewrite ?Hq.
    + apply NoDup_app. split; [done|]. split; [|apply NoDup_singleton].
      intros q Hq1 ->%list_elem_of_singleton. by apply Hp, Hsame.
    + intros q. rewrite Hs, elem_of_union, elem_of_singleton, elem_of_app,
        list_elem_of_singleton, Hsame. tauto.
Qed.

Lemma HintsInv_size t :
  HintsInv t → size (updateHints_ops t) = length (updateHints_order t).
Proof.
  intros [Hnd Hsame].
  assert (updateHints_ops t = list_to_set (updateHints_order t)) as ->.
  { apply set_eq. intros p. by rewrite elem_of_list_to_set. }
  by apply size_list_to_set.
Qed.

Lemma processUpdates_hinted p t : hinted t (processUpdates p t).
Proof.
  unfold processUpdates.
  destruct (opPool t !! p) as [o|]; [|by left].
  destruct (destroy o); [by left|].
  destruct (isServerOp o).
  - destruct (state o).
    + destruct (inMessage o) as [m|]; [|by left].
      destruct (InboundMessage.isReady m); by left.
    + destruct (_ || _); [|by left].
      destruct (inMessage o) as [m|]; [|by left].
      apply hinted_post; by case_bool_decide.
    + destruct (retained o); by left.
    + destruct (retained o); by left.
  - destruct (retained o); simpl; [|by left].
    destruct (state o); try by left.
    destruct (inMessage o) as [m|]; [|by left].
    destruct (InboundMessage.isReady m); [|by left].
    by apply hinted_post.
Qed.

Lemma releaseOp_hinted p t : hinted t (releaseOp p t).
Proof.
  unfold releaseOp. destruct (opPool t !! p) as [o|]; [|by left].
  by apply hinted_post.
Qed.

Lemma Sender_progress_hinted p s id t : hinted t (Sender_progress p s id t).
Proof.
  unfold Sender_progress. destruct (opPool t !! p) as [o|]; [|by left].
  by apply hinted_post.
Qed.

Lemma processInboundMessage_hinted m t : hinted t (processInboundMessage m t).
Proof.
  unfold processInboundMessage. case_bool_decide.
  - destruct (remoteOps t !! _) as [p|]; [|by left].
    destruct (opPool t !! p) as [o|]; [|by left].
    by apply hinted_post.
  - by apply hinted_post.
Qed.

Lemma HintsInv_takeHint t h t1 :
  takeHint t = Some (h, t1) → HintsInv t → HintsInv t1.
Proof.
  unfold takeHint. destruct (updateHints_order t) as [|h' rest] eqn:Ho; [done|].
  intros [= <- <-] [Hnd Hsame]. rewrite Ho in *.
  apply NoDup_cons in Hnd as [Hh Hnd]. split; simpl; [done|].
  intros q. rewrite elem_of_difference, elem_of_singleton, Hsame, elem_of_cons.
  split; [intros [[?|?] ?]; done|].
  intros Hq. split; [by right|]. by intros ->.
Qed.

Lemma processPackets_emits rx t :
  processPackets rx t =
    mkTransport (driver t) (transportId t) (nextOpSequenceNumber t)
      (sender t) (receiver t) (opPool t) (activeOps t) (remoteOps t)
      (updateHints_ops t) (updateHints_order t) (unusedOps t)
      (pendingServerOps t)
      (trace t ++ omap (λ packet,
                          (λ h, HandlePacket h packet) <$> route packet)
                       (take MAX_BURST rx)).
Proof.
  unfold processPackets. generalize (take MAX_BURST rx). intros l.
  revert t. induction l as [|a l IH]; intros t; simpl.
  - by rewrite app_nil_r, Transport_eta.
  - rewrite IH. destruct (route a); simpl; [|done]. by rewrite <- app_assoc.
Qed.

Lemma cleanupOp_hints p t :
  updateHints_ops (cleanupOp p t) = updateHints_ops t ∧
  updateHints_order (cleanupOp p t) = updateHints_order t.
Proof.
  unfold cleanupOp. case_decide; [|done].
  destruct (opPool t !! p) as [o|]; [|done].
  by destruct (inMessage o), (isServerOp o).
Qed.

Lemma HintsInv_same t t' :
  updateHints_ops t' = updateHints_ops t →
  updateHints_order t' = updateHints_order t →
  HintsInv t → HintsInv t'.
Proof. intros. apply (HintsInv_hinted t); [by left|done]. Qed.

Lemma HintsInv_processInboundMessages t :
  HintsInv t → HintsInv (processInboundMessages t).
Proof.
  apply processInboundMessages_loop_keeps. intros t' t1 m HI Hr.
  apply (HintsInv_hinted t1); [apply processInboundMessage_hinted|].
  unfold receiveMessage in Hr.
  destruct (receivedMessages (receiver t')); [done|].
  injection Hr as _ <-. by apply (HintsInv_same t').
Qed.

Lemma HintsInv_checkForUpdates t : HintsInv t → HintsInv (checkForUpdates t).
Proof.
  apply checkForUpdates_loop_keeps; [done| |].
  - intros t' h t1 HI Hr. by eapply HintsInv_takeHint.
  - intros p t' HI. by eapply HintsInv_hinted; [apply processUpdates_hinted|].
Qed.

Lemma HintsInv_cleanupOps t : HintsInv t → HintsInv (cleanupOps t).
Proof.
  apply cleanupOps_loop_keeps; [done|]. intros t' p rest HI _.
  destruct (cleanupOp_hints p (set_unusedOps rest t')) as [Hs Hq].
  by apply (HintsInv_same t').
Qed.

Lemma HintsInv_poll rx t : HintsInv t → HintsInv (poll rx t).
Proof.
  intros HI. unfold poll.
  apply HintsInv_cleanupOps, HintsInv_checkForUpdates,
    HintsInv_processInboundMessages.
  rewrite processPackets_emits. by apply (HintsInv_same t).
Qed.

Lemma HintsInv_step c t : HintsInv t → HintsInv (step c t).
Proof.
  intros HI. destruct c; cbn [step].
  - rewrite allocOp_unfold. by apply (HintsInv_same t).
  - apply (HintsInv_same t); [| |done]; unfold receiveOp;
      destruct (pendingServerOps t) as [|p rest]; try done; simpl;
      destruct (opPool t !! p) as [o|]; try done;
      by destruct (inMessage o).
  - by eapply HintsInv_hinted; [apply releaseOp_hinted|].
  - apply (HintsInv_same t); [| |done]; unfold sendRequest;
      destruct (opPool t !! p) as [o|]; try done;
      destruct (isServerOp o); try done; by destruct (inMessage o).
  - apply (HintsInv_same t); [| |done]; unfold sendReply;
      destruct (opPool t !! p) as [o|]; try done;
      by destruct (inMessage o).
  - by apply HintsInv_poll.
  - by apply HintsInv_processInboundMessages.
  - by apply HintsInv_checkForUpdates.
  - by apply HintsInv_cleanupOps.
  - by eapply HintsInv_hinted; [apply processUpdates_hinted|].
  - by apply (HintsInv_same t).
  - by eapply HintsInv_hinted; [apply Sender_progress_hinted|].
Qed.

Lemma HintsInv_run d id cs : HintsInv (run cs (Transport_new d id)).
Proof.
  induction cs as [|c cs IH] using rev_ind.
  - split; simpl; [apply NoDup_nil_2|]. intros p.
    by rewrite elem_of_empty, elem_of_nil.
  - rewrite run_snoc. by apply HintsInv_step.
Qed.

(** X9.  In every state that a new transport reaches, the two halves of
    [updateHints] agree: the queue [order] holds no Op twice, it holds an Op
    exactly when the set [ops] does, and so the two have the same size,
    which is what [checkForUpdates] asserts on entry. *)
Theorem reachable_hints_agree d id cs :
  NoDup (updateHints_order (run cs (Transport_new d id))) ∧
  (∀ p, p ∈ updateHints_ops (run cs (Transport_new d id))
        ↔ p ∈ updateHints_order (run cs (Transport_new d id))) ∧
  size (updateHints_ops (run cs (Transport_new d id))) =
    length (updateHints_order (run cs (Transport_new d id))).
Proof.
  pose proof (HintsInv_run d id cs) as HI.
  split; [apply HI|]. split; [apply HI|]. by apply HintsInv_size.
Qed.

(** ** Stale hints *)

Lemma checkForUpdates_loop_stale n i t :
  (∀ h, h ∈ updateHints_order t → h ∉ activeOps t) →
  (checkForUpdates_loop (λ _ t', t') i n t).2 =
    set_updateHints
      (updateHints_ops t ∖ list_to_set (take n (updateHints_order t)))
      (skipn n (updateHints_order t)) t.
Proof.
  revert i t. induction n as [|n IH]; intros i t Hstale.
  - simpl. rewrite difference_empty_L. unfold set_updateHints.
    by rewrite Transport_eta.
  - simpl. unfold takeHint.
    destruct (updateHints_order t) as [|h rest] eqn:Ho.
    + simpl. rewrite difference_empty_L. unfold set_updateHints.
      by rewrite <- Ho, Transport_eta.
    + simpl. rewrite decide_False by (apply Hstale; left).
      specialize (IH (S i) (set_updateHints (updateHints_ops t ∖ {[h]}) rest t)).
      destruct (checkForUpdates_loop _ (S i) n _) as [taken t3].
      simpl in *. rewrite IH.
      * unfold set_updateHints; simpl.
        by rewrite difference_difference_l_L.
      * intros h' Hh'. apply Hstale. by right.
Qed.

(** X7.  A hint whose Op is no longer in [activeOps] is taken from the
    hint set and passed over: when no hinted Op is active, a pass of
    [checkForUpdates] runs [processUpdates] on nothing, and changes the
    hint set only. *)
Theorem checkForUpdates_skips_stale t :
  (∀ h, h ∈ updateHints_order t → h ∉ activeOps t) →
  checkForUpdates t =
    set_updateHints
      (updateHints_ops t ∖
       list_to_set (take (to_uint (size (updateHints_ops t)))
                      (updateHints_order t)))
      (skipn (to_uint (size (updateHints_ops t))) (updateHints_order t)) t.
Proof.
  intros Hstale. unfold checkForUpdates, checkForUpdates_with.
  by apply checkForUpdates_loop_stale.
Qed.

(** ** What [cleanupOps] reclaims *)

Lemma cleanupOp_unusedOps p t : unusedOps (cleanupOp p t) = unusedOps t.
Proof.
  unfold cleanupOp. case_decide; [|done].
  destruct (opPool t !! p) as [o|]; [|done].
  by destruct (inMessage o), (isServerOp o).
Qed.

Lemma cleanupOp_pool p t :
  dom (opPool t) = activeOps t → opPool (cleanupOp p t) = delete p (opPool t).
Proof.
  intros Hact. destruct (decide (p ∈ activeOps t)) as [Ha|Ha].
  - assert (is_Some (opPool t !! p)) as [o Hp].
    { apply elem_of_dom. by rewrite Hact. }
    by destruct (cleanupOp_live p o t Ha Hp) as [[= -> _ _ _ _] _].
  - rewrite cleanupOp_not_active by done. symmetry. apply delete_id.
    apply not_elem_of_dom. by rewrite Hact.
Qed.

Lemma cleanupOps_loop_exact n i t :
  Inv t → length (unusedOps t) ≤ n →
  unusedOps (cleanupOps_loop (λ _ t', t') i n t).2 = [] ∧
  ∀ p, opPool (cleanupOps_loop (λ _ t', t') i n t).2 !! p =
       if decide (p ∈ unusedOps t) then None else opPool t !! p.
Proof.
  revert i t. induction n as [|n IH]; intros i t HI Hn.
  - destruct (unusedOps t) eqn:Hu; [|simpl in Hn; lia]. simpl.
    by split.
  - simpl. destruct (unusedOps t) as [|q rest] eqn:Hu.
    + simpl. by split.
    + simpl in Hn.
      pose proof (Inv_cleanup_step q rest t HI Hu) as HI1.
      assert (opPool (cleanupOp q (set_unusedOps rest t))
              = delete q (opPool t)) as Hpool.
      { rewrite cleanupOp_pool; [done|]. simpl. apply (inv_active _ HI). }
      destruct (IH (S i) (cleanupOp q (set_unusedOps rest t)) HI1)
        as [Hempty Hlook].
      { rewrite cleanupOp_unusedOps. simpl. lia. }
      destruct (cleanupOps_loop _ (S i) n _) as [popped t2]. simpl in *.
      split; [done|]. intros p. rewrite Hlook, cleanupOp_unusedOps, Hpool.
      simpl. destruct (decide (p = q)) as [->|Hne].
      * rewrite lookup_delete_eq.
        rewrite (decide_True (P := q ∈ q :: rest)) by (by left).
        by case_decide.
      * rewrite lookup_delete_ne by done.
        destruct (decide (p ∈ rest)) as [Hin|Hin].
        -- by rewrite decide_True by (by right).
        -- rewrite decide_False; [done|].
           intros [?|?]%elem_of_cons; done.
Qed.

(** X8.  Running alone on a transport that satisfies [Inv] and whose
    [unusedOps] fits the [uint] counter, [cleanupOps] destroys the Ops that
    were queued on [unusedOps] and those only, and leaves the queue empty:
    every other Op stays in the pool, unchanged, and in [activeOps]. *)
Theorem cleanupOps_reclaims_exactly t :
  Inv t →
  (Z.of_nat (length (unusedOps t)) < 2 ^ 32)%Z →
  unusedOps (cleanupOps t) = [] ∧
  (∀ p, opPool (cleanupOps t) !! p =
        if decide (p ∈ unusedOps t) then None else opPool t !! p) ∧
  (∀ p, p ∈ activeOps (cleanupOps t) ↔ p ∈ activeOps t ∧ p ∉ unusedOps t).
Proof.
  intros HI Hlen. unfold cleanupOps, cleanupOps_with.
  rewrite to_uint_small by done.
  destruct (cleanupOps_loop_exact (length (unusedOps t)) 0 t HI)
    as [Hempty Hlook]; [done|].
  split; [done|]. split; [done|]. intros p.
  pose proof (Inv_cleanupOps t HI) as HI'.
  unfold cleanupOps, cleanupOps_with in HI'.
  rewrite to_uint_small in HI' by done.
  rewrite <- (inv_active _ HI'), <- (inv_active _ HI), !elem_of_dom, Hlook.
  case_decide as Hin.
  - split; [by intros [? ?]|by intros [_ ?]].
  - split; [by intros ?|by intros [? _]].
Qed.

(** ** The queue of unused Ops *)

Lemma UnusedInv_mild t t' :
  mild t t' → unusedOps t' = unusedOps t → UnusedInv t → UnusedInv t'.
Proof.
  intros [Hc|(p & o & o' & Hp & Ht)] Hu [Hnd Hmark].
  - unfold core in Hc. injection Hc as Hpool _ _ _ _.
    split; rewrite ?Hu, ?Hpool; done.
  - split; rewrite ?Hu; [done|]. intros q Hq.
    destruct (Hmark q Hq) as (oq & Hoq & Hd).
    rewrite (touches_pool _ _ _ _ _ Ht), lookup_insert. case_decide as Hpq.
    + subst q. exists o'. split; [done|].
      apply (touches_destroyed _ _ _ _ _ Ht). congruence.
    + by exists oq.
Qed.

Lemma UnusedInv_fresh p o t t' :
  opPool t !! p = None → opPool t' = <[p := o]> (opPool t) →
  unusedOps t' = unusedOps t → UnusedInv t → UnusedInv t'.
Proof.
  intros Hp Hpool Hu [Hnd Hmark]. split; rewrite ?Hu; [done|].
  intros q Hq. destruct (Hmark q Hq) as (oq & Hoq & Hd).
  exists oq. rewrite Hpool, lookup_insert_ne by congruence. done.
Qed.

(** [processUpdates] queues an Op at most once: it leaves [unusedOps]
    alone, or it marks an unmarked Op and queues it. *)
Lemma processUpdates_queues p t :
  unusedOps (processUpdates p t) = unusedOps t ∨
  ∃ o, opPool t !! p = Some o ∧ destroy o = false ∧
       processUpdates p t = drop p o t.
Proof.
  unfold processUpdates.
  destruct (opPool t !! p) as [o|] eqn:Hp; [|by left].
  destruct (destroy o) eqn:Hd; [by left|].
  destruct (isServerOp o).
  - destruct (state o).
    + destruct (inMessage o) as [m|]; [|by left].
      destruct (InboundMessage.isReady m); by left.
    + destruct (_ || _); [|by left].
      destruct (inMessage o) as [m|]; [|by left].
      left. autorewrite with transport. by case_bool_decide.
    + destruct (retained o); [by left|]. right. by exists o.
    + destruct (retained o); [by left|]. right. by exists o.
  - destruct (retained o); simpl; [|right; by exists o].
    destruct (state o); try by left.
    destruct (inMessage o) as [m|]; [|by left].
    destruct (InboundMessage.isReady m); [|by left].
    left. by autorewrite with transport.
Qed.

Lemma UnusedInv_processUpdates p t :
  UnusedInv t → UnusedInv (processUpdates p t).
Proof.
  intros HU. destruct (processUpdates_queues p t) as [Hu|(o & Hp & Hd & ->)].
  - eapply UnusedInv_mild; [apply quiet_mild, processUpdates_quiet|done..].
  - destruct HU as [Hnd Hmark]. split; simpl.
    + apply NoDup_app. split; [done|]. split; [|apply NoDup_singleton].
      intros q Hq ->%list_elem_of_singleton.
      destruct (Hmark p Hq) as (oq & Hoq & Hdq). congruence.
    + intros q [Hq| ->%list_elem_of_singleton]%elem_of_app.
      * destruct (Hmark q Hq) as (oq & Hoq & Hdq).
        rewrite lookup_insert. case_decide; eauto.
      * rewrite lookup_insert_eq. eauto.
Qed.

Lemma receiveOp_unusedOps t : unusedOps (receiveOp t).2 = unusedOps t.
Proof.
  unfold receiveOp. destruct (pendingServerOps t) as [|p rest]; [done|].
  simpl. destruct (opPool t !! p) as [o|]; [|done].
  by destruct (inMessage o).
Qed.

Lemma releaseOp_unusedOps p t : unusedOps (releaseOp p t) = unusedOps t.
Proof.
  unfold releaseOp. destruct (opPool t !! p) as [o|]; [|done].
  by autorewrite with transport.
Qed.

Lemma sendRequest_unusedOps p d t :
  unusedOps (sendRequest p d t) = unusedOps t.
Proof.
  unfold sendRequest. destruct (opPool t !! p) as [o|]; [|done].
  destruct (isServerOp o); [|done]. by destruct (inMessage o).
Qed.

Lemma sendReply_unusedOps p t : unusedOps (sendReply p t) = unusedOps t.
Proof.
  unfold sendReply. destruct (opPool t !! p) as [o|]; [|done].
  by destruct (inMessage o).
Qed.

Lemma Sender_progress_unusedOps p s id t :
  unusedOps (Sender_progress p s id t) = unusedOps t.
Proof.
  unfold Sender_progress. destruct (opPool t !! p) as [o|]; [|done].
  by autorewrite with transport.
Qed.

Lemma processInboundMessage_unusedOps m t :
  unusedOps (processInboundMessage m t) = unusedOps t.
Proof.
  unfold processInboundMessage. case_bool_decide.
  - destruct (remoteOps t !! _) as [p|]; [|done].
    destruct (opPool t !! p) as [o|]; [|done].
    by autorewrite with transport.
  - unfold opPool_construct. by autorewrite with transport.
Qed.

Lemma UnusedInv_processInboundMessage m t :
  UnusedInv t → UnusedInv (processInboundMessage m t).
Proof.
  intros HU. destruct (processInboundMessage_cases m t) as [Hq|(p & Hp & Hc)].
  - eapply UnusedInv_mild; [by apply quiet_mild| |done].
    apply processInboundMessage_unusedOps.
  - unfold core in Hc. injection Hc as Hpool _ _ _ Hu.
    by eapply UnusedInv_fresh.
Qed.

Lemma UnusedInv_core t t' : core t' = core t → UnusedInv t → UnusedInv t'.
Proof.
  intros Hc. apply UnusedInv_mild; [by left|].
  unfold core in Hc. by injection Hc.
Qed.

Lemma UnusedInv_cleanup_step q rest t :
  Inv t → UnusedInv t → unusedOps t = q :: rest →
  UnusedInv (cleanupOp q (set_unusedOps rest t)).
Proof.
  intros HI [Hnd Hmark] Hu. rewrite Hu in *.
  apply NoDup_cons in Hnd as [Hq Hnd].
  split; rewrite cleanupOp_unusedOps; simpl; [done|].
  intros r Hr. destruct (Hmark r) as (o & Ho & Hd); [by right|].
  exists o. split; [|done].
  rewrite cleanupOp_pool by apply (inv_active _ HI). simpl.
  rewrite lookup_delete_ne; [done|]. by intros ->.
Qed.

Lemma Queues_processInboundMessages t :
  Inv t ∧ UnusedInv t →
  Inv (processInboundMessages t) ∧ UnusedInv (processInboundMessages t).
Proof.
  apply (processInboundMessages_loop_keeps (λ t', Inv t' ∧ UnusedInv t')).
  intros t' t1 m [HI HU] Hr.
  pose proof (receiveMessage_core _ _ _ Hr) as Hc. split.
  - apply Inv_processInboundMessage. by eapply Inv_core.
  - apply UnusedInv_processInboundMessage. by eapply UnusedInv_core.
Qed.

Lemma Queues_checkForUpdates t :
  Inv t ∧ UnusedInv t →
  Inv (checkForUpdates t) ∧ UnusedInv (checkForUpdates t).
Proof.
  apply (checkForUpdates_loop_keeps (λ t', Inv t' ∧ UnusedInv t')); [done| |].
  - intros t' h t1 [HI HU] Hr%takeHint_core.
    split; [by eapply Inv_core|by eapply UnusedInv_core].
  - intros p t' [HI HU].
    split; [by apply Inv_processUpdates|by apply UnusedInv_processUpdates].
Qed.

Lemma Queues_cleanupOps t :
  Inv t ∧ UnusedInv t → Inv (cleanupOps t) ∧ UnusedInv (cleanupOps t).
Proof.
  apply (cleanupOps_loop_keeps (λ t', Inv t' ∧ UnusedInv t')); [done|].
  intros t' p rest [HI HU] Hu.
  split; [by apply Inv_cleanup_step|by apply UnusedInv_cleanup_step].
Qed.

Lemma UnusedInv_step c t :
  Inv t → UnusedInv t → UnusedInv (step c t).
Proof.
  intros HI HU. destruct c; cbn [step].
  - pose proof (allocOp_ptr_fresh t) as Hf. rewrite allocOp_unfold in *.
    simpl in Hf. by eapply UnusedInv_fresh.
  - eapply UnusedInv_mild; [apply quiet_mild, receiveOp_quiet| |done].
    apply receiveOp_unusedOps.
  - eapply UnusedInv_mild; [apply quiet_mild, releaseOp_quiet| |done].
    apply releaseOp_unusedOps.
  - eapply UnusedInv_mild; [apply sendRequest_mild| |done].
    apply sendRequest_unusedOps.
  - eapply UnusedInv_mild; [apply sendReply_mild| |done].
    apply sendReply_unusedOps.
  - unfold poll.
    apply Queues_cleanupOps, Queues_checkForUpdates,
      Queues_processInboundMessages.
    rewrite processPackets_emits.
    split; [by apply (Inv_core t)|by apply (UnusedInv_core t)].
  - by apply Queues_processInboundMessages.
  - by apply Queues_checkForUpdates.
  - by apply Queues_cleanupOps.
  - by apply UnusedInv_processUpdates.
  - by eapply UnusedInv_core; [apply Receiver_ready_core|].
  - eapply UnusedInv_mild; [apply quiet_mild, Sender_progress_quiet| |done].
    apply Sender_progress_unusedOps.
Qed.

Lemma UnusedInv_run d id cs :
  (Z.of_nat (length cs) < 2 ^ 64 - 1)%Z →
  UnusedInv (run cs (Transport_new d id)).
Proof.
  induction cs as [|c cs IH] using rev_ind; intros Hlen.
  - split; simpl; [apply NoDup_nil_2|]. by intros p ?%elem_of_nil.
  - rewrite length_app in Hlen. simpl in Hlen.
    rewrite run_snoc. apply UnusedInv_step; [|apply IH; lia].
    apply Inv_run. lia.
Qed.

(** X10.  In every state that a new transport reaches before its sequence
    counter can wrap around, [unusedOps] holds exactly the live Ops whose
    [destroy] flag is set, each of them once, and all of them are in
    [activeOps]: the assertion [op->destroy] of [cleanupOps] holds for every
    Op it finds active. *)
Theorem reachable_unused_marked d id cs :
  (Z.of_nat (length cs) < 2 ^ 64 - 1)%Z →
  NoDup (unusedOps (run cs (Transport_new d id))) ∧
  ∀ p, p ∈ unusedOps (run cs (Transport_new d id)) ↔
       p ∈ activeOps (run cs (Transport_new d id)) ∧
       ∃ o, opPool (run cs (Transport_new d id)) !! p = Some o ∧
            destroy o = true.
Proof.
  intros Hlen. destruct (Inv_run d id cs Hlen) as [HI _].
  destruct (UnusedInv_run d id cs Hlen) as [Hnd Hmark].
  split; [done|]. intros p. split.
  - intros Hp. destruct (Hmark p Hp) as (o & Ho & Hd).
    split; [|eauto]. rewrite <- (inv_active _ HI). by eapply elem_of_dom_2.
  - intros [_ (o & Ho & Hd)]. by eapply inv_drop.
Qed.

(** ** The tables in reachable states *)

(** X11.  In every state that a new transport reaches before its sequence
    counter can wrap around, the pool holds exactly the Ops of [activeOps],
    and [remoteOps] maps an opId to an address exactly when a live client
    Op with that opId is at that address; no server Op is registered. *)
Theorem reachable_tables_consistent d id cs :
  (Z.of_nat (length cs) < 2 ^ 64 - 1)%Z →
  dom (opPool (run cs (Transport_new d id)))
    = activeOps (run cs (Transport_new d id)) ∧
  ∀ k p, remoteOps (run cs (Transport_new d id)) !! k = Some p ↔
         ∃ o, opPool (run cs (Transport_new d id)) !! p = Some o ∧
              isServerOp o = false ∧ opId o = k.
Proof.
  intros Hlen. destruct (Inv_run d id cs Hlen) as [HI _].
  split; [apply HI|]. intros k p. split.
  - apply (inv_remote _ HI).
  - intros (o & Ho & Hc & <-). by apply (inv_client _ HI).
Qed.

(** ** A server Op is handed to the application once *)

(** X14.  [processUpdates] on a server Op that has not started: while its
    request is not ready nothing happens; once it is ready the Op goes to
    InProgress, the header of the request is stripped, and the Op is put at
    the back of [pendingServerOps].  A further [processUpdates] does not
    queue it again. *)
Theorem server_queued_once p o m t :
  opPool t !! p = Some o →
  isServerOp o = true → destroy o = false →
  state o = OpContext.NOT_STARTED → inMessage o = Some m →
  (InboundMessage.isReady m = false → processUpdates p t = t) ∧
  (InboundMessage.isReady m = true →
   pendingServerOps (processUpdates p t) = pendingServerOps t ++ [p] ∧
   opPool (processUpdates p t) =
     <[p := Op_setState OpContext.IN_PROGRESS
              (Op_setInMessage
                 (Some (InboundMessage.withMessage
                          (defineHeader (InboundMessage.get m)) m)) o)]>
       (opPool t) ∧
   trace (processUpdates p t) = trace t ∧
   pendingServerOps (processUpdates p (processUpdates p t))
     = pendingServerOps t ++ [p]).
Proof.
  intros Hp Hs Hd Hst Hm. split; intros Hr.
  - unfold processUpdates. by rewrite Hp, Hd, Hs, Hst, Hm, Hr.
  - assert (processUpdates p t =
      storeOp p (Op_setState OpContext.IN_PROGRESS
                   (Op_setInMessage
                      (Some (InboundMessage.withMessage
                               (defineHeader (InboundMessage.get m)) m)) o))
        (set_pendingServerOps (pendingServerOps t ++ [p]) t)) as Heq.
    { unfold processUpdates. rewrite Hp, Hd, Hs, Hst, Hm, Hr.
      unfold storeOp, set_opPool, set_pendingServerOps; simpl.
      by rewrite insert_insert_eq. }
    rewrite Heq. split; [done|]. split; [done|]. split; [done|].
    unfold processUpdates at 1. simpl. rewrite lookup_insert_eq. simpl.
    rewrite Hd, Hs.
    destruct (_ || _); [|done]. simpl.
    autorewrite with transport. by case_bool_decide.
Qed.

(** ** The destructor *)

Lemma senderDrops_app l k : senderDrops (l ++ k) = senderDrops l ++ senderDrops k.
Proof. apply omap_app. Qed.

Lemma receiverDrops_app l k :
  receiverDrops (l ++ k) = receiverDrops l ++ receiverDrops k.
Proof. apply omap_app. Qed.

Lemma destroyOp_all l t :
  NoDup l → (∀ p, p ∈ l → is_Some (opPool t !! p)) →
  ∃ l', trace (foldl destroyOp t l) = trace t ++ l' ∧
        senderDrops l' = l ∧
        (∀ m, m ∈ receiverDrops l' ↔
              ∃ p o, p ∈ l ∧ opPool t !! p = Some o ∧ inMessage o = Some m) ∧
        (∀ q, opPool (foldl destroyOp t l) !! q =
              if decide (q ∈ l) then None else opPool t !! q).
Proof.
  revert t. induction l as [|p l IH]; intros t Hnd Hlive.
  - exists []. simpl. rewrite app_nil_r. split_and!; try done.
    intros m. split; [by intros ?%elem_of_nil|].
    by intros (p & o & ?%elem_of_nil & _).
  - apply NoDup_cons in Hnd as [Hp Hnd].
    destruct (Hlive p) as [o Ho]; [by left|].
    assert (∃ e, trace (destroyOp t p) = trace t ++ SenderDropMessage p :: e ∧
                 senderDrops e = [] ∧
                 (∀ m, m ∈ receiverDrops e ↔ inMessage o = Some m) ∧
                 opPool (destroyOp t p) = delete p (opPool t))
      as (e & He & Hse & Hre & Hpool).
    { unfold destroyOp. rewrite Ho. destruct (inMessage o) as [m|].
      - exists [ReceiverDropMessage m]. simpl. rewrite <- app_assoc.
        split_and!; try done. intros m'.
        rewrite list_elem_of_singleton. split; [by intros ->|by intros [= ->]].
      - exists []. simpl. split_and!; try done. intros m'.
        split; [by intros ?%elem_of_nil|done]. }
    destruct (IH (destroyOp t p) Hnd) as (l' & Ht & Hs & Hr & Hq).
    { intros q Hq. rewrite Hpool, lookup_delete_ne; [apply Hlive; by right|].
      by intros ->. }
    exists (SenderDropMessage p :: e ++ l'). simpl. rewrite Ht, He.
    split_and!.
    + by rewrite <- app_assoc.
    + change (senderDrops (SenderDropMessage p :: e ++ l'))
        with (p :: senderDrops (e ++ l')).
      by rewrite senderDrops_app, Hse, Hs.
    + intros m.
      change (receiverDrops (SenderDropMessage p :: e ++ l'))
        with (receiverDrops (e ++ l')).
      rewrite receiverDrops_app, elem_of_app, Hre, Hr. split.
      * intros [Hm|(q & oq & Hq1 & Hq2 & Hq3)].
        -- exists p, o. split_and!; [by left|done..].
        -- exists q, oq. split_and!; [by right| |done].
           rewrite Hpool in Hq2. by apply lookup_delete_Some in Hq2 as [_ ?].
      * intros (q & oq & [->|Hq1]%elem_of_cons & Hq2 & Hq3).
        -- left. congruence.
        -- right. exists q, oq. split_and!; [done| |done].
           rewrite Hpool. apply lookup_delete_Some. split; [|done].
           by intros ->.
    + intros q. rewrite Hq, Hpool. destruct (decide (q = p)) as [->|Hne].
      * rewrite lookup_delete_eq.
        rewrite (decide_True (P := p ∈ p :: l)) by (by left).
        by case_decide.
      * rewrite lookup_delete_ne by done.
        destruct (decide (q ∈ l)) as [Hin|Hin].
        -- by rewrite decide_True by (by right).
        -- rewrite decide_False; [done|].
           intros [?|?]%elem_of_cons; done.
Qed.

(** X2.  The destructor of a transport whose pool holds exactly the Ops of
    [activeOps] tells the Sender to drop the outbound message of every
    active Op, once, tells the Receiver to drop exactly the inbound
    messages that the active Ops hold, and leaves no Op in the pool. *)
Theorem Transport_destructor_spec t :
  dom (opPool t) = activeOps t →
  ∃ l, trace (Transport_destructor t) = trace t ++ l ∧
       NoDup (senderDrops l) ∧
       (∀ p, p ∈ senderDrops l ↔ p ∈ activeOps t) ∧
       (∀ m, m ∈ receiverDrops l ↔
             ∃ p o, opPool t !! p = Some o ∧ inMessage o = Some m) ∧
       opPool (Transport_destructor t) = ∅.
Proof.
  intros Hdom. unfold Transport_destructor.
  destruct (destroyOp_all (elements (activeOps t)) t)
    as (l & Ht & Hs & Hr & Hq).
  { apply NoDup_elements. }
  { intros p Hp%elem_of_elements. apply elem_of_dom. by rewrite Hdom. }
  exists l. split_and!.
  - done.
  - rewrite Hs. apply NoDup_elements.
  - intros p. by rewrite Hs, elem_of_elements.
  - intros m. rewrite Hr. split.
    + intros (p & o & _ & ? & ?). eauto.
    + intros (p & o & Ho & Hm). exists p, o. split_and!; [|done..].
      apply elem_of_elements. rewrite <- Hdom. by eapply elem_of_dom_2.
  - apply map_eq. intros q. rewrite Hq, lookup_empty. case_decide as Hin; [done|].
    apply not_elem_of_dom. rewrite Hdom. by rewrite elem_of_elements in Hin.
Qed.

(** ** Round trips *)

(** X5.  A client operation from start to end, on a transport that
    satisfies [Inv]: [allocOp] hands out an Op at address [p];
    [sendRequest] sends its outbound message under the Op's own opId with
    the tag of an initial request, and the Op is InProgress; a ready
    response that carries this opId is attached to the same Op by
    [processInboundMessages]; [processUpdates] then completes the Op,
    strips the header of the response and posts a hint, without any
    further call into the Sender or the Receiver. *)
Theorem client_round_trip t d m :
  Inv t →
  InboundMessage.getId m =
    Protocol.mkMessageId
      (Protocol.mkOpId (transportId t) (nextOpSequenceNumber t))
      ULTIMATE_RESPONSE_TAG →
  InboundMessage.isReady m = true →
  let p := (allocOp t).1 in
  let t1 := sendRequest p d (allocOp t).2 in
  let t2 := processUpdates p (processInboundMessage m t1) in
  trace t1 =
    trace t ++
    [SenderSendMessage
       (Protocol.mkMessageId
          (Protocol.mkOpId (transportId t) (nextOpSequenceNumber t))
          INITIAL_REQUEST_TAG) d p] ∧
  stateOf p t1 = Some OpContext.IN_PROGRESS ∧
  opPool t2 !! p =
    Some (Op_setState OpContext.COMPLETED
            (Op_setInMessage
               (Some (InboundMessage.withMessage
                        (defineHeader (InboundMessage.get m))
                        (InboundMessage.registerOp p m)))
               (allocOp_op t))) ∧
  p ∈ updateHints_ops t2 ∧
  trace t2 = trace t1.
Proof.
  intros HI Hid Hr p t1 t2. pose proof (Inv_key_fresh t HI) as Hk.
  subst p t1 t2. rewrite allocOp_unfold. cbn [fst snd].
  set (p := fresh (dom (opPool t))).
  unfold sendRequest. cbn [opPool]. rewrite lookup_insert_eq.
  cbn [allocOp_op Op_new Op_setRetained Op_setOutMessage isServerOp opId].
  unfold processInboundMessage. rewrite Hid. cbn [Protocol.tag Protocol.opId].
  rewrite bool_decide_eq_true_2 by done.
  cbn [emit storeOp set_opPool remoteOps opPool].
  unfold remoteOps_insert. rewrite Hk, !lookup_insert_eq.
  unfold processUpdates. autorewrite with transport.
  cbn [emit storeOp set_opPool opPool]. rewrite !lookup_insert_eq.
  cbn. rewrite Hr. autorewrite with transport. cbn.
  unfold stateOf. autorewrite with transport. cbn.
  rewrite ?lookup_insert_eq.
  split_and!; try done. apply hintUpdatedOp_posted.
Qed.

(** X4.  A server operation from the request to the reply: for a ready
    request (a message whose tag is not that of a response)
    [processInboundMessages] creates a server Op, [processUpdates] queues
    it, and [receiveOp] hands it to the application, retained and with the
    reply address of the request copied into the header of its outbound
    message.  [sendReply] then sends under the opId of the request with the
    tag of a response, to the reply address of the request, and
    [sendRequest] delegates under the same opId with the next tag, to the
    destination given. *)
Theorem server_round_trip t m :
  Protocol.tag (InboundMessage.getId m) ≠ ULTIMATE_RESPONSE_TAG →
  InboundMessage.isReady m = true →
  pendingServerOps t = [] →
  let p := fresh (dom (opPool t)) in
  let t1 := processUpdates p (processInboundMessage m t) in
  let t2 := (receiveOp t1).2 in
  (receiveOp t1).1 = Some p ∧
  pendingServerOps t2 = [] ∧
  (∃ o, opPool t2 !! p = Some o ∧ isServerOp o = true ∧
        retained o = true ∧ state o = OpContext.IN_PROGRESS ∧
        opId o = Protocol.opId (InboundMessage.getId m) ∧
        headerDefined (OutboundMessage.get (outMessage o)) = true ∧
        replyAddress (OutboundMessage.get (outMessage o))
          = replyAddress (InboundMessage.get m)) ∧
  trace t2 = trace t ∧
  trace (sendReply p t2) =
    trace t ++
    [SenderSendMessage
       (Protocol.mkMessageId (Protocol.opId (InboundMessage.getId m))
          ULTIMATE_RESPONSE_TAG)
       (replyAddress (InboundMessage.get m)) p] ∧
  ∀ d, trace (sendRequest p d t2) =
       trace t ++
       [SenderSendMessage
          (Protocol.mkMessageId (Protocol.opId (InboundMessage.getId m))
             ((Protocol.tag (InboundMessage.getId m) + 1) mod TAG_MODULUS)%Z)
          d p].
Proof.
  intros Htag Hr Hq p t1 t2. subst t1 t2.
  unfold processInboundMessage. rewrite bool_decide_eq_false_2 by done.
  cbn [opPool_construct]. fold p.
  unfold processUpdates. autorewrite with transport.
  cbn [storeOp set_opPool set_activeOps opPool]. rewrite !lookup_insert_eq.
  cbn. rewrite Hr. autorewrite with transport. cbn. rewrite Hq.
  unfold receiveOp. cbn. rewrite ?lookup_insert_eq. cbn.
  unfold sendReply, sendRequest. cbn. rewrite ?lookup_insert_eq. cbn.
  autorewrite with transport. cbn.
  split_and!; try done. eexists. split; [done|]. done.
Qed.

(** ** A response that comes too late *)

(** X6.  Once [cleanupOps] has reclaimed a client Op, a response that
    carries its opId finds no entry in [remoteOps]:
    [processInboundMessages] hands it back to the Receiver with
    [dropMessage], and neither creates nor changes an Op. *)
Theorem late_response_dropped t p o m :
  Inv t →
  (Z.of_nat (length (unusedOps t)) < 2 ^ 32)%Z →
  opPool t !! p = Some o → isServerOp o = false → p ∈ unusedOps t →
  InboundMessage.getId m = Protocol.mkMessageId (opId o) ULTIMATE_RESPONSE_TAG →
  processInboundMessage m (cleanupOps t)
    = emit (ReceiverDropMessage m) (cleanupOps t).
Proof.
  intros HI Hlen Hp Hs Hq Hid.
  assert (p ∈ activeOps t) as Ha.
  { rewrite <- (inv_active _ HI). by eapply elem_of_dom_2. }
  destruct (cleanupOps_loop_reclaims (length (unusedOps t)) 0 t p o)
    as (_ & _ & Hrem & _); [done..|].
  unfold processInboundMessage. rewrite Hid. cbn [Protocol.tag Protocol.opId].
  rewrite bool_decide_eq_true_2 by done.
  unfold cleanupOps, cleanupOps_with. rewrite to_uint_small by done.
  by rewrite (Hrem Hs).
Qed.

(** ** One server Op for each request *)

Lemma processInboundMessage_size m t :
  size (opPool (processInboundMessage m t)) =
    size (opPool t) + (if isRequest m then 1 else 0).
Proof.
  unfold processInboundMessage, isRequest. case_bool_decide as Htag.
  - rewrite bool_decide_eq_false_2 by (by intros ?).
    destruct (remoteOps t !! _) as [p|]; [|simpl; lia].
    destruct (opPool t !! p) as [o|] eqn:Hp; [|lia].
    autorewrite with transport. simpl.
    rewrite map_size_insert_Some by (by rewrite Hp). lia.
  - rewrite bool_decide_eq_true_2 by done.
    unfold opPool_construct. autorewrite with transport. simpl.
    rewrite insert_insert_eq, map_size_insert_None; [lia|].
    apply not_elem_of_dom, is_fresh.
Qed.

Lemma processInboundMessage_fold_size msgs t :
  size (opPool (foldl (λ t' m, processInboundMessage m t') t msgs)) =
    size (opPool t) + length (filter (λ m, isRequest m) msgs).
Proof.
  revert t. induction msgs as [|m msgs IH]; intros t; simpl; [lia|].
  rewrite IH, processInboundMessage_size, filter_cons.
  destruct (isRequest m); simpl; lia.
Qed.

(** X13.  A pass of [processInboundMessages] empties the queue of the
    Receiver and creates exactly one Op for each request in it; responses
    create none. *)
Theorem processInboundMessages_one_Op_per_request t :
  receivedMessages (receiver (processInboundMessages t)) = [] ∧
  size (opPool (processInboundMessages t)) =
    size (opPool t) +
    length (filter (λ m, isRequest m) (receivedMessages (receiver t))).
Proof.
  split; [apply processInboundMessages_drains|].
  by rewrite processInboundMessages_foldl, processInboundMessage_fold_size.
Qed.

(** ** From [releaseOp] to the reclaimed Op *)

Lemma extends_refl t : extends t t.
Proof. exists []. by rewrite app_nil_r. Qed.

Lemma extends_trans t1 t2 t3 : extends t1 t2 → extends t2 t3 → extends t1 t3.
Proof.
  intros [l Hl] [l' Hl']. exists (l ++ l'). by rewrite Hl', Hl, app_assoc.
Qed.

Lemma extends_same t t' : trace t' = trace t → extends t t'.
Proof. intros H. exists []. by rewrite app_nil_r. Qed.

Lemma processUpdates_extends p t : extends t (processUpdates p t).
Proof.
  unfold processUpdates.
  destruct (opPool t !! p) as [o|]; [|apply extends_refl].
  destruct (destroy o); [apply extends_refl|].
  destruct (isServerOp o).
  - destruct (state o).
    + destruct (inMessage o) as [m|]; [|apply extends_refl].
      destruct (InboundMessage.isReady m); by apply extends_same.
    + destruct (_ || _); [|apply extends_refl].
      destruct (inMessage o) as [m|]; [|apply extends_refl].
      case_bool_decide; [|apply extends_same; by autorewrite with transport].
      eexists. autorewrite with transport. reflexivity.
    + destruct (retained o); by apply extends_same.
    + destruct (retained o); by apply extends_same.
  - destruct (retained o); simpl; [|by apply extends_same].
    destruct (state o); try apply extends_refl.
    destruct (inMessage o) as [m|]; [|apply extends_refl].
    destruct (InboundMessage.isReady m); [|apply extends_refl].
    apply extends_same. by autorewrite with transport.
Qed.

Lemma processInboundMessage_extends m t :
  extends t (processInboundMessage m t).
Proof.
  unfold processInboundMessage. case_bool_decide.
  - destruct (remoteOps t !! _) as [p|]; [|by eexists].
    destruct (opPool t !! p) as [o|]; [|apply extends_refl].
    apply extends_same. by autorewrite with transport.
  - unfold opPool_construct. apply extends_same.
    by autorewrite with transport.
Qed.

(** A message changes the inbound message of an Op at most. *)
Lemma processInboundMessage_keeps p o m t :
  opPool t !! p = Some o →
  ∃ o', opPool (processInboundMessage m t) !! p = Some o' ∧
        isServerOp o' = isServerOp o ∧ opId o' = opId o ∧
        retained o' = retained o ∧ destroy o' = destroy o ∧
        state o' = state o.
Proof.
  intros Hp. unfold processInboundMessage. case_bool_decide.
  - destruct (remoteOps t !! _) as [q|]; [|by exists o].
    destruct (opPool t !! q) as [oq|] eqn:Hq; [|by exists o].
    autorewrite with transport. simpl. rewrite lookup_insert.
    case_decide as Hpq; [|by exists o]. subst q.
    assert (oq = o) as -> by congruence. by eexists.
  - unfold opPool_construct. autorewrite with transport. simpl.
    rewrite insert_insert_eq, lookup_insert_ne; [by exists o|].
    intros He. pose proof (is_fresh (dom (opPool t))) as Hf.
    rewrite He in Hf. apply Hf. by eapply elem_of_dom_2.
Qed.

Lemma hinted_order_in t t' q :
  hinted t t' → q ∈ updateHints_order t → q ∈ updateHints_order t'.
Proof.
  intros [[_ ->]|(p & _ & _ & ->)] Hq; [done|].
  apply elem_of_app. by left.
Qed.

Lemma hinted_length t t' :
  hinted t t' →
  length (updateHints_order t') ≤ length (updateHints_order t) + 1.
Proof.
  intros [[_ ->]|(p & _ & _ & ->)]; [lia|].
  rewrite length_app. simpl. lia.
Qed.

Lemma processUpdates_released p o t :
  opPool t !! p = Some o → droppable o → retained o = false →
  destroy o = false →
  processUpdates p t = drop p o t.
Proof.
  intros Hp Hdr Hr Hd. unfold processUpdates. rewrite Hp, Hd, Hr.
  unfold droppable in Hdr. destruct (isServerOp o); [|done].
  by destruct Hdr as [?|[-> | ->]].
Qed.

Lemma processInboundMessages_owed p s k t :
  Inv t → HintsInv t → owed p s k (updateHints_order t) t →
  Inv (processInboundMessages t) ∧ HintsInv (processInboundMessages t) ∧
  owed p s k (updateHints_order (processInboundMessages t))
    (processInboundMessages t) ∧
  unusedOps (processInboundMessages t) = unusedOps t ∧
  length (updateHints_order (processInboundMessages t))
    ≤ length (updateHints_order t) + length (receivedMessages (receiver t)) ∧
  extends t (processInboundMessages t).
Proof.
  intros HI HH Ho.
  pose (P := λ t' : Transport,
    Inv t' ∧ HintsInv t' ∧ owed p s k (updateHints_order t') t' ∧
    unusedOps t' = unusedOps t ∧
    length (updateHints_order t') + length (receivedMessages (receiver t'))
      ≤ length (updateHints_order t) + length (receivedMessages (receiver t)) ∧
    extends t t').
  assert (P (processInboundMessages t)) as (? & ? & ? & ? & ? & ?).
  { apply (processInboundMessages_loop_keeps P).
    - intros t' t1 m (HI' & HH' & Ho' & Hu' & Hlen' & He') Hr.
      unfold receiveMessage in Hr.
      destruct (receivedMessages (receiver t')) as [|m' rest] eqn:Hq; [done|].
      injection Hr as -> <-.
      set (t1 := set_receiver _ t').
      pose proof (processInboundMessage_hinted m t1) as Hh.
      split_and!.
      + apply Inv_processInboundMessage. by apply (Inv_core t').
      + apply (HintsInv_hinted t1); [done|]. by apply (HintsInv_same t').
      + destruct Ho' as (o & Hp & Hs & Hk & Hd).
        destruct (processInboundMessage_keeps p o m t1 Hp)
          as (o' & Hp' & Hs' & Hk' & Hr' & Hd' & Hst').
        exists o'. split_and!; [done|congruence|congruence|].
        destruct Hd as [Hd|(Hret & Hdr & Hin)]; [left; congruence|right].
        split_and!; [congruence| |by apply (hinted_order_in t1)].
        unfold droppable in *. by rewrite Hs', Hst'.
      + by rewrite processInboundMessage_unusedOps.
      + rewrite processInboundMessage_receiver.
        pose proof (hinted_length _ _ Hh) as Hl. simpl in *. lia.
      + eapply extends_trans; [exact He'|].
        apply (extends_trans _ t1); [by apply extends_same|].
        apply processInboundMessage_extends.
    - unfold P. split_and!; try done. apply extends_refl. }
  split_and!; try done. lia.
Qed.

Lemma checkForUpdates_loop_owed n i t p s k :
  Inv t → owed p s k (take n (updateHints_order t)) t →
  Inv (checkForUpdates_loop (λ _ t', t') i n t).2 ∧
  (∃ o, opPool (checkForUpdates_loop (λ _ t', t') i n t).2 !! p = Some o ∧
        isServerOp o = s ∧ opId o = k ∧ destroy o = true) ∧
  length (unusedOps (checkForUpdates_loop (λ _ t', t') i n t).2)
    ≤ length (unusedOps t) + n ∧
  extends t (checkForUpdates_loop (λ _ t', t') i n t).2.
Proof.
  revert i t. induction n as [|n IH]; intros i t HI (o & Hp & Hs & Hk & Hd).
  - simpl. split_and!; [done| |lia|apply extends_refl].
    destruct Hd as [Hd|(_ & _ & Hin)]; [by eauto|].
    by apply elem_of_nil in Hin.
  - simpl. unfold takeHint.
    destruct (updateHints_order t) as [|h rest] eqn:Ho.
    { simpl. split_and!; [done| |lia|apply extends_refl].
      destruct Hd as [Hd|(_ & _ & Hin)]; [by eauto|].
    by apply elem_of_nil in Hin. }
    set (t1 := set_updateHints (updateHints_ops t ∖ {[h]}) rest t).
    set (t2 := if decide (h ∈ activeOps t1) then processUpdates h t1 else t1).
    assert (Inv t1) as HI1 by (by apply (Inv_core t)).
    assert (Inv t2) as HI2.
    { unfold t2. case_decide; [by apply Inv_processUpdates|done]. }
    assert (owed p s k (take n (updateHints_order t2)) t2) as Ho2.
    { destruct (decide (h = p)) as [->|Hne].
      - assert (p ∈ activeOps t1) as Ha.
        { simpl. rewrite <- (inv_active _ HI). by eapply elem_of_dom_2. }
        unfold t2. rewrite decide_True by done.
        destruct (processUpdates_touches p o t1 Hp) as (o' & Ht & _).
        exists o'. rewrite (touches_pool _ _ _ _ _ Ht), lookup_insert_eq.
        split_and!; [done| | |left].
        + by rewrite (touches_server _ _ _ _ _ Ht).
        + by rewrite (touches_opId _ _ _ _ _ Ht).
        + destruct (destroy o) eqn:Hdo;
            [by apply (touches_destroyed _ _ _ _ _ Ht)|].
          destruct Hd as [?|(Hret & Hdr & _)]; [done|].
          pose proof (processUpdates_released p o t1 Hp Hdr Hret Hdo)
            as Heq.
          pose proof (touches_pool _ _ _ _ _ Ht) as Hpool.
          rewrite Heq in Hpool. simpl in Hpool.
          assert (Some (Op_setDestroy true o) = Some o') as [= <-]; [|done].
          rewrite <- (lookup_insert_eq (opPool t) p (Op_setDestroy true o)).
          rewrite Hpool. by rewrite lookup_insert_eq.
      - assert (opPool t2 !! p = Some o ∧
                ∃ l, updateHints_order t2 = rest ++ l) as [Hp2 [l Hl]].
        { unfold t2. case_decide.
          - split; [|apply (processUpdates_order h t1)].
            destruct (opPool t1 !! h) as [oh|] eqn:Hh.
            + destruct (processUpdates_touches h oh t1 Hh) as (o' & Ht & _).
              rewrite (touches_pool _ _ _ _ _ Ht).
              by rewrite lookup_insert_ne.
            + unfold processUpdates. by rewrite Hh.
          - split; [done|]. exists []. by rewrite app_nil_r. }
        exists o. split_and!; try done.
        destruct Hd as [Hd|(Hret & Hdr & Hin)]; [by left|right].
        split_and!; [done..|].
        simpl in Hin. apply elem_of_cons in Hin as [?|Hin]; [congruence|].
        rewrite Hl. destruct (decide (n ≤ length rest)).
        + by rewrite take_app_le.
        + rewrite take_app_ge by lia. apply elem_of_app. left.
          by rewrite take_ge in Hin by lia. }
    destruct (IH (S i) t2 HI2 Ho2) as (HI3 & Hdone & Hlen & He).
    destruct (checkForUpdates_loop _ (S i) n t2) as [taken t3]. simpl in *.
    split_and!; [done|done| |].
    + assert (length (unusedOps t2) ≤ length (unusedOps t) + 1); [|lia].
      unfold t2. case_decide; [|simpl; lia].
      destruct (processUpdates_queues h t1) as [->|(oh & _ & _ & ->)];
        [simpl; lia|]. simpl. rewrite length_app. simpl. lia.
    + eapply extends_trans; [|exact He].
      apply (extends_trans _ t1); [by apply extends_same|].
      unfold t2. case_decide; [apply processUpdates_extends|apply extends_refl].
Qed.

(** X12.  The life of an Op ends one [poll] after its release: on a
    transport that satisfies [Inv], whose update hints agree and whose
    queues fit the [uint] counters of the passes, [releaseOp] on a live
    client Op, or on a live server Op that is Completed or Failed, followed
    by one [poll], takes the Op out of [activeOps] and of the pool, removes
    the opId of a client Op from [remoteOps], and tells the Sender to drop
    the Op's outbound message. *)
Theorem release_then_poll_reclaims t p o rx :
  Inv t → HintsInv t →
  opPool t !! p = Some o →
  (isServerOp o = false ∨ state o = OpContext.COMPLETED ∨
   state o = OpContext.FAILED) →
  (Z.of_nat (length (unusedOps t) + length (updateHints_order t)
             + length (receivedMessages (receiver t))) < 2 ^ 32 - 1)%Z →
  (p ∉ activeOps (poll rx (releaseOp p t))) ∧
  opPool (poll rx (releaseOp p t)) !! p = None ∧
  (isServerOp o = false →
   remoteOps (poll rx (releaseOp p t)) !! opId o = None) ∧
  ∃ l, trace (poll rx (releaseOp p t)) = trace t ++ l ∧
       SenderDropMessage p ∈ l.
Proof.
  intros HI HH Hp Hs Hlen.
  set (t0 := releaseOp p t).
  assert (Inv t0) as HI0.
  { by eapply mild_Inv; [apply quiet_mild, releaseOp_quiet|]. }
  assert (HintsInv t0) as HH0.
  { by eapply HintsInv_hinted; [apply releaseOp_hinted|]. }
  assert (owed p (isServerOp o) (opId o) (updateHints_order t0) t0) as Ho0.
  { assert (p ∈ updateHints_order t0) as Hin0.
    { apply (hints_same _ HH0). unfold t0, releaseOp. rewrite Hp.
      apply hintUpdatedOp_posted. }
    assert (opPool t0 !! p = Some (Op_setRetained false o)) as Hp0.
    { unfold t0, releaseOp. rewrite Hp. autorewrite with transport. simpl.
      by rewrite lookup_insert_eq. }
    exists (Op_setRetained false o). split_and!; try done. by right. }
  assert (length (updateHints_order t0) ≤ length (updateHints_order t) + 1)
    as Hl0 by apply hinted_length, releaseOp_hinted.
  assert (unusedOps t0 = unusedOps t ∧ receiver t0 = receiver t ∧
          trace t0 = trace t) as (Hu0 & Hr0 & Ht0).
  { unfold t0, releaseOp. rewrite Hp. by autorewrite with transport. }
  unfold poll.
  set (ta := emit ReceiverPoll (emit SenderPoll (processPackets rx t0))).
  assert (Inv ta ∧ HintsInv ta ∧
          owed p (isServerOp o) (opId o) (updateHints_order ta) ta ∧
          unusedOps ta = unusedOps t0 ∧ receiver ta = receiver t0 ∧
          updateHints_order ta = updateHints_order t0 ∧ extends t0 ta)
    as (HIa & HHa & Hoa & Hua & Hra & Hqa & Hea).
  { unfold ta. rewrite processPackets_emits.
    split_and!; [by apply (Inv_core t0)|by apply (HintsInv_same t0)|done..|].
    unfold extends. simpl. rewrite <- !app_assoc. by eexists. }
  destruct (processInboundMessages_owed p (isServerOp o) (opId o) ta
              HIa HHa Hoa) as (HIb & HHb & Hob & Hub & Hlb & Heb).
  set (tb := processInboundMessages ta) in *.
  assert (Z.of_nat (length (updateHints_order tb)) < 2 ^ 32)%Z as Hsmall.
  { rewrite Hqa, Hra, Hr0 in Hlb. lia. }
  pose proof (HintsInv_size tb HHb) as Hsize.
  destruct (checkForUpdates_loop_owed (length (updateHints_order tb)) 0 tb p
              (isServerOp o) (opId o) HIb)
    as (HIc & (oc & Hpc & Hsc & Hkc & Hdc) & Hlc & Hec).
  { by rewrite firstn_all. }
  assert (checkForUpdates tb =
          (checkForUpdates_loop (λ _ t', t') 0
             (length (updateHints_order tb)) tb).2) as Hcheck.
  { unfold checkForUpdates, checkForUpdates_with.
    by rewrite Hsize, to_uint_small. }
  rewrite <- Hcheck in *. set (tc := checkForUpdates tb) in *.
  assert (Z.of_nat (length (unusedOps tc)) < 2 ^ 32)%Z as Hsmallc.
  { rewrite Hub, Hua, Hu0 in Hlc. rewrite Hqa, Hra, Hr0 in Hlb. lia. }
  destruct (cleanupOps_loop_reclaims (length (unusedOps tc)) 0 tc p oc)
    as (Hact & Hpool & Hrem & l & Hl & Hin).
  { done. }
  { by apply (inv_drop _ HIc p oc). }
  { rewrite <- (inv_active _ HIc). by eapply elem_of_dom_2. }
  { done. }
  assert (cleanupOps tc =
          (cleanupOps_loop (λ _ t', t') 0 (length (unusedOps tc)) tc).2)
    as Hclean.
  { unfold cleanupOps, cleanupOps_with. by rewrite to_uint_small. }
  rewrite <- Hclean in *.
  split_and!; [done|done| |].
  { intros Hclient. rewrite <- Hkc. apply Hrem. congruence. }
  destruct Hea as [la Hla]. destruct Heb as [lb Hlb']. destruct Hec as [lc Hlc'].
  exists (la ++ lb ++ lc ++ l). split.
  - rewrite Hl, Hlc', Hlb', Hla, Ht0. by rewrite <- !app_assoc.
  - rewrite !elem_of_app. auto.
Qed.

(** ** No hint is lost *)

(** X15.  When the two halves of [updateHints] agree and the queue fits
    the [uint] counter, a pass of [checkForUpdates] that runs alone takes
    every hint that was queued when it started, each once and in queue
    order, and the two halves agree again afterwards. *)
Theorem checkForUpdates_takes_queued t :
  HintsInv t →
  (Z.of_nat (length (updateHints_order t)) < 2 ^ 32)%Z →
  (checkForUpdates_with (λ _ t', t') t).1 = updateHints_order t ∧
  NoDup (checkForUpdates_with (λ _ t', t') t).1 ∧
  HintsInv (checkForUpdates t).
Proof.
  intros HH Hlen. pose proof (HintsInv_size t HH) as Hsize.
  destruct (checkForUpdates_loop_alone (length (updateHints_order t)) 0 t)
    as [Htaken _]; [done|].
  unfold checkForUpdates_with. rewrite Hsize, to_uint_small by done.
  rewrite Htaken, firstn_all.
  split_and!; [done|apply HH|by apply HintsInv_checkForUpdates].
Qed.

(** ** Who registers Ops *)

Lemma mild_remoteOps t t' : mild t t' → remoteOps t' = remoteOps t.
Proof.
  intros [[= _ _ Hr _ _]|(p & o & o' & _ & Ht)]; [done|by destruct Ht].
Qed.

Lemma processInboundMessage_remoteOps m t :
  remoteOps (processInboundMessage m t) = remoteOps t.
Proof.
  destruct (processInboundMessage_cases m t) as [Hq|(p & _ & Hc)].
  - by apply mild_remoteOps, quiet_mild.
  - unfold core in Hc. by injection Hc.
Qed.

Lemma processInboundMessages_remoteOps t :
  remoteOps (processInboundMessages t) = remoteOps t.
Proof.
  apply (processInboundMessages_loop_keeps
           (λ t', remoteOps t' = remoteOps t)); [|done].
  intros t' t1 m Hs Hr. rewrite processInboundMessage_remoteOps, <- Hs.
  apply receiveMessage_core in Hr. unfold core in Hr. by injection Hr.
Qed.

Lemma checkForUpdates_remoteOps t :
  remoteOps (checkForUpdates t) = remoteOps t.
Proof.
  apply (checkForUpdates_loop_keeps (λ t', remoteOps t' = remoteOps t));
    [done| |  |done].
  - intros t' h t1 Hs Hr%takeHint_core. unfold core in Hr.
    injection Hr as _ _ Hr _ _. congruence.
  - intros p t' Hs.
    by rewrite (mild_remoteOps _ _ (quiet_mild _ _ (processUpdates_quiet p t'))).
Qed.

Lemma cleanupOps_remoteOps t : remoteOps (cleanupOps t) ⊆ remoteOps t.
Proof.
  pose proof (cleanupOps_loop_wanes 0 (to_uint (length (unusedOps t))) t)
    as (_ & _ & Hr & _). done.
Qed.

(** X3.  [allocOp] is the only call that registers an Op in [remoteOps]
    or draws a sequence number: every other call, [poll] included, leaves
    the counter where it was and adds no entry to [remoteOps]; only
    [cleanupOps] (alone or in [poll]) removes entries. *)
Theorem only_allocOp_registers c t :
  c ≠ CallAllocOp →
  nextOpSequenceNumber (step c t) = nextOpSequenceNumber t ∧
  remoteOps (step c t) ⊆ remoteOps t ∧
  (c ≠ CallCleanupOps → (∀ rx, c ≠ CallPoll rx) →
   remoteOps (step c t) = remoteOps t).
Proof.
  intros Hc. split; [rewrite step_next; by destruct c|].
  assert (∀ t1 t2 : Transport, remoteOps t1 = remoteOps t2 →
                               remoteOps t1 ⊆ remoteOps t2) as Heq.
  { by intros t1 t2 ->. }
  destruct c; cbn [step].
  - done.
  - pose proof (mild_remoteOps _ _ (quiet_mild _ _ (receiveOp_quiet t))).
    split; [by apply Heq|done].
  - pose proof (mild_remoteOps _ _ (quiet_mild _ _ (releaseOp_quiet p t))).
    split; [by apply Heq|done].
  - pose proof (mild_remoteOps _ _ (sendRequest_mild p destination t)).
    split; [by apply Heq|done].
  - pose proof (mild_remoteOps _ _ (sendReply_mild p t)).
    split; [by apply Heq|done].
  - split; [|intros _ Hp; by destruct (Hp rx)].
    unfold poll. etrans; [apply cleanupOps_remoteOps|].
    rewrite checkForUpdates_remoteOps, processInboundMessages_remoteOps.
    rewrite processPackets_emits. reflexivity.
  - pose proof (processInboundMessages_remoteOps t).
    split; [by apply Heq|done].
  - pose proof (checkForUpdates_remoteOps t). split; [by apply Heq|done].
  - split; [apply cleanupOps_remoteOps|]. by intros Hne.
  - pose proof (mild_remoteOps _ _ (quiet_mild _ _ (processUpdates_quiet p t))).
    split; [by apply Heq|done].
  - split; [reflexivity|done].
  - pose proof (mild_remoteOps _ _
                  (quiet_mild _ _ (Sender_progress_quiet p s id t))).
    split; [by apply Heq|done].
Qed.

End Core.

(** ** The properties on the sample data *)

#[local] Existing Instance sample_externals.

Abbreviation sample_new := (Transport_new sample_driver 7).

(** C1, a run against the claim as stated.  A client Op is completed by
    the response to its request; a second [sendRequest] on it takes it
    back to InProgress.  Likewise a server Op whose reply has been sent is
    completed, and a second [sendReply] takes it back to InProgress. *)
Lemma state_goes_down_on_send :
  stateOf 1 (run [CallAllocOp; CallSendRequest 1 55;
                         ReceiverReady sample_response; CallPoll []]
               sample_new)
  = Some OpContext.COMPLETED ∧
  stateOf 1 (run [CallAllocOp; CallSendRequest 1 55;
                         ReceiverReady sample_response; CallPoll [];
                         CallSendRequest 1 55]
               sample_new)
  = Some OpContext.IN_PROGRESS ∧
  stateOf 1 (run [ReceiverReady sample_request; CallPoll [];
                         CallReceiveOp; CallSendReply 1;
                         SenderProgress 1 OutboundMessage.SENT
                           (Protocol.mkMessageId sample_opId 0);
                         CallPoll []]
               sample_new)
  = Some OpContext.COMPLETED ∧
  stateOf 1 (run [ReceiverReady sample_request; CallPoll [];
                         CallReceiveOp; CallSendReply 1;
                         SenderProgress 1 OutboundMessage.SENT
                           (Protocol.mkMessageId sample_opId 0);
                         CallPoll []; CallSendReply 1]
               sample_new)
  = Some OpContext.IN_PROGRESS ∧
  state_le OpContext.COMPLETED OpContext.IN_PROGRESS = false.
Proof. by vm_compute. Qed.

(** C1 (as amended) on a sample: a client Op is allocated, its request
    sent, the response received and served. *)
Lemma state_monotone_except_send_witness :
  opPool sample_new !! 1%positive = None ∧
  opPool (run [CallAllocOp] sample_new) !! 1%positive
  = Some (allocOp_op sample_new) ∧
  lives 1 [CallSendRequest 1 55; ReceiverReady sample_response; CallPoll []]
    (run [CallAllocOp] sample_new) ∧
  stateOf 1 (run [CallSendRequest 1 55; ReceiverReady sample_response;
                  CallPoll []] (run [CallAllocOp] sample_new))
  = Some OpContext.COMPLETED ∧
  state_le (state (allocOp_op sample_new)) OpContext.COMPLETED = true.
Proof.
  assert (lives 1 [CallSendRequest 1 55; ReceiverReady sample_response;
                   CallPoll []] (run [CallAllocOp] sample_new)) as Hl.
  { repeat split; vm_compute; eauto. }
  destruct (opPool (run [CallSendRequest 1 55; ReceiverReady sample_response;
                         CallPoll []] (run [CallAllocOp] sample_new))
              !! 1%positive) as [o'|] eqn:Hp'; [|by vm_compute in Hp'].
  assert (state o' = OpContext.COMPLETED) as Hst.
  { vm_compute in Hp'. by injection Hp' as <-. }
  split; [by vm_compute|]. split; [by vm_compute|]. split; [exact Hl|].
  split; [unfold stateOf; by rewrite Hp', <- Hst|].
  destruct (state_monotone_except_send
              [CallSendRequest 1 55; ReceiverReady sample_response;
               CallPoll []]
              (run [CallAllocOp] sample_new) 1%positive
              (allocOp_op sample_new) o' ltac:(by vm_compute) Hl Hp')
    as [Hle|[_ Hle]]; rewrite Hst in Hle; [exact Hle|by vm_compute].
Defined.

(** Outside the contract of [releaseOp].  A server Op in progress whose
    reply is settled, but whose [destroy] flag is set: [processUpdates]
    returns at once and the Op stays in progress.  Such a state is reached
    only when the application releases a server Op whose reply has been
    sent, [checkForUpdates] drops it, and [sendReply] is called on it once
    more before [cleanupOps] runs, against the contract
    ([noReplyAfterDrop]). *)
Lemma dropped_server_not_completed :
  (opPool (sample_transport true) !! 1%positive = Some (sample_server true) ∧
   isServerOp (sample_server true) = true ∧
   state (sample_server true) = OpContext.IN_PROGRESS ∧
   replySettled (sample_server true) ∧
   stateOf 1 (processUpdates 1 (sample_transport true))
   = Some OpContext.IN_PROGRESS ∧
   processUpdates 1 (sample_transport true) = sample_transport true) ∧
  (λ o, (isServerOp o, state o, destroy o,
         OutboundMessage.getState (outMessage o),
         Protocol.tag (OutboundMessage.getId (outMessage o)))) <$>
    opPool
      (run [ReceiverReady sample_delegated; CallPoll []; CallReceiveOp;
            CallSendReply 1;
            SenderProgress 1 OutboundMessage.SENT
              (Protocol.mkMessageId sample_opId 0);
            CallPoll []; CallReleaseOp 1; CallCheckForUpdates;
            CallSendReply 1;
            SenderProgress 1 OutboundMessage.SENT
              (Protocol.mkMessageId sample_opId 0)] sample_new)
      !! 1%positive
  = Some (true, OpContext.IN_PROGRESS, true, OutboundMessage.SENT, 0%Z) ∧
  stateOf 1
    (processUpdates 1
       (run [ReceiverReady sample_delegated; CallPoll []; CallReceiveOp;
             CallSendReply 1;
             SenderProgress 1 OutboundMessage.SENT
               (Protocol.mkMessageId sample_opId 0);
             CallPoll []; CallReleaseOp 1; CallCheckForUpdates;
             CallSendReply 1;
             SenderProgress 1 OutboundMessage.SENT
               (Protocol.mkMessageId sample_opId 0)] sample_new))
  = Some OpContext.IN_PROGRESS ∧
  noReplyAfterDrop
    [ReceiverReady sample_delegated; CallPoll []; CallReceiveOp;
     CallSendReply 1;
     SenderProgress 1 OutboundMessage.SENT
       (Protocol.mkMessageId sample_opId 0);
     CallPoll []; CallReleaseOp 1; CallCheckForUpdates;
     CallSendReply 1;
     SenderProgress 1 OutboundMessage.SENT
       (Protocol.mkMessageId sample_opId 0)] sample_new
  = false.
Proof.
  split; [|by vm_compute].
  split_and!; try by vm_compute. right. by vm_compute.
Qed.

(** The same Op with [destroy] clear is completed, and a DONE packet goes
    to the source of the delegated request. *)
Lemma processUpdates_server_in_progress_witness :
  opPool (sample_transport false) !! 1%positive = Some (sample_server false) ∧
  destroy (sample_server false) = false ∧
  isServerOp (sample_server false) = true ∧
  state (sample_server false) = OpContext.IN_PROGRESS ∧
  inMessage (sample_server false)
  = Some (InboundMessage.registerOp 1 sample_delegated) ∧
  stateOf 1 (processUpdates 1 (sample_transport false))
  = Some OpContext.COMPLETED ∧
  trace (processUpdates 1 (sample_transport false))
  = [SendDonePacket 66 (Protocol.mkMessageId sample_opId 2)] ∧
  1%positive ∈ updateHints_ops (processUpdates 1 (sample_transport false)).
Proof.
  assert (replySettled (sample_server false)) as Hr by (right; by vm_compute).
  pose proof (processUpdates_server_in_progress 1 (sample_server false)
                (InboundMessage.registerOp 1 sample_delegated)
                (sample_transport false)
                ltac:(by vm_compute) ltac:(by vm_compute)
                ltac:(by vm_compute) ltac:(by vm_compute)
                ltac:(by vm_compute)) as (H1 & H2 & _).
  destruct (H2 Hr) as (H3 & _ & H4).
  do 5 (split; [by vm_compute|]).
  split; [by apply H1|]. split; [|exact H4].
  apply H3. by vm_compute.
Defined.

(** C2 on a sample: a delegated request arrives, the application
    receives the Op and replies, the Sender sends the reply;
    [processUpdates] completes the Op and a DONE packet goes to the source
    of the request. *)
Lemma processUpdates_server_completes_witness :
  noReplyAfterDrop
    [ReceiverReady sample_delegated; CallPoll []; CallReceiveOp;
     CallSendReply 1;
     SenderProgress 1 OutboundMessage.SENT
       (Protocol.mkMessageId sample_opId 0)] sample_new = true ∧
  opPool
    (run [ReceiverReady sample_delegated; CallPoll []; CallReceiveOp;
          CallSendReply 1;
          SenderProgress 1 OutboundMessage.SENT
            (Protocol.mkMessageId sample_opId 0)] sample_new) !! 1%positive
  = Some sample_replied ∧
  replySettled sample_replied ∧
  stateOf 1
    (processUpdates 1
       (run [ReceiverReady sample_delegated; CallPoll []; CallReceiveOp;
             CallSendReply 1;
             SenderProgress 1 OutboundMessage.SENT
               (Protocol.mkMessageId sample_opId 0)] sample_new))
  = Some OpContext.COMPLETED ∧
  trace
    (processUpdates 1
       (run [ReceiverReady sample_delegated; CallPoll []; CallReceiveOp;
             CallSendReply 1;
             SenderProgress 1 OutboundMessage.SENT
               (Protocol.mkMessageId sample_opId 0)] sample_new))
  = trace
      (run [ReceiverReady sample_delegated; CallPoll []; CallReceiveOp;
            CallSendReply 1;
            SenderProgress 1 OutboundMessage.SENT
              (Protocol.mkMessageId sample_opId 0)] sample_new)
    ++ [SendDonePacket 66 (Protocol.mkMessageId sample_opId 2)].
Proof.
  assert (replySettled sample_replied) as Hr by (right; by split).
  assert (noReplyAfterDrop
            [ReceiverReady sample_delegated; CallPoll []; CallReceiveOp;
             CallSendReply 1;
             SenderProgress 1 OutboundMessage.SENT
               (Protocol.mkMessageId sample_opId 0)] sample_new = true)
    as Hcs by (vm_compute; reflexivity).
  assert (opPool
            (run [ReceiverReady sample_delegated; CallPoll []; CallReceiveOp;
                  CallSendReply 1;
                  SenderProgress 1 OutboundMessage.SENT
                    (Protocol.mkMessageId sample_opId 0)] sample_new)
            !! 1%positive = Some sample_replied)
    as Hp by (vm_compute; reflexivity).
  pose proof (processUpdates_server_completes sample_driver 7 _
                1%positive sample_replied
                (InboundMessage.mk (Protocol.mkMessageId sample_opId 2) 66
                   true (mkMessage true 55) (Some 1%positive))
                Hcs Hp eq_refl eq_refl eq_refl) as (H1 & H2 & _).
  destruct (H2 Hr) as (H3 & _ & _).
  split; [exact Hcs|]. split; [exact Hp|]. split; [exact Hr|].
  split; [by apply H1|]. apply H3. intros [=].
Defined.

(** [sendReply] on a client Op: the assertion of the source fails; in a
    build without assertions the call takes a completed client Op that
    holds its response back to InProgress. *)
Lemma sendReply_restarts_client :
  stateOf 1 (run [CallAllocOp; CallSendRequest 1 55;
                  ReceiverReady sample_response; CallPoll []] sample_new)
  = Some OpContext.COMPLETED ∧
  stateOf 1 (run [CallAllocOp; CallSendRequest 1 55;
                  ReceiverReady sample_response; CallPoll [];
                  CallSendReply 1] sample_new)
  = Some OpContext.IN_PROGRESS.
Proof. by vm_compute. Qed.

(** C3 on samples: a response for a known client Op, a response nobody
    waits for, and a request. *)
Lemma processInboundMessage_spec_witness :
  (∃ o, opPool (run [CallAllocOp] sample_new) !! 1%positive = Some o ∧
        isServerOp o = false ∧
        opPool (processInboundMessage sample_response
                  (run [CallAllocOp] sample_new))
        = <[1%positive :=
              Op_setInMessage
                (Some (InboundMessage.registerOp 1 sample_response)) o]>
            (opPool (run [CallAllocOp] sample_new))) ∧
  processInboundMessage sample_response sample_new
  = emit (ReceiverDropMessage sample_response) sample_new ∧
  (∃ p o, opPool (processInboundMessage sample_request sample_new)
          = <[p := o]> (opPool sample_new) ∧
          opId o = sample_opId ∧ isServerOp o = true ∧
          activeOps (processInboundMessage sample_request sample_new)
          = {[p]} ∪ activeOps sample_new ∧
          remoteOps (processInboundMessage sample_request sample_new)
          = remoteOps sample_new).
Proof.
  split; [|split].
  - destruct (processInboundMessage_spec sample_response
                (run [CallAllocOp] sample_new)) as (HA & _ & _).
    destruct (HA ltac:(by vm_compute) 1%positive ltac:(by vm_compute))
      as (o & Hp & Hs & Hpool & _).
    + apply (Inv_run sample_driver 7 [CallAllocOp]). by vm_compute.
    + by exists o.
  - destruct (processInboundMessage_spec sample_response sample_new)
      as (_ & HB & _).
    apply HB; by vm_compute.
  - destruct (processInboundMessage_spec sample_request sample_new)
      as (_ & _ & HC).
    destruct (HC ltac:(by vm_compute))
      as (p & o & _ & Hpool & Hid & Hs & _ & _ & Ha & Hr & _).
    by exists p, o.
Defined.

(** C4 on a sample, the client that abandons its request: [allocOp],
    [sendRequest], [releaseOp]; then [processUpdates] and [cleanupOps]. *)
Lemma released_ops_reclaimed_witness :
  Inv (run [CallAllocOp; CallSendRequest 1 55; CallReleaseOp 1] sample_new) ∧
  (Z.of_nat
     (length
        (unusedOps
           (run [CallAllocOp; CallSendRequest 1 55; CallReleaseOp 1]
              sample_new))) < 2 ^ 32 - 1)%Z ∧
  opPool (run [CallAllocOp; CallSendRequest 1 55; CallReleaseOp 1] sample_new)
    !! 1%positive
  = Some (Op_setRetained false
            (Op_setState OpContext.IN_PROGRESS (allocOp_op sample_new))) ∧
  (∃ l, trace (cleanupOps
                 (processUpdates 1
                    (run [CallAllocOp; CallSendRequest 1 55; CallReleaseOp 1]
                       sample_new)))
        = trace (processUpdates 1
                   (run [CallAllocOp; CallSendRequest 1 55; CallReleaseOp 1]
                      sample_new)) ++ l ∧
        SenderDropMessage 1 ∈ l) ∧
  opPool (cleanupOps
            (processUpdates 1
               (run [CallAllocOp; CallSendRequest 1 55; CallReleaseOp 1]
                  sample_new))) !! 1%positive = None.
Proof.
  assert (Inv (run [CallAllocOp; CallSendRequest 1 55; CallReleaseOp 1]
                 sample_new)) as HI.
  { apply (Inv_run sample_driver 7). by vm_compute. }
  assert (Z.of_nat
            (length
               (unusedOps
                  (run [CallAllocOp; CallSendRequest 1 55; CallReleaseOp 1]
                     sample_new))) < 2 ^ 32 - 1)%Z as Hlen by (by vm_compute).
  destruct (released_ops_reclaimed _ HI Hlen) as [Hclient _].
  destruct (Hclient 1%positive
              (Op_setRetained false
                 (Op_setState OpContext.IN_PROGRESS (allocOp_op sample_new)))
              ltac:(by vm_compute) ltac:(by vm_compute) ltac:(by vm_compute))
    as (_ & _ & _ & Htrace & _ & _ & Hgone).
  by split_and!.
Defined.

(** C5, a run against the claim as stated.  A client Op is allocated; an
    initial request and a delegated request that carry its opId arrive.
    After the poll three Ops with one opId are in [activeOps]. *)
Lemma server_ops_share_opId :
  activeOps
    (run [CallAllocOp; ReceiverReady sample_request;
          ReceiverReady sample_delegated; CallPoll []] sample_new)
  = {[1; 2; 3]}%positive ∧
  (λ o, (opId o, isServerOp o)) <$>
    opPool (run [CallAllocOp; ReceiverReady sample_request;
                 ReceiverReady sample_delegated; CallPoll []] sample_new)
      !! 1%positive
  = Some (sample_opId, false) ∧
  (λ o, (opId o, isServerOp o)) <$>
    opPool (run [CallAllocOp; ReceiverReady sample_request;
                 ReceiverReady sample_delegated; CallPoll []] sample_new)
      !! 2%positive
  = Some (sample_opId, true) ∧
  (λ o, (opId o, isServerOp o)) <$>
    opPool (run [CallAllocOp; ReceiverReady sample_request;
                 ReceiverReady sample_delegated; CallPoll []] sample_new)
      !! 3%positive
  = Some (sample_opId, true).
Proof. by vm_compute. Qed.

(** C5 (as amended) on a sample: two calls of [allocOp]. *)
Lemma client_opIds_unique_witness :
  (Z.of_nat (length [CallAllocOp; CallAllocOp]) < 2 ^ 64 - 1)%Z ∧
  1%positive ∈ activeOps (run [CallAllocOp; CallAllocOp] sample_new) ∧
  opPool (run [CallAllocOp; CallAllocOp] sample_new) !! 1%positive
  = Some (allocOp_op sample_new) ∧
  isServerOp (allocOp_op sample_new) = false ∧
  1%positive = 1%positive.
Proof.
  assert (1%positive ∈ activeOps (run [CallAllocOp; CallAllocOp] sample_new))
    as Ha by (by vm_compute).
  do 4 (split; [by vm_compute|]).
  apply (client_opIds_unique sample_driver 7 [CallAllocOp; CallAllocOp]
           1%positive 1%positive (allocOp_op sample_new)
           (allocOp_op sample_new));
    try done; by vm_compute.
Defined.

(** C6 on a sample: the first [allocOp] of a new transport. *)
Lemma allocOp_spec_witness :
  Inv sample_new ∧
  nextOpSequenceNumber (allocOp sample_new).2 = 2%Z ∧
  ∃ o, opPool (allocOp sample_new).2 !! (allocOp sample_new).1 = Some o ∧
       opId o = Protocol.mkOpId 7 1 ∧ isServerOp o = false ∧
       retained o = true ∧
       remoteOps (allocOp sample_new).2 !! Protocol.mkOpId 7 1
       = Some (allocOp sample_new).1 ∧
       replyAddress (OutboundMessage.get (outMessage o)) = 99%Z.
Proof.
  split; [apply Inv_Transport_new|].
  destruct (allocOp_spec sample_new (Inv_Transport_new sample_driver 7))
    as (_ & _ & _ & _ & Hn & o & Hp & Hid & Hs & Hr & _ & _ & Hk & _ & Ha).
  split; [exact Hn|]. exists o. by split_and!.
Defined.

(** C7 on samples: an empty queue, and a queue whose front is the Op of a
    request that has just arrived. *)
Lemma receiveOp_spec_witness :
  (receiveOp sample_new).1 = None ∧
  ∃ o m,
    pendingServerOps (run [ReceiverReady sample_request; CallPoll []]
                        sample_new) = [1%positive] ∧
    opPool (run [ReceiverReady sample_request; CallPoll []] sample_new)
      !! 1%positive = Some o ∧
    inMessage o = Some m ∧
    (receiveOp (run [ReceiverReady sample_request; CallPoll []]
                  sample_new)).1 = Some 1%positive ∧
    ∃ o',
      opPool (receiveOp (run [ReceiverReady sample_request; CallPoll []]
                           sample_new)).2 !! 1%positive = Some o' ∧
      retained o' = true ∧
      replyAddress (OutboundMessage.get (outMessage o')) = 55%Z.
Proof.
  split.
  - destruct (receiveOp_spec sample_new) as ([_ Hnone] & _ & _).
    by apply Hnone.
  - destruct (receiveOp_spec
                (run [ReceiverReady sample_request; CallPoll []] sample_new))
      as (_ & _ & Hfront).
    destruct (opPool (run [ReceiverReady sample_request; CallPoll []]
                        sample_new) !! 1%positive) as [o|] eqn:Hp;
      [|by vm_compute in Hp].
    destruct (inMessage o) as [m|] eqn:Hm;
      [|vm_compute in Hp; injection Hp as <-; by vm_compute in Hm].
    assert (replyAddress (InboundMessage.get m) = 55%Z) as Hra.
    { vm_compute in Hp. injection Hp as <-. vm_compute in Hm.
      by injection Hm as <-. }
    destruct (Hfront 1%positive [] o m ltac:(by vm_compute) Hp Hm)
      as (Hret & o' & Ht & Hr & _ & Haddr & _).
    exists o, m. split_and!; [by vm_compute|done|done|done|].
    exists o'. rewrite Ht. simpl. rewrite lookup_insert_eq.
    split_and!; [done|done|congruence].
Defined.

(** C8 on a sample: while [checkForUpdates] runs over one hint, another
    thread keeps posting hints; the pass takes one hint and leaves the
    others queued. *)
Lemma passes_bounded_witness :
  (checkForUpdates_with (λ i t, hintUpdatedOp (Pos.of_nat (i + 5)) t)
     (hintUpdatedOp 1 (sample_transport true))).1 = [1%positive] ∧
  updateHints_order
    (checkForUpdates_with (λ i t, hintUpdatedOp (Pos.of_nat (i + 5)) t)
       (hintUpdatedOp 1 (sample_transport true))).2 = [5%positive] ∧
  length
    (checkForUpdates_with (λ i t, hintUpdatedOp (Pos.of_nat (i + 5)) t)
       (hintUpdatedOp 1 (sample_transport true))).1
  ≤ size (updateHints_ops (hintUpdatedOp 1 (sample_transport true))).
Proof.
  split; [by vm_compute|]. split; [by vm_compute|].
  apply (passes_bounded (λ i t, hintUpdatedOp (Pos.of_nat (i + 5)) t)
           (hintUpdatedOp 1 (sample_transport true))).
Defined.

(** C10 on a sample: the dropped server Op is released once more, the
    stale hint is served, the application calls [sendReply]; then
    [processUpdates] runs twice. *)
Lemma processUpdates_after_drop_witness :
  opPool (sample_transport true) !! 1%positive = Some (sample_server true) ∧
  destroy (sample_server true) = true ∧
  lives 1 [CallReleaseOp 1; CallCheckForUpdates; CallSendReply 1]
    (sample_transport true) ∧
  Nat.iter 2 (processUpdates 1)
    (run [CallReleaseOp 1; CallCheckForUpdates; CallSendReply 1]
       (sample_transport true))
  = run [CallReleaseOp 1; CallCheckForUpdates; CallSendReply 1]
      (sample_transport true).
Proof.
  assert (lives 1 [CallReleaseOp 1; CallCheckForUpdates; CallSendReply 1]
            (sample_transport true)) as Hl.
  { repeat split; vm_compute; eauto. }
  do 2 (split; [by vm_compute|]). split; [exact Hl|].
  apply (processUpdates_after_drop 1 (sample_server true)
           (sample_transport true)
           [CallReleaseOp 1; CallCheckForUpdates; CallSendReply 1] 2);
    [by vm_compute|by vm_compute|exact Hl].
Defined.

(** ** The further properties on the sample data *)

(** X2 on a sample: a transport with a client Op and a server Op. *)
Lemma Transport_destructor_spec_witness :
  dom (opPool (run [CallAllocOp; ReceiverReady sample_request; CallPoll []]
                 sample_new))
  = activeOps (run [CallAllocOp; ReceiverReady sample_request; CallPoll []]
                 sample_new) ∧
  opPool (Transport_destructor
            (run [CallAllocOp; ReceiverReady sample_request; CallPoll []]
               sample_new)) = ∅.
Proof.
  assert (dom (opPool (run [CallAllocOp; ReceiverReady sample_request;
                            CallPoll []] sample_new))
          = activeOps (run [CallAllocOp; ReceiverReady sample_request;
                            CallPoll []] sample_new)) as Hdom
    by (by vm_compute).
  split; [exact Hdom|].
  by destruct (Transport_destructor_spec _ Hdom) as (l & _ & _ & _ & _ & Hp).
Defined.

(** X4 on a sample: the initial request [sample_request] arrives at a new
    transport; the reply goes to address 55 under tag 0. *)
Lemma server_round_trip_witness :
  Protocol.tag (InboundMessage.getId sample_request) ≠ ULTIMATE_RESPONSE_TAG ∧
  InboundMessage.isReady sample_request = true ∧
  pendingServerOps sample_new = [] ∧
  (receiveOp (processUpdates 1 (processInboundMessage sample_request
                                  sample_new))).1 = Some 1%positive ∧
  trace (sendReply 1
           (receiveOp (processUpdates 1 (processInboundMessage sample_request
                                           sample_new))).2)
  = [SenderSendMessage (Protocol.mkMessageId sample_opId 0) 55 1].
Proof.
  assert (Protocol.tag (InboundMessage.getId sample_request)
          ≠ ULTIMATE_RESPONSE_TAG) as Htag by (intros [=]).
  pose proof (server_round_trip sample_new sample_request Htag
                ltac:(reflexivity) ltac:(reflexivity))
    as (H1 & _ & _ & _ & H2 & _).
  split_and!; [exact Htag|reflexivity|reflexivity|exact H1|exact H2].
Defined.

(** X5 on a sample: the first client operation of a new transport. *)
Lemma client_round_trip_witness :
  Inv sample_new ∧
  InboundMessage.getId sample_response
  = Protocol.mkMessageId
      (Protocol.mkOpId (transportId sample_new)
         (nextOpSequenceNumber sample_new)) ULTIMATE_RESPONSE_TAG ∧
  InboundMessage.isReady sample_response = true ∧
  trace (sendRequest 1 55 (allocOp sample_new).2)
  = [SenderSendMessage (Protocol.mkMessageId sample_opId 1) 55 1] ∧
  stateOf 1 (processUpdates 1
               (processInboundMessage sample_response
                  (sendRequest 1 55 (allocOp sample_new).2)))
  = Some OpContext.COMPLETED.
Proof.
  pose proof (client_round_trip sample_new 55 sample_response
                (Inv_Transport_new sample_driver 7)
                ltac:(by vm_compute) ltac:(by vm_compute))
    as (H1 & _ & H2 & _ & _).
  split_and!; [apply Inv_Transport_new|by vm_compute|by vm_compute|
               exact H1|].
  unfold stateOf. cbv zeta in H2.
  change ((allocOp sample_new).1) with 1%positive in H2.
  by rewrite H2.
Defined.

(** X6 on a sample: a client abandons its request and the Op is
    reclaimed; the response arrives afterwards. *)
Lemma late_response_dropped_witness :
  Inv (run [CallAllocOp; CallSendRequest 1 55; CallReleaseOp 1;
            CallCheckForUpdates] sample_new) ∧
  unusedOps (run [CallAllocOp; CallSendRequest 1 55; CallReleaseOp 1;
                  CallCheckForUpdates] sample_new) = [1%positive] ∧
  processInboundMessage sample_response
    (cleanupOps
       (run [CallAllocOp; CallSendRequest 1 55; CallReleaseOp 1;
             CallCheckForUpdates] sample_new))
  = emit (ReceiverDropMessage sample_response)
      (cleanupOps
         (run [CallAllocOp; CallSendRequest 1 55; CallReleaseOp 1;
               CallCheckForUpdates] sample_new)).
Proof.
  assert (Inv (run [CallAllocOp; CallSendRequest 1 55; CallReleaseOp 1;
                    CallCheckForUpdates] sample_new)) as HI.
  { apply (Inv_run sample_driver 7). by vm_compute. }
  split; [exact HI|]. split; [by vm_compute|].
  exact (late_response_dropped _ 1%positive
           (Op_setDestroy true
              (Op_setRetained false
                 (Op_setState OpContext.IN_PROGRESS
                    (allocOp_op sample_new))))
           sample_response HI
           ltac:(by vm_compute) ltac:(by vm_compute)
           ltac:(by vm_compute) ltac:(vm_compute; left)
           ltac:(by vm_compute)).
Defined.

(** X7 on a sample: an Op is released twice and reclaimed; the hint of the
    second release is stale. *)
Lemma checkForUpdates_skips_stale_witness :
  updateHints_order
    (run [CallAllocOp; CallReleaseOp 1; CallCheckForUpdates; CallReleaseOp 1;
          CallCleanupOps] sample_new) = [1%positive] ∧
  activeOps
    (run [CallAllocOp; CallReleaseOp 1; CallCheckForUpdates; CallReleaseOp 1;
          CallCleanupOps] sample_new) = ∅ ∧
  checkForUpdates
    (run [CallAllocOp; CallReleaseOp 1; CallCheckForUpdates;
          CallReleaseOp 1; CallCleanupOps] sample_new)
  = set_updateHints ∅ []
      (run [CallAllocOp; CallReleaseOp 1; CallCheckForUpdates;
            CallReleaseOp 1; CallCleanupOps] sample_new).
Proof.
  assert (activeOps
            (run [CallAllocOp; CallReleaseOp 1; CallCheckForUpdates;
                  CallReleaseOp 1; CallCleanupOps] sample_new) = ∅) as Ha
    by (by vm_compute).
  split; [by vm_compute|]. split; [exact Ha|].
  rewrite (checkForUpdates_skips_stale
             (run [CallAllocOp; CallReleaseOp 1; CallCheckForUpdates;
                   CallReleaseOp 1; CallCleanupOps] sample_new)).
  - f_equal; by vm_compute.
  - intros h _. rewrite Ha. apply not_elem_of_empty.
Defined.

(** X8 on a sample: of two client Ops the first is released and marked;
    [cleanupOps] reclaims it and leaves the second. *)
Lemma cleanupOps_reclaims_exactly_witness :
  Inv (run [CallAllocOp; CallAllocOp; CallReleaseOp 1; CallCheckForUpdates]
         sample_new) ∧
  unusedOps (run [CallAllocOp; CallAllocOp; CallReleaseOp 1;
                  CallCheckForUpdates] sample_new) = [1%positive] ∧
  unusedOps
    (cleanupOps (run [CallAllocOp; CallAllocOp; CallReleaseOp 1;
                      CallCheckForUpdates] sample_new)) = [] ∧
  opPool
    (cleanupOps (run [CallAllocOp; CallAllocOp; CallReleaseOp 1;
                      CallCheckForUpdates] sample_new)) !! 1%positive = None ∧
  opPool
    (cleanupOps (run [CallAllocOp; CallAllocOp; CallReleaseOp 1;
                      CallCheckForUpdates] sample_new)) !! 2%positive
  = opPool (run [CallAllocOp; CallAllocOp; CallReleaseOp 1;
                 CallCheckForUpdates] sample_new) !! 2%positive.
Proof.
  assert (Inv (run [CallAllocOp; CallAllocOp; CallReleaseOp 1;
                    CallCheckForUpdates] sample_new)) as HI.
  { apply (Inv_run sample_driver 7). by vm_compute. }
  destruct (cleanupOps_reclaims_exactly _ HI ltac:(by vm_compute))
    as (Hq & Hpool & _).
  split; [exact HI|]. split; [by vm_compute|]. split; [exact Hq|].
  split; [rewrite (Hpool 1%positive)|rewrite (Hpool 2%positive)];
    by vm_compute.
Defined.

(** X10 on a sample: a released client Op, marked and queued. *)
Lemma reachable_unused_marked_witness :
  (Z.of_nat (length [CallAllocOp; CallReleaseOp 1; CallCheckForUpdates])
   < 2 ^ 64 - 1)%Z ∧
  unusedOps (run [CallAllocOp; CallReleaseOp 1; CallCheckForUpdates]
               sample_new) = [1%positive] ∧
  ∃ o, opPool (run [CallAllocOp; CallReleaseOp 1; CallCheckForUpdates]
                 sample_new) !! 1%positive = Some o ∧
       destroy o = true.
Proof.
  destruct (reachable_unused_marked sample_driver 7
              [CallAllocOp; CallReleaseOp 1; CallCheckForUpdates]
              ltac:(by vm_compute)) as [_ Hmark].
  split; [by vm_compute|]. split; [by vm_compute|].
  destruct (Hmark 1%positive) as [Hfwd _].
  destruct Hfwd as [_ Ho]; [vm_compute; left|exact Ho].
Defined.

(** X11 on a sample: a client Op and the server Op of a request that
    carries the same opId; [remoteOps] knows the client Op only. *)
Lemma reachable_tables_consistent_witness :
  (Z.of_nat (length [CallAllocOp; ReceiverReady sample_request; CallPoll []])
   < 2 ^ 64 - 1)%Z ∧
  remoteOps (run [CallAllocOp; ReceiverReady sample_request; CallPoll []]
               sample_new) !! sample_opId = Some 1%positive ∧
  ∃ o, opPool (run [CallAllocOp; ReceiverReady sample_request; CallPoll []]
                 sample_new) !! 1%positive = Some o ∧
       isServerOp o = false ∧ opId o = sample_opId.
Proof.
  destruct (reachable_tables_consistent sample_driver 7
              [CallAllocOp; ReceiverReady sample_request; CallPoll []]
              ltac:(by vm_compute)) as [_ Hrem].
  split; [by vm_compute|]. split; [by vm_compute|].
  apply (Hrem sample_opId 1%positive). by vm_compute.
Defined.

(** X12 on a sample: a client sends a request and gives up. *)
Lemma release_then_poll_reclaims_witness :
  Inv (run [CallAllocOp; CallSendRequest 1 55] sample_new) ∧
  HintsInv (run [CallAllocOp; CallSendRequest 1 55] sample_new) ∧
  opPool (run [CallAllocOp; CallSendRequest 1 55] sample_new) !! 1%positive
  = Some (Op_setState OpContext.IN_PROGRESS (allocOp_op sample_new)) ∧
  opPool (poll [] (releaseOp 1
                     (run [CallAllocOp; CallSendRequest 1 55] sample_new)))
    !! 1%positive = None ∧
  remoteOps (poll [] (releaseOp 1
                        (run [CallAllocOp; CallSendRequest 1 55] sample_new)))
    !! sample_opId = None.
Proof.
  assert (Inv (run [CallAllocOp; CallSendRequest 1 55] sample_new)) as HI.
  { apply (Inv_run sample_driver 7). by vm_compute. }
  pose proof (HintsInv_run sample_driver 7 [CallAllocOp; CallSendRequest 1 55])
    as HH.
  destruct (release_then_poll_reclaims _ 1%positive
              (Op_setState OpContext.IN_PROGRESS (allocOp_op sample_new)) []
              HI HH ltac:(by vm_compute) ltac:(by left)
              ltac:(by vm_compute)) as (_ & Hpool & Hrem & _).
  split_and!; [exact HI|exact HH|by vm_compute|exact Hpool|by apply Hrem].
Defined.

(** X14 on a sample: the server Op of [sample_request]. *)
Lemma server_queued_once_witness :
  opPool (processInboundMessage sample_request sample_new) !! 1%positive
  = Some (serverOp_for 1 sample_request sample_new) ∧
  pendingServerOps
    (processUpdates 1 (processInboundMessage sample_request sample_new))
  = [1%positive] ∧
  pendingServerOps
    (processUpdates 1
       (processUpdates 1 (processInboundMessage sample_request sample_new)))
  = [1%positive].
Proof.
  destruct (server_queued_once 1 (serverOp_for 1 sample_request sample_new)
              (InboundMessage.registerOp 1 sample_request)
              (processInboundMessage sample_request sample_new)
              ltac:(by vm_compute) ltac:(by vm_compute) ltac:(by vm_compute)
              ltac:(by vm_compute) ltac:(by vm_compute)) as [_ Hready].
  destruct (Hready ltac:(by vm_compute)) as (H1 & _ & _ & H2).
  split; [by vm_compute|]. split; [exact H1|exact H2].
Defined.

(** X15 on a sample: two client Ops are released; the pass takes both
    hints, in the order of the releases. *)
Lemma checkForUpdates_takes_queued_witness :
  HintsInv (run [CallAllocOp; CallAllocOp; CallReleaseOp 2; CallReleaseOp 1]
              sample_new) ∧
  (checkForUpdates_with (λ _ t', t')
     (run [CallAllocOp; CallAllocOp; CallReleaseOp 2; CallReleaseOp 1]
        sample_new)).1 = [2%positive; 1%positive].
Proof.
  pose proof (HintsInv_run sample_driver 7
                [CallAllocOp; CallAllocOp; CallReleaseOp 2; CallReleaseOp 1])
    as HH.
  destruct (checkForUpdates_takes_queued _ HH ltac:(by vm_compute))
    as (Htaken & _ & _).
  split; [exact HH|]. rewrite Htaken. by vm_compute.
Defined.

(** X3 on a sample: a [poll] that reclaims a client Op removes its entry
    and leaves the counter at 2. *)
Lemma only_allocOp_registers_witness :
  CallPoll [] ≠ CallAllocOp ∧
  nextOpSequenceNumber
    (step (CallPoll []) (run [CallAllocOp; CallReleaseOp 1] sample_new))
  = 2%Z ∧
  remoteOps
    (step (CallPoll []) (run [CallAllocOp; CallReleaseOp 1] sample_new))
  ⊆ remoteOps (run [CallAllocOp; CallReleaseOp 1] sample_new).
Proof.
  destruct (only_allocOp_registers (CallPoll [])
              (run [CallAllocOp; CallReleaseOp 1] sample_new)
              ltac:(done)) as (Hn & Hsub & _).
  split; [done|]. split; [|exact Hsub]. rewrite Hn. by vm_compute.
Defined.
